(** * tee-js: stream splitting ([Array.tee]) and the consumer runner
      ([Array.prototype.tee])

    A shallow embedding of [createTeeIterators] and [teeConsumers] and the
    properties their specification states about them.

    The closure state of one [createTeeIterators] call (source iterator,
    read positions, shared buffer, the exhausted flag, the captured error
    and the [done] local of every cursor) is one record that every cursor
    operation takes and returns.  JavaScript values are a first-order
    inductive type; function values are closure identifiers that the host
    applies. *)

From Stdlib Require Import ZArith QArith Qround Lia.
From stdpp Require Import base list strings pretty.

Set Warnings "-register-all".
Open Scope Z_scope.

(** ** JavaScript values *)

Inductive error_class := ErrorC | TypeErrorC | RangeErrorC.

(** A finite double is a rational; [Math.floor] is exact on them. *)
Inductive number :=
| Fin (q : Q)
| NaN
| Infinity (negative : bool).

Inductive value :=
| VUndefined
| VNull
| VBool (b : bool)
| VNum (n : number)
| VStr (s : string)
| VFun (closure : nat)
| VArr (elems : list value)
| VObj (props : list (string * value))
| VErr (cls : error_class) (message : string).

(** A statement or call either completes with a result or throws. *)
Inductive completion (A : Type) :=
| Normal (a : A)
| Throw (e : value).
Arguments Normal {A} a.
Arguments Throw {A} e.

(** The [{ value, done }] object of the iteration protocol. *)
Record IteratorResult := { value_of : value; done_of : bool }.

Definition of_Z (z : Z) : value := VNum (Fin (inject_Z z)).
Definition of_nat (n : nat) : value := of_Z (Z.of_nat n).

(** [typeof v] *)
Definition typeof (v : value) : string :=
  match v with
  | VUndefined => "undefined"
  | VNull => "object"
  | VBool _ => "boolean"
  | VNum _ => "number"
  | VStr _ => "string"
  | VFun _ => "function"
  | VArr _ => "object"
  | VObj _ => "object"
  | VErr _ _ => "object"
  end.

(** [if (v)]: ToBoolean *)
Definition truthy (v : value) : bool :=
  match v with
  | VUndefined | VNull => false
  | VBool b => b
  | VNum (Fin q) => negb (Qeq_bool q 0)
  | VNum NaN => false
  | VNum (Infinity _) => true
  | VStr s => negb (String.eqb s "")
  | VFun _ | VArr _ | VObj _ | VErr _ _ => true
  end.

(** [Math.floor] *)
Definition Math_floor (n : number) : number :=
  match n with
  | Fin q => Fin (inject_Z (Qfloor q))
  | NaN => NaN
  | Infinity s => Infinity s
  end.

(** Rounding toward zero, the rounding the specification names. *)
Definition truncate (q : Q) : Z :=
  if Qle_bool 0 q then Qfloor q else Qceiling q.

(** [Array(n)] for a number [n]: the length of the new array, or nothing
    when [n] is not an integer in [0, 2^32) and [Array] throws a
    RangeError. *)
Definition Array_length (n : number) : option nat :=
  match n with
  | Fin q =>
      let z := Qfloor q in
      if Qeq_bool q (inject_Z z) && (0 <=? z) && (z <? 2 ^ 32)
      then Some (Z.to_nat z) else None
  | _ => None
  end.

(** [Math.min(...xs)]; [None] is the [Infinity] of an empty argument list. *)
Definition Math_min (xs : list Z) : option Z :=
  match xs with
  | [] => None
  | x :: xs' => Some (foldr Z.min x xs')
  end.

Definition Math_max (xs : list Z) : option Z :=
  match xs with
  | [] => None
  | x :: xs' => Some (foldr Z.max x xs')
  end.

(** [arr[p]] for a number [p]: [undefined] outside the array. *)
Definition js_index (arr : list value) (p : Z) : value :=
  if p <? 0 then VUndefined else default VUndefined (arr !! Z.to_nat p).

(** ** The splitter: [createTeeIterators] *)

Section Splitter.

(** The host's iteration protocol: the states of source iterators, the
    source's [next()], which answers a [{ value, done }] object or throws,
    and what reading [v[Symbol.iterator]] gives (the read may throw; a
    falsy property is [None]; otherwise the result of calling the
    property). *)
Variable Src : Type.
Variable src_next : Src -> completion IteratorResult * Src.
Variable symbol_iterator : value -> completion (option (completion Src)).

(** The variables that the closures of one [createTeeIterators] call
    share; [done] holds the [done] local of [createTeedIterator(index)]
    at position [index]. *)
Record tee_state := {
  count : nat;
  sourceIterator : Src;
  iteratorIndexPositions : list Z;
  streamBuffer : list value;
  streamExhausted : bool;
  streamError : value;
  done : list bool
}.

Definition set_source (it : Src) (st : tee_state) : tee_state :=
  {| count := count st; sourceIterator := it;
     iteratorIndexPositions := iteratorIndexPositions st;
     streamBuffer := streamBuffer st;
     streamExhausted := streamExhausted st;
     streamError := streamError st; done := done st |}.

Definition set_positions (ps : list Z) (st : tee_state) : tee_state :=
  {| count := count st; sourceIterator := sourceIterator st;
     iteratorIndexPositions := ps;
     streamBuffer := streamBuffer st;
     streamExhausted := streamExhausted st;
     streamError := streamError st; done := done st |}.

Definition set_buffer (b : list value) (st : tee_state) : tee_state :=
  {| count := count st; sourceIterator := sourceIterator st;
     iteratorIndexPositions := iteratorIndexPositions st;
     streamBuffer := b;
     streamExhausted := streamExhausted st;
     streamError := streamError st; done := done st |}.

Definition set_exhausted (b : bool) (st : tee_state) : tee_state :=
  {| count := count st; sourceIterator := sourceIterator st;
     iteratorIndexPositions := iteratorIndexPositions st;
     streamBuffer := streamBuffer st;
     streamExhausted := b;
     streamError := streamError st; done := done st |}.

Definition set_error (e : value) (st : tee_state) : tee_state :=
  {| count := count st; sourceIterator := sourceIterator st;
     iteratorIndexPositions := iteratorIndexPositions st;
     streamBuffer := streamBuffer st;
     streamExhausted := streamExhausted st;
     streamError := e; done := done st |}.

Definition set_done (index : nat) (st : tee_state) : tee_state :=
  {| count := count st; sourceIterator := sourceIterator st;
     iteratorIndexPositions := iteratorIndexPositions st;
     streamBuffer := streamBuffer st;
     streamExhausted := streamExhausted st;
     streamError := streamError st; done := <[index := true]> (done st) |}.

(** Lines 37-53. *)
Definition getNextStreamElement (st : tee_state)
  : completion IteratorResult * tee_state :=
  if streamExhausted st
  then (Normal {| value_of := VUndefined; done_of := true |}, st)
  else if truthy (streamError st)
  then (Throw (streamError st), st)
  else
    match src_next (sourceIterator st) with
    | (Normal result, it) =>
        let st := set_source it st in
        (Normal result,
         if done_of result then set_exhausted true st else st)
    | (Throw e, it) => (Throw e, set_error e (set_source it st))
    end.

(** The loop of lines 61-63. *)
Definition rebase (n : nat) (deleted : Z) (ps : list Z) : list Z :=
  foldl (fun ps i => alter (fun p => p - deleted) i ps) ps (seq 0 n).

(** Lines 57-64.  With no cursor [Math.min()] is [Infinity]: the splice
    empties the buffer and the loop body never runs. *)
Definition cleanupStreamBuffer (st : tee_state) : tee_state :=
  match Math_min (iteratorIndexPositions st) with
  | None => set_buffer [] st
  | Some deletedElementsCount =>
      set_positions
        (rebase (count st) deletedElementsCount (iteratorIndexPositions st))
        (set_buffer
           (drop (Z.to_nat deletedElementsCount) (streamBuffer st)) st)
  end.

(** [iteratorIndexPositions[index]++] *)
Definition increment (index : nat) (st : tee_state) : tee_state :=
  set_positions (alter Z.succ index (iteratorIndexPositions st)) st.

(** Lines 74-102: [next()] of the cursor [createTeedIterator(index)];
    cursors exist for [index < count] only, so its reads of
    [iteratorIndexPositions] and of [done] are in range. *)
Definition next (index : nat) (st : tee_state)
  : completion IteratorResult * tee_state :=
  if (done st !!! index : bool)
  then (Normal {| value_of := VUndefined; done_of := true |}, st)
  else if iteratorIndexPositions st !!! index
          <? Z.of_nat (length (streamBuffer st))
  then
    let value := js_index (streamBuffer st)
                   (iteratorIndexPositions st !!! index) in
    (Normal {| value_of := value; done_of := false |},
     cleanupStreamBuffer (increment index st))
  else
    match getNextStreamElement st with
    | (Throw e, st) => (Throw e, st)
    | (Normal result, st) =>
        if done_of result
        then (Normal {| value_of := VUndefined; done_of := true |},
              set_done index st)
        else
          let st := set_buffer (streamBuffer st ++ [value_of result]) st in
          (Normal {| value_of := value_of result; done_of := false |},
           cleanupStreamBuffer (increment index st))
    end.

(** Lines 103-108: [return(value)]. *)
Definition return_ (index : nat) (v : value) (st : tee_state)
  : completion IteratorResult * tee_state :=
  let st := if (done st !!! index : bool) then st else set_done index st in
  (Normal {| value_of := v; done_of := done st !!! index |}, st).

(** Lines 109-114: [throw(e)]. *)
Definition throw_ (index : nat) (e : value) (st : tee_state)
  : completion IteratorResult * tee_state :=
  let st := if (done st !!! index : bool) then st else set_done index st in
  (Throw e, st).

(** Lines 29-33 and 117: the state in which the [n] cursors are handed
    out. *)
Definition tee_init (it : Src) (n : nat) : tee_state :=
  {| count := n; sourceIterator := it;
     iteratorIndexPositions := replicate n 0;
     streamBuffer := [];
     streamExhausted := false;
     streamError := VNull;
     done := replicate n false |}.

(** Lines 20-33 and 117.  The cursors returned are the indices below
    [count] of the resulting state. *)
Definition createTeeIterators (arguments : list value)
  : completion tee_state :=
  if negb (length arguments =? 2)%nat
  then Throw (VErr ErrorC ("Expected 2 arguments but recieved: "
                           +:+ pretty (length arguments)))
  else
    let sourceIterable := default VUndefined (arguments !! 0%nat) in
    let count := default VUndefined (arguments !! 1%nat) in
    match symbol_iterator sourceIterable with
    | Throw e => Throw e
    | Normal None => Throw (VErr ErrorC "Expected Arg 1 to be an iterator.")
    | Normal (Some make) =>
        match count with
        | VNum n =>
            let count := Math_floor n in
            match make with
            | Throw e => Throw e
            | Normal sourceIterator =>
                match Array_length count with
                | None => Throw (VErr RangeErrorC "Invalid array length")
                | Some k => Normal (tee_init sourceIterator k)
                end
            end
        | _ => Throw (VErr ErrorC "Expected Arg 2 to be an integer")
        end
    end.

(** One call on a cursor, and runs of such calls. *)
Inductive op :=
| Next (index : nat)
| Return (index : nat) (v : value)
| ThrowOp (index : nat) (e : value).

Definition cursor_of (o : op) : nat :=
  match o with Next i | Return i _ | ThrowOp i _ => i end.

Definition step (o : op) (st : tee_state)
  : completion IteratorResult * tee_state :=
  match o with
  | Next i => next i st
  | Return i v => return_ i v st
  | ThrowOp i e => throw_ i e st
  end.

(** The results of a run, oldest first, with the final state. *)
Fixpoint run (ops : list op) (st : tee_state)
  : list (completion IteratorResult) * tee_state :=
  match ops with
  | [] => ([], st)
  | o :: ops' =>
      let '(r, st') := step o st in
      let '(rs, st'') := run ops' st' in
      (r :: rs, st'')
  end.

End Splitter.

Arguments count {Src} _.
Arguments sourceIterator {Src} _.
Arguments iteratorIndexPositions {Src} _.
Arguments streamBuffer {Src} _.
Arguments streamExhausted {Src} _.
Arguments streamError {Src} _.
Arguments done {Src} _.
Arguments set_done {Src} index st.
Arguments getNextStreamElement {Src} src_next st.
Arguments cleanupStreamBuffer {Src} st.
Arguments increment {Src} index st.
Arguments next {Src} src_next index st.
Arguments return_ {Src} index v st.
Arguments throw_ {Src} index e st.
Arguments tee_init {Src} it n.
Arguments createTeeIterators {Src} symbol_iterator arguments.
Arguments step {Src} src_next o st.
Arguments run {Src} src_next ops st.

(** ** Sources with a finite script

    A source iterator that answers its pulls from a script: an entry is the
    element the pull yields or the error it raises, and after the script
    every pull reports the end.  [pulls] counts the [next()] calls the
    iterator has received.  The iterator of an array is the script of its
    elements. *)

Record Scripted := { script : list (completion value); pulls : nat }.

Definition Scripted_next (it : Scripted)
  : completion IteratorResult * Scripted :=
  match script it with
  | [] => (Normal {| value_of := VUndefined; done_of := true |},
           {| script := []; pulls := S (pulls it) |})
  | Normal v :: rest =>
      (Normal {| value_of := v; done_of := false |},
       {| script := rest; pulls := S (pulls it) |})
  | Throw e :: rest => (Throw e, {| script := rest; pulls := S (pulls it) |})
  end.

Definition values (S : list value) : Scripted :=
  {| script := Normal <$> S; pulls := 0 |}.

Definition chars (s : string) : list value :=
  (fun c => VStr (String c EmptyString)) <$> String.list_ascii_of_string s.

(** [v[Symbol.iterator]] for the values of this model: arrays and strings
    are iterable, reading a property of [undefined] or [null] throws, no
    other value has the property. *)
Definition host_symbol_iterator (v : value)
  : completion (option (completion Scripted)) :=
  match v with
  | VArr elems => Normal (Some (Normal (values elems)))
  | VStr s => Normal (Some (Normal (values (chars s))))
  | VUndefined | VNull =>
      Throw (VErr TypeErrorC "Cannot read properties of undefined")
  | _ => Normal None
  end.

(** A source whose first pull raises. *)
Definition failing_source : Scripted :=
  {| script := [Throw (VErr ErrorC "boom")]; pulls := 0 |}.

(** [Array.tee(S, n)] on an array [S]. *)
Definition split (S : list value) (n : Z) : completion (tee_state Scripted) :=
  createTeeIterators host_symbol_iterator [VArr S; of_Z n].

(** ** The buffer window *)

Section WindowDef.

Context {Src : Type}.
Implicit Types (st : tee_state Src).

Definition buffer_length st : Z := Z.of_nat (length (streamBuffer st)).

(** Every state that cursor calls produce has its positions inside the
    buffer, a cursor at the front of the buffer and one at its end. *)
Record window st : Prop := {
  window_count : length (iteratorIndexPositions st) = count st;
  window_done : length (done st) = count st;
  window_bounds :
    Forall (fun p => 0 <= p <= buffer_length st) (iteratorIndexPositions st);
  window_ends :
    iteratorIndexPositions st <> [] ->
    0 ∈ iteratorIndexPositions st /\
    buffer_length st ∈ iteratorIndexPositions st
}.

(** The read positions of the cursors that are not terminal. *)
Definition live_positions st : list Z :=
  fst <$> List.filter (fun pd => negb pd.2)
            (zip (iteratorIndexPositions st) (done st)).

(** The error [e] raised by the source is held in [streamError]. *)
Definition captured (e : value) (it : Src) st : Prop :=
  sourceIterator st = it /\ streamError st = e /\ streamExhausted st = false.

End WindowDef.

(** ** The states of a splitter over an array

    [state_of S cs] is the state of a splitter over the array [S] whose
    cursor [i] has been answered [cs !! i] times, counting the first answer
    that reported the end and none after it: it has yielded its first
    [cs !! i `min` length S] elements and is terminal when
    [length S < cs !! i]. *)

Definition pulled (S : list value) (cs : list nat) : nat :=
  max_list cs `min` length S.

Definition raw (S : list value) (cs : list nat) : list Z :=
  (fun c => Z.of_nat (c `min` length S)) <$> cs.

Definition base (S : list value) (cs : list nat) : Z :=
  default 0 (Math_min (raw S cs)).

Definition state_of (S : list value) (cs : list nat) : tee_state Scripted :=
  {| count := length cs;
     sourceIterator :=
       {| script := Normal <$> drop (pulled S cs) S;
          pulls := pulled S cs
                   + (if bool_decide (length S < max_list cs)%nat
                      then 1 else 0)%nat |};
     iteratorIndexPositions := (fun p => p - base S cs) <$> raw S cs;
     streamBuffer := drop (Z.to_nat (base S cs)) (take (pulled S cs) S);
     streamExhausted := bool_decide (length S < max_list cs)%nat;
     streamError := VNull;
     done := (fun c => bool_decide (length S < c)%nat) <$> cs |}.

(** What the pull number [c] (from 0) of a direct iteration of [S]
    answers, and the number of answers counted after it. *)
Definition answer (S : list value) (c : nat) : completion IteratorResult :=
  match S !! c with
  | Some v => Normal {| value_of := v; done_of := false |}
  | None => Normal {| value_of := VUndefined; done_of := true |}
  end.

Definition advance (S : list value) (c : nat) : nat :=
  if bool_decide (length S < c)%nat then c else Datatypes.S c.

(** The answers that cursor [i] received in a run of [next()] calls made
    by the cursors [sched], in order. *)
Definition answers (i : nat) (sched : list nat)
    (results : list (completion IteratorResult))
  : list (completion IteratorResult) :=
  snd <$> List.filter (fun ir => Nat.eqb ir.1 i) (zip sched results).

(** The number of calls that cursor [i] makes in [sched]. *)
Definition calls_of (i : nat) (sched : list nat) : nat :=
  length (List.filter (fun j => Nat.eqb j i) sched).

Definition yield (v : value) : completion IteratorResult :=
  Normal {| value_of := v; done_of := false |}.

Definition finished : completion IteratorResult :=
  Normal {| value_of := VUndefined; done_of := true |}.

(** The answer counts after the cursors [sched] have called [next()], in
    that order. *)
Definition counts_after (S : list value) (sched : list nat) (cs : list nat)
  : list nat :=
  foldl (fun cs i => alter (advance S) i cs) cs sched.

(** ** The consumer runner: [teeConsumers] *)

(** The own properties of an object literal; the first entry of a name
    is the property. *)
Fixpoint assoc (k : string) (props : list (string * value)) : option value :=
  match props with
  | [] => None
  | (k', v) :: rest => if String.eqb k k' then Some v else assoc k rest
  end.

(** [k in v] and [v.k] for an object [v] and the names [kind], [fn] and
    [initVal], which arrays and error objects do not have. *)
Definition has_property (k : string) (v : value) : bool :=
  match v with
  | VObj props => bool_decide (is_Some (assoc k props))
  | _ => false
  end.

Definition get (v : value) (k : string) : value :=
  match v with
  | VObj props => default VUndefined (assoc k props)
  | _ => VUndefined
  end.

(** [v === s] for a string literal [s] *)
Definition is_string (s : string) (v : value) : bool :=
  match v with
  | VStr s' => String.eqb s' s
  | _ => false
  end.

(** [v === undefined] and [v === null] *)
Definition is_undefined (v : value) : bool :=
  match v with VUndefined => true | _ => false end.

Definition is_null (v : value) : bool :=
  match v with VNull => true | _ => false end.

(** [Array.isArray(v)] *)
Definition Array_isArray (v : value) : bool :=
  match v with VArr _ => true | _ => false end.

(** [String(v)], used on a [kind] that validation has found to be a
    string. *)
Definition String_of (v : value) : string :=
  match v with
  | VStr s => s
  | VUndefined => "undefined"
  | VNull => "null"
  | VBool true => "true"
  | VBool false => "false"
  | _ => "[object]"
  end.

(** A call of a consumer function, as the host saw it: callee and
    arguments. *)
Definition call_record : Type := value * list value.

(** What [teeConsumers] did: how it completed, the calls of consumer
    functions it made, in order, and the number of times the array's
    iterator was pulled. *)
Record execution := {
  outcome : completion value;
  calls : list call_record;
  source_pulls : nat
}.

(** The locals of one round of the loop over the consumers (lines
    170-173). *)
Record locals := {
  mapResult : list value;
  reduceResult : value;
  filterResult : list value;
  elementIdx : nat
}.

Definition elementIdx_incr (L : locals) : locals :=
  {| mapResult := mapResult L; reduceResult := reduceResult L;
     filterResult := filterResult L; elementIdx := S (elementIdx L) |}.

Definition mapResult_push (v : value) (L : locals) : locals :=
  {| mapResult := mapResult L ++ [v]; reduceResult := reduceResult L;
     filterResult := filterResult L; elementIdx := elementIdx L |}.

Definition filterResult_push (v : value) (L : locals) : locals :=
  {| mapResult := mapResult L; reduceResult := reduceResult L;
     filterResult := filterResult L ++ [v]; elementIdx := elementIdx L |}.

Definition set_reduceResult (v : value) (L : locals) : locals :=
  {| mapResult := mapResult L; reduceResult := v;
     filterResult := filterResult L; elementIdx := elementIdx L |}.

Section Runner.

(** The host's function application: the result of calling the closure
    with the arguments, or what the call throws.  The runner sees nothing
    else of a consumer function; a call leaves the array under iteration
    as it is. *)
Variable call : nat -> list value -> completion value.

(** [f(args)] *)
Definition js_call (f : value) (args : list value) : completion value :=
  match f with
  | VFun closure => call closure args
  | _ => Throw (VErr TypeErrorC "fn.fn is not a function")
  end.

(** Lines 150-158: the checks on one consumer; the error thrown, if
    any. *)
Definition check_consumer (consumer : value) : option value :=
  if negb (String.eqb (typeof consumer) "object") || is_null consumer
  then Some (VErr TypeErrorC "Each consumer must be an object")
  else if negb (has_property "kind" consumer)
          || negb (String.eqb (typeof (get consumer "kind")) "string")
  then Some (VErr TypeErrorC
               "Each consumer must have a string kind property")
  else if negb (String.eqb (typeof (get consumer "fn")) "function")
  then Some (VErr TypeErrorC
               "Each consumer must have a function fn property")
  else None.

(** Lines 149-162: the loop stops at the first consumer that fails a
    check. *)
Fixpoint validate (consumers : list value) : option value :=
  match consumers with
  | [] => None
  | consumer :: rest =>
      match check_consumer consumer with
      | Some e => Some e
      | None => validate rest
      end
  end.

(** Lines 176-205: the body of the loop over the elements. *)
Definition consume (fn elem : value) (L : locals) (log : list call_record)
  : completion locals * list call_record :=
  let kind := get fn "kind" in
  let idx := of_nat (elementIdx L) in
  if is_string "forEach" kind then
    let args := [elem; idx] in
    match js_call (get fn "fn") args with
    | Throw e => (Throw e, log ++ [(get fn "fn", args)])
    | Normal _ => (Normal (elementIdx_incr L), log ++ [(get fn "fn", args)])
    end
  else if is_string "map" kind then
    let args := [elem; idx] in
    match js_call (get fn "fn") args with
    | Throw e => (Throw e, log ++ [(get fn "fn", args)])
    | Normal val =>
        (Normal (elementIdx_incr (mapResult_push val L)),
         log ++ [(get fn "fn", args)])
    end
  else if is_string "reduce" kind then
    if (elementIdx L =? 0)%nat && is_undefined (reduceResult L)
    then (Normal (elementIdx_incr (set_reduceResult elem L)), log)
    else
      let args := [reduceResult L; elem; idx] in
      match js_call (get fn "fn") args with
      | Throw e => (Throw e, log ++ [(get fn "fn", args)])
      | Normal r =>
          (Normal (elementIdx_incr (set_reduceResult r L)),
           log ++ [(get fn "fn", args)])
      end
  else if is_string "filter" kind then
    let args := [elem; idx] in
    match js_call (get fn "fn") args with
    | Throw e => (Throw e, log ++ [(get fn "fn", args)])
    | Normal keep =>
        (Normal (elementIdx_incr
                   (if truthy keep then filterResult_push elem L else L)),
         log ++ [(get fn "fn", args)])
    end
  else
    (Throw (VErr ErrorC ("Unknown consumer kind: " +:+ String_of kind)), log).

(** Lines 175-206: [for (const elem of iterators[consumerIdx])].  The loop
    pulls cursor [consumerIdx] until it reports the end; when the body
    throws, the loop closes the cursor with [return()] before the error
    leaves it.  [fuel] bounds the number of pulls. *)
Fixpoint for_of (fuel : nat) (consumerIdx : nat) (fn : value)
    (st : tee_state Scripted) (L : locals) (log : list call_record)
  : option (completion locals * tee_state Scripted * list call_record) :=
  match fuel with
  | O => None
  | S fuel' =>
      match next Scripted_next consumerIdx st with
      | (Throw e, st') => Some (Throw e, st', log)
      | (Normal result, st') =>
          if done_of result then Some (Normal L, st', log)
          else
            match consume fn (value_of result) L log with
            | (Throw e, log') =>
                Some (Throw e, (return_ consumerIdx VUndefined st').2, log')
            | (Normal L', log') => for_of fuel' consumerIdx fn st' L' log'
            end
      end
  end.

(** Lines 208-221: the result stored for a consumer; an unrecognized
    [kind] stores nothing. *)
Definition store (fn : value) (consumerIdx : nat) (L : locals)
    (outResults : list value) : list value :=
  let kind := get fn "kind" in
  if is_string "forEach" kind then <[consumerIdx:=VUndefined]> outResults
  else if is_string "reduce" kind
  then <[consumerIdx:=reduceResult L]> outResults
  else if is_string "map" kind
  then <[consumerIdx:=VArr (mapResult L)]> outResults
  else if is_string "filter" kind
  then <[consumerIdx:=VArr (filterResult L)]> outResults
  else outResults.

(** The locals at the start of the round of consumer [fn] (lines
    170-173). *)
Definition initial_locals (fn : value) : locals :=
  {| mapResult := [];
     reduceResult :=
       if is_string "reduce" (get fn "kind")
       then get fn "initVal" else VUndefined;
     filterResult := [];
     elementIdx := 0 |}.

(** Lines 168-222: the loop over the consumers, from [consumerIdx] on;
    [consumerFns] are the consumers from that index. *)
Fixpoint process (fuel : nat) (consumerFns : list value) (consumerIdx : nat)
    (st : tee_state Scripted) (outResults : list value)
    (log : list call_record)
  : option (completion (list value) * tee_state Scripted * list call_record)
  :=
  match consumerFns with
  | [] => Some (Normal outResults, st, log)
  | fn :: rest =>
      match for_of fuel consumerIdx fn st (initial_locals fn) log with
      | None => None
      | Some (Throw e, st', log') => Some (Throw e, st', log')
      | Some (Normal L', st', log') =>
          process fuel rest (S consumerIdx) st'
            (store fn consumerIdx L' outResults) log'
      end
  end.

Definition threw (e : value) : execution :=
  {| outcome := Throw e; calls := []; source_pulls := 0 |}.

(** Lines 140-225: [this.tee(...consumers)].  [fuel] bounds the pulls of
    each loop over the elements; without enough of it there is no
    result. *)
Definition teeConsumers (fuel : nat) (this : value) (consumers : list value)
  : option execution :=
  if negb (Array_isArray this)
  then Some (threw (VErr TypeErrorC "teeConsumers must be called on an array"))
  else if (length consumers =? 0)%nat
  then Some (threw (VErr ErrorC "At least one consumer must be provided"))
  else
    match validate consumers with
    | Some e => Some (threw e)
    | None =>
        let consumerFns := consumers in
        let outResults := replicate (length consumerFns) (of_Z 0) in
        match createTeeIterators host_symbol_iterator
                [this; of_nat (length consumerFns)] with
        | Throw e => Some (threw e)
        | Normal iterators =>
            match process fuel consumerFns 0 iterators outResults [] with
            | None => None
            | Some (Normal outResults, st, log) =>
                Some {| outcome := Normal (VArr outResults); calls := log;
                        source_pulls := pulls (sourceIterator st) |}
            | Some (Throw e, st, log) =>
                Some {| outcome := Throw e; calls := log;
                        source_pulls := pulls (sourceIterator st) |}
            end
        end
    end.

(** The loop body applied to the elements [elems] in order, without the
    cursor: what the loop over the elements does when its cursor yields
    [elems] and then the end. *)
Fixpoint consume_all (fn : value) (elems : list value) (L : locals)
    (log : list call_record) : completion locals * list call_record :=
  match elems with
  | [] => (Normal L, log)
  | elem :: rest =>
      match consume fn elem L log with
      | (Throw e, log') => (Throw e, log')
      | (Normal L', log') => consume_all fn rest L' log'
      end
  end.

(** The loop over the consumers when every cursor yields [elems]. *)
Fixpoint process_all (elems : list value) (consumerFns : list value)
    (consumerIdx : nat) (outResults : list value) (log : list call_record)
  : completion (list value) * list call_record :=
  match consumerFns with
  | [] => (Normal outResults, log)
  | fn :: rest =>
      match consume_all fn elems (initial_locals fn) log with
      | (Throw e, log') => (Throw e, log')
      | (Normal L', log') =>
          process_all elems rest (S consumerIdx)
            (store fn consumerIdx L' outResults) log'
      end
  end.

(** *** The runner as the specification words it

    [fn] receives the element and its zero-based index; a call that throws
    ends the run with what it threw. *)

(** map: collect [fn(element, index)] in order. *)
Fixpoint map_spec (f : value) (index : nat) (elems : list value)
  : completion (list value) :=
  match elems with
  | [] => Normal []
  | elem :: rest =>
      match js_call f [elem; of_nat index] with
      | Throw e => Throw e
      | Normal val =>
          match map_spec f (S index) rest with
          | Throw e => Throw e
          | Normal vals => Normal (val :: vals)
          end
      end
  end.

(** filter: collect the elements for which [fn(element, index)] is
    truthy. *)
Fixpoint filter_spec (f : value) (index : nat) (elems : list value)
  : completion (list value) :=
  match elems with
  | [] => Normal []
  | elem :: rest =>
      match js_call f [elem; of_nat index] with
      | Throw e => Throw e
      | Normal keep =>
          match filter_spec f (S index) rest with
          | Throw e => Throw e
          | Normal kept => Normal (if truthy keep then elem :: kept else kept)
          end
      end
  end.

(** reduce: apply [fn(accumulator, element, index)] to the elements from
    [index] on; the result and the calls made. *)
Fixpoint reduce_from (f : value) (index : nat) (accumulator : value)
    (elems : list value) : completion value * list call_record :=
  match elems with
  | [] => (Normal accumulator, [])
  | elem :: rest =>
      let args := [accumulator; elem; of_nat index] in
      match js_call f args with
      | Throw e => (Throw e, [(f, args)])
      | Normal accumulator' =>
          let '(r, made) := reduce_from f (S index) accumulator' rest in
          (r, (f, args) :: made)
      end
  end.

(** reduce: with an initial value, seed the accumulator with it and start
    at index 0; without, seed it with the first element and start at index
    1; on an empty source without an initial value the result is the
    no-value marker. *)
Definition reduce_spec (f initVal : value) (elems : list value)
  : completion value * list call_record :=
  if is_undefined initVal
  then match elems with
       | [] => (Normal VUndefined, [])
       | first :: rest => reduce_from f 1 first rest
       end
  else reduce_from f 0 initVal elems.

(** forEach: call [fn(element, index)] on every element; the result is
    the no-value marker. *)
Fixpoint forEach_spec (f : value) (index : nat) (elems : list value)
  : completion value :=
  match elems with
  | [] => Normal VUndefined
  | elem :: rest =>
      match js_call f [elem; of_nat index] with
      | Throw e => Throw e
      | Normal _ => forEach_spec f (S index) rest
      end
  end.

Definition array_of (c : completion (list value)) : completion value :=
  match c with
  | Normal vals => Normal (VArr vals)
  | Throw e => Throw e
  end.

(** The result of one descriptor over the source [elems]. *)
Definition descriptor_spec (fn : value) (elems : list value)
  : completion value :=
  let kind := get fn "kind" in
  if is_string "map" kind then array_of (map_spec (get fn "fn") 0 elems)
  else if is_string "filter" kind
  then array_of (filter_spec (get fn "fn") 0 elems)
  else if is_string "reduce" kind
  then (reduce_spec (get fn "fn") (get fn "initVal") elems).1
  else forEach_spec (get fn "fn") 0 elems.

(** One result per descriptor, in the order of the descriptors. *)
Fixpoint results_spec (elems : list value) (descriptors : list value)
  : completion (list value) :=
  match descriptors with
  | [] => Normal []
  | fn :: rest =>
      match descriptor_spec fn elems with
      | Throw e => Throw e
      | Normal r =>
          match results_spec elems rest with
          | Throw e => Throw e
          | Normal rs => Normal (r :: rs)
          end
      end
  end.

Definition run_spec (elems : list value) (descriptors : list value)
  : completion value :=
  array_of (results_spec elems descriptors).

End Runner.

(** *** Closures for the examples *)

Definition number_op (f : Q -> value) (v : value) : completion value :=
  match v with
  | VNum (Fin q) => Normal (f q)
  | _ => Normal (VNum NaN)
  end.

Definition is_even (q : Q) : bool :=
  Qeq_bool q (inject_Z (2 * (Qfloor q / 2))).

(** Closure 0 is [x => x * 2], 1 is [x => x % 2 === 0], 2 is
    [(acc, x) => acc + x], 3 is [x => {}] and 4 is
    [(acc, x) => acc * x]. *)
Definition sample_call (closure : nat) (args : list value)
  : completion value :=
  match closure, args with
  | 0%nat, x :: _ => number_op (fun q => VNum (Fin (Qred (q * 2)))) x
  | 1%nat, x :: _ => number_op (fun q => VBool (is_even q)) x
  | 2%nat, acc :: x :: _ =>
      match acc with
      | VNum (Fin a) => number_op (fun q => VNum (Fin (Qred (a + q)))) x
      | _ => Normal (VNum NaN)
      end
  | 4%nat, acc :: x :: _ =>
      match acc with
      | VNum (Fin a) => number_op (fun q => VNum (Fin (Qred (a * q)))) x
      | _ => Normal (VNum NaN)
      end
  | _, _ => Normal VUndefined
  end.

Definition descriptor (kind : string) (closure : nat) : value :=
  VObj [("kind", VStr kind); ("fn", VFun closure)].

Definition reducer (closure : nat) (initVal : value) : value :=
  VObj [("kind", VStr "reduce"); ("fn", VFun closure); ("initVal", initVal)].

(** The shape that validation demands of a consumer, and the consumers
    whose [kind] is one of the four the runner knows. *)
Definition well_formed (consumer : value) : Prop :=
  typeof consumer = "object" /\ consumer <> VNull /\
  has_property "kind" consumer = true /\
  typeof (get consumer "kind") = "string" /\
  typeof (get consumer "fn") = "function".

Definition recognized (consumer : value) : Prop :=
  well_formed consumer /\
  (get consumer "kind" = VStr "map" \/ get consumer "kind" = VStr "filter" \/
   get consumer "kind" = VStr "reduce" \/
   get consumer "kind" = VStr "forEach").

(** The results array of a run with one descriptor. *)
Definition single (c : completion value) : completion value :=
  match c with
  | Normal r => Normal (VArr [r])
  | Throw e => Throw e
  end.

(** An object literal without the property [k]. *)
Definition without (k : string) (props : list (string * value))
  : list (string * value) :=
  List.filter (fun kv => negb (String.eqb k kv.1)) props.

(** Consumers that the runner cannot tell apart: it reads [typeof], the
    comparison with [null], ['kind' in], [kind], [fn] and [initVal]. *)
Definition same_consumer (d d' : value) : Prop :=
  typeof d = typeof d' /\ is_null d = is_null d' /\
  has_property "kind" d = has_property "kind" d' /\
  get d "kind" = get d' "kind" /\ get d "fn" = get d' "fn" /\
  get d "initVal" = get d' "initVal".

(** The index that a call of a reduce function was given. *)
Definition index_of (c : call_record) : option value :=
  c.2 !! 2%nat.

(** ** Runs with every kind of call *)

(** The calls of [next()] in a run. *)
Definition is_next (o : op) : bool :=
  match o with Next _ => true | _ => false end.

Definition next_calls (ops : list op) : nat :=
  length (List.filter is_next ops).

(** Whether the call [o] is a [next()] of cursor [i], and whether it stops
    cursor [i] with [return()] or [throw()]. *)
Definition is_next_of (i : nat) (o : op) : bool :=
  match o with Next j => Nat.eqb j i | _ => false end.

Definition stops (i : nat) (o : op) : bool :=
  match o with
  | Return j _ | ThrowOp j _ => Nat.eqb j i
  | Next _ => false
  end.

(** The answers to the [next()] calls of cursor [i] in a run, in order. *)
Definition next_answers (i : nat) (ops : list op)
    (results : list (completion IteratorResult))
  : list (completion IteratorResult) :=
  snd <$> List.filter (fun or => is_next_of i or.1) (zip ops results).

Definition next_calls_of (i : nat) (ops : list op) : nat :=
  length (List.filter (is_next_of i) ops).

(** A state with other [done] flags. *)
Definition with_done {Src : Type} (ds : list bool) (st : tee_state Src)
  : tee_state Src :=
  {| count := count st; sourceIterator := sourceIterator st;
     iteratorIndexPositions := iteratorIndexPositions st;
     streamBuffer := streamBuffer st;
     streamExhausted := streamExhausted st;
     streamError := streamError st; done := ds |}.

(** Whether an answer reports the end. *)
Definition returns_done (r : completion IteratorResult) : bool :=
  match r with
  | Normal result => done_of result
  | Throw _ => false
  end.

(** The source has reported its end and is in state [it]. *)
Definition ended {Src : Type} (it : Src) (st : tee_state Src) : Prop :=
  sourceIterator st = it /\ streamExhausted st = true.

(** The number of elements that cursor [i] has received from the array [S]
    after the cursors [sched] have called [next()], and the number of its
    calls that were answered before it became terminal. *)
Definition received (S : list value) (i : nat) (sched : list nat) : nat :=
  calls_of i sched `min` length S.

Definition answered (S : list value) (i : nat) (sched : list nat) : nat :=
  calls_of i sched `min` Datatypes.S (length S).

(** ** A source that fails after some elements *)

(** A state with another source, captured error and end flag. *)
Definition with_source {Src : Type} (it : Src) (e : value) (x : bool)
    (st : tee_state Src) : tee_state Src :=
  {| count := count st; sourceIterator := it;
     iteratorIndexPositions := iteratorIndexPositions st;
     streamBuffer := streamBuffer st;
     streamExhausted := x;
     streamError := e; done := done st |}.

(** A source that yields the elements of [S] and raises [e] on the pull
    after them; [rest] is what further pulls would be answered. *)
Definition failing_after (S : list value) (e : value)
    (rest : list (completion value)) : Scripted :=
  {| script := (Normal <$> S) ++ Throw e :: rest; pulls := 0 |}.

(** The state of a splitter over [failing_after S e rest] whose cursor [i]
    has received [cs !! i] elements; [failed] tells whether the failing
    pull has been made. *)
Definition fail_state (S : list value) (e : value)
    (rest : list (completion value)) (failed : bool) (cs : list nat)
  : tee_state Scripted :=
  with_source
    (if failed
     then {| script := rest; pulls := Datatypes.S (length S) |}
     else {| script := (Normal <$> drop (pulled S cs) S) ++ Throw e :: rest;
             pulls := pulled S cs |})
    (if failed then e else VNull) false (state_of S cs).

(** What the call number [c] (from 0) of a cursor is answered. *)
Definition fail_answer (S : list value) (e : value) (c : nat)
  : completion IteratorResult :=
  match S !! c with
  | Some v => yield v
  | None => Throw e
  end.

(** ** Further facts of the runner *)

(** The result of a consumer over an array without elements. *)
Definition empty_result (fn : value) : value :=
  let kind := get fn "kind" in
  if is_string "map" kind then VArr []
  else if is_string "filter" kind then VArr []
  else if is_string "reduce" kind then get fn "initVal"
  else if is_string "forEach" kind then VUndefined
  else of_Z 0.

(** A recorded call that returned, for the host's function application
    [call]. *)
Definition returned (call : nat -> list value -> completion value)
    (c : call_record) : Prop :=
  exists v, js_call call c.1 c.2 = Normal v.

(** A log of calls that fits the completion [r]: every call returned,
    but for the last one when [r] is an error, which threw that error. *)
Definition log_fits {A : Type}
    (call : nat -> list value -> completion value)
    (r : completion A) (log : list call_record) : Prop :=
  match r with
  | Normal _ => Forall (returned call) log
  | Throw e =>
      exists pre f args,
        log = pre ++ [(f, args)] /\ Forall (returned call) pre /\
        js_call call f args = Throw e
  end.

(** Closure 0 is [(x, i) => { if (i === 1) throw new Error("stop"); return x }];
    the other closures do nothing. *)
Definition stopping_call (closure : nat) (args : list value)
  : completion value :=
  match closure, args with
  | 0%nat, [x; VNum (Fin i)] =>
      if Qeq_bool i 1 then Throw (VErr ErrorC "stop") else Normal x
  | _, _ => Normal VUndefined
  end.

(** ** Consumer functions that act on the world

    [teeConsumers] above takes a consumer function as a function of its
    arguments.  The runner below lets the consumer functions run in a
    world that they can read and change, and that holds the array under
    iteration; a call may also never return.  The iterator of the array
    reads the array anew at every pull. *)

(** The iterator of an array: a pull reads the element at the next index
    of the array as it is at that moment; once a pull has found the index
    at or past the length, the iterator stays closed.  [asked] counts the
    pulls. *)
Record ArrayIterator := { nextIndex : nat; closed : bool; asked : nat }.

Definition ArrayIterator_next (array : list value) (it : ArrayIterator)
  : completion IteratorResult * ArrayIterator :=
  if closed it
  then (Normal {| value_of := VUndefined; done_of := true |},
        {| nextIndex := nextIndex it; closed := true;
           asked := S (asked it) |})
  else
    match array !! nextIndex it with
    | Some v =>
        (Normal {| value_of := v; done_of := false |},
         {| nextIndex := S (nextIndex it); closed := false;
            asked := S (asked it) |})
    | None =>
        (Normal {| value_of := VUndefined; done_of := true |},
         {| nextIndex := nextIndex it; closed := true;
            asked := S (asked it) |})
    end.

(** [v[Symbol.iterator]()] for an array. *)
Definition array_symbol_iterator (v : value)
  : completion (option (completion ArrayIterator)) :=
  match v with
  | VArr _ =>
      Normal (Some (Normal {| nextIndex := 0; closed := false; asked := 0 |}))
  | VUndefined | VNull =>
      Throw (VErr TypeErrorC "Cannot read properties of undefined")
  | _ => Normal None
  end.

(** A state with its source replaced through [f]. *)
Definition map_source {A B : Type} (f : A -> B) (st : tee_state A)
  : tee_state B :=
  {| count := count st; sourceIterator := f (sourceIterator st);
     iteratorIndexPositions := iteratorIndexPositions st;
     streamBuffer := streamBuffer st;
     streamExhausted := streamExhausted st;
     streamError := streamError st; done := done st |}.

(** The iterator of the array [S] that has been pulled as often as the
    scripted source [sc], and the scripted sources that hold what is left
    of [S]. *)
Definition to_live (S : list value) (sc : Scripted) : ArrayIterator :=
  {| nextIndex := pulls sc `min` length S;
     closed := bool_decide (length S < pulls sc)%nat;
     asked := pulls sc |}.

Definition source_ok (S : list value) (sc : Scripted) : Prop :=
  script sc = Normal <$> drop (pulls sc) S.

Section LiveRunner.

(** The world, the array in it on which the runner is called, and the
    host's function application: the result of the call and the world it
    leaves, or nothing when the call does not return. *)
Variable World : Type.
Variable this_array : World -> list value.
Variable call_live :
  nat -> list value -> World -> option (completion value * World).

Definition js_call_live (f : value) (args : list value) (w : World)
  : option (completion value * World) :=
  match f with
  | VFun closure => call_live closure args w
  | _ => Some (Throw (VErr TypeErrorC "fn.fn is not a function"), w)
  end.

(** [fn.fn(...args)] in the body of the loop: [update] is what the body
    does with the result of the call. *)
Definition call_then (fn : value) (args : list value)
    (update : value -> locals) (log : list call_record) (w : World)
  : option (completion locals * list call_record * World) :=
  match js_call_live (get fn "fn") args w with
  | None => None
  | Some (Throw e, w') => Some (Throw e, log ++ [(get fn "fn", args)], w')
  | Some (Normal v, w') =>
      Some (Normal (update v), log ++ [(get fn "fn", args)], w')
  end.

(** Lines 176-205: the body of the loop over the elements. *)
Definition consume_live (fn elem : value) (L : locals)
    (log : list call_record) (w : World)
  : option (completion locals * list call_record * World) :=
  let kind := get fn "kind" in
  let idx := of_nat (elementIdx L) in
  if is_string "forEach" kind then
    call_then fn [elem; idx] (fun _ => elementIdx_incr L) log w
  else if is_string "map" kind then
    call_then fn [elem; idx]
      (fun val => elementIdx_incr (mapResult_push val L)) log w
  else if is_string "reduce" kind then
    if (elementIdx L =? 0)%nat && is_undefined (reduceResult L)
    then Some (Normal (elementIdx_incr (set_reduceResult elem L)), log, w)
    else
      call_then fn [reduceResult L; elem; idx]
        (fun r => elementIdx_incr (set_reduceResult r L)) log w
  else if is_string "filter" kind then
    call_then fn [elem; idx]
      (fun keep =>
         elementIdx_incr
           (if truthy keep then filterResult_push elem L else L)) log w
  else
    Some (Throw (VErr ErrorC ("Unknown consumer kind: " +:+ String_of kind)),
          log, w).

(** Lines 175-206: the loop over the elements; every pull of the cursor
    reads the array of the world as the calls so far have left it. *)
Fixpoint for_of_live (fuel : nat) (consumerIdx : nat) (fn : value)
    (st : tee_state ArrayIterator) (L : locals) (log : list call_record)
    (w : World)
  : option (completion locals * tee_state ArrayIterator
            * list call_record * World) :=
  match fuel with
  | O => None
  | S fuel' =>
      match next (ArrayIterator_next (this_array w)) consumerIdx st with
      | (Throw e, st') => Some (Throw e, st', log, w)
      | (Normal result, st') =>
          if done_of result then Some (Normal L, st', log, w)
          else
            match consume_live fn (value_of result) L log w with
            | None => None
            | Some (Throw e, log', w') =>
                Some (Throw e, (return_ consumerIdx VUndefined st').2,
                      log', w')
            | Some (Normal L', log', w') =>
                for_of_live fuel' consumerIdx fn st' L' log' w'
            end
      end
  end.

(** Lines 168-222: the loop over the consumers. *)
Fixpoint process_live (fuel : nat) (consumerFns : list value)
    (consumerIdx : nat) (st : tee_state ArrayIterator)
    (outResults : list value) (log : list call_record) (w : World)
  : option (completion (list value) * tee_state ArrayIterator
            * list call_record * World) :=
  match consumerFns with
  | [] => Some (Normal outResults, st, log, w)
  | fn :: rest =>
      match for_of_live fuel consumerIdx fn st (initial_locals fn) log w with
      | None => None
      | Some (Throw e, st', log', w') => Some (Throw e, st', log', w')
      | Some (Normal L', st', log', w') =>
          process_live fuel rest (S consumerIdx) st'
            (store fn consumerIdx L' outResults) log' w'
      end
  end.

(** Lines 140-225, called on the array of the world: what the run did and
    the world it leaves; nothing when it does not return within [fuel]
    pulls of each loop. *)
Definition teeConsumers_live (fuel : nat) (w : World)
    (consumers : list value) : option (execution * World) :=
  if (length consumers =? 0)%nat
  then Some (threw (VErr ErrorC "At least one consumer must be provided"), w)
  else
    match validate consumers with
    | Some e => Some (threw e, w)
    | None =>
        let consumerFns := consumers in
        let outResults := replicate (length consumerFns) (of_Z 0) in
        match createTeeIterators array_symbol_iterator
                [VArr (this_array w); of_nat (length consumerFns)] with
        | Throw e => Some (threw e, w)
        | Normal iterators =>
            match process_live fuel consumerFns 0 iterators outResults []
                    w with
            | None => None
            | Some (Normal outResults, st, log, w') =>
                Some ({| outcome := Normal (VArr outResults); calls := log;
                         source_pulls := asked (sourceIterator st) |}, w')
            | Some (Throw e, st, log, w') =>
                Some ({| outcome := Throw e; calls := log;
                         source_pulls := asked (sourceIterator st) |}, w')
            end
        end
    end.

End LiveRunner.

Arguments js_call_live {World} call_live f args w.
Arguments call_then {World} call_live fn args update log w.
Arguments consume_live {World} call_live fn elem L log w.
Arguments for_of_live {World} this_array call_live fuel consumerIdx fn st L
  log w.
Arguments process_live {World} this_array call_live fuel consumerFns
  consumerIdx st outResults log w.
Arguments teeConsumers_live {World} this_array call_live fuel w consumers.

(** Consumer functions that do no more than compute a result from their
    arguments, as [call] gives it: every call returns and leaves the
    world as it is. *)
Definition pure_calls {World : Type}
    (call : nat -> list value -> completion value)
    (call_live :
       nat -> list value -> World -> option (completion value * World))
  : Prop :=
  forall closure args w, call_live closure args w = Some (call closure args, w).

(** Closure 0 is [x => { array.push(x) }] for the array of the world,
    which is the world. *)
Definition pushing_call (closure : nat) (args : list value)
    (w : list value) : option (completion value * list value) :=
  match closure, args with
  | 0%nat, x :: _ => Some (Normal VUndefined, w ++ [x])
  | _, _ => Some (Normal VUndefined, w)
  end.

(** The world of the examples is the array itself; the closures of
    [sample_call] leave it as it is. *)
Definition sample_call_live (closure : nat) (args : list value)
    (w : list value) : option (completion value * list value) :=
  Some (sample_call closure args, w).

(** The splitter with one cursor that has read everything pulled, over an
    array iterator at index [p]. *)
Definition caught_up (p : nat) : tee_state ArrayIterator :=
  {| count := 1;
     sourceIterator := {| nextIndex := p; closed := false; asked := p |};
     iteratorIndexPositions := [0];
     streamBuffer := [];
     streamExhausted := false;
     streamError := VNull;
     done := [false] |}.

(** ** Facts about [Math.min], [Math.max] and the re-basing loop *)

Lemma foldr_min_spec (x : Z) (xs : list Z) :
  foldr Z.min x xs ∈ x :: xs /\
  forall y, y ∈ x :: xs -> foldr Z.min x xs <= y.
Proof.
  induction xs as [|z xs [Hin Hle]]; simpl.
  - split; [left|]. intros y Hy. apply list_elem_of_singleton in Hy. lia.
  - split.
    + destruct (Z.min_spec z (foldr Z.min x xs)) as [[_ ->]|[_ ->]].
      * right; left.
      * apply elem_of_cons in Hin as [->|Hin]; [left | by do 2 right].
    + intros y Hy. apply elem_of_cons in Hy as [->|Hy].
      * specialize (Hle x ltac:(left)). lia.
      * apply elem_of_cons in Hy as [->|Hy]; [lia|].
        specialize (Hle y ltac:(by right)). lia.
Qed.

Lemma foldr_max_spec (x : Z) (xs : list Z) :
  foldr Z.max x xs ∈ x :: xs /\
  forall y, y ∈ x :: xs -> y <= foldr Z.max x xs.
Proof.
  induction xs as [|z xs [Hin Hle]]; simpl.
  - split; [left|]. intros y Hy. apply list_elem_of_singleton in Hy. lia.
  - split.
    + destruct (Z.max_spec z (foldr Z.max x xs)) as [[_ ->]|[_ ->]].
      * apply elem_of_cons in Hin as [->|Hin]; [left | by do 2 right].
      * right; left.
    + intros y Hy. apply elem_of_cons in Hy as [->|Hy].
      * specialize (Hle x ltac:(left)). lia.
      * apply elem_of_cons in Hy as [->|Hy]; [lia|].
        specialize (Hle y ltac:(by right)). lia.
Qed.

Lemma Math_min_Some (xs : list Z) (m : Z) :
  Math_min xs = Some m <-> m ∈ xs /\ forall y, y ∈ xs -> m <= y.
Proof.
  destruct xs as [|x xs]; simpl.
  - split; [done|]. intros [H _]. by apply elem_of_nil in H.
  - destruct (foldr_min_spec x xs) as [Hin Hle]. split.
    + by intros [= <-].
    + intros [Hm Hall]. f_equal.
      specialize (Hle m Hm). specialize (Hall _ Hin). lia.
Qed.

Lemma Math_max_Some (xs : list Z) (m : Z) :
  Math_max xs = Some m <-> m ∈ xs /\ forall y, y ∈ xs -> y <= m.
Proof.
  destruct xs as [|x xs]; simpl.
  - split; [done|]. intros [H _]. by apply elem_of_nil in H.
  - destruct (foldr_max_spec x xs) as [Hin Hle]. split.
    + by intros [= <-].
    + intros [Hm Hall]. f_equal.
      specialize (Hle m Hm). specialize (Hall _ Hin). lia.
Qed.

Lemma Math_min_None (xs : list Z) : Math_min xs = None <-> xs = [].
Proof. by destruct xs. Qed.

Lemma rebase_take (n : nat) (d : Z) (ps : list Z) :
  (n <= length ps)%nat ->
  rebase n d ps = ((fun p => p - d) <$> take n ps) ++ drop n ps.
Proof.
  unfold rebase. induction n as [|n IH]; intros Hn; [done|].
  rewrite seq_S, foldl_app, IH by lia. simpl.
  destruct (lookup_lt_is_Some_2 ps n) as [x Hx]; [lia|].
  rewrite (take_S_r _ _ _ Hx), fmap_app, (drop_S _ _ _ Hx), <- app_assoc.
  simpl. rewrite alter_app_r_alt by (rewrite length_fmap, length_take; lia).
  rewrite length_fmap, length_take.
  replace (n - n `min` length ps)%nat with 0%nat by lia. done.
Qed.

Lemma rebase_fmap (d : Z) (ps : list Z) :
  rebase (length ps) d ps = (fun p => p - d) <$> ps.
Proof.
  rewrite rebase_take by lia.
  by rewrite firstn_all, drop_all, app_nil_r.
Qed.

(** ** The buffer window of a splitter, for any source *)

Section Window.

Context {Src : Type}.
Variable src_next : Src -> completion IteratorResult * Src.

Implicit Types (st : tee_state Src) (ps : list Z).

(** What [cleanupStreamBuffer] computes when there is a cursor. *)
Lemma cleanup_spec st :
  length (iteratorIndexPositions st) = count st ->
  iteratorIndexPositions st <> [] ->
  exists m,
    Math_min (iteratorIndexPositions st) = Some m /\
    cleanupStreamBuffer st =
      set_positions _ ((fun p => p - m) <$> iteratorIndexPositions st)
        (set_buffer _ (drop (Z.to_nat m) (streamBuffer st)) st).
Proof.
  intros Hlen Hne. unfold cleanupStreamBuffer.
  destruct (Math_min (iteratorIndexPositions st)) as [m|] eqn:Hm.
  - exists m. split; [done|]. by rewrite <- Hlen, rebase_fmap.
  - by apply Math_min_None in Hm.
Qed.

Lemma cleanup_window st :
  length (iteratorIndexPositions st) = count st ->
  length (done st) = count st ->
  Forall (fun p => 0 <= p <= buffer_length st) (iteratorIndexPositions st) ->
  (iteratorIndexPositions st <> [] ->
   buffer_length st ∈ iteratorIndexPositions st) ->
  window (cleanupStreamBuffer st).
Proof.
  intros Hlen Hdone Hall Hend.
  destruct (decide (iteratorIndexPositions st = [])) as [Hnil|Hne].
  - unfold cleanupStreamBuffer. rewrite Hnil. simpl.
    split; simpl; rewrite ?Hnil; [by rewrite <- Hlen, Hnil|done|done|done].
  - destruct (cleanup_spec st Hlen Hne) as (m & Hm & ->).
    apply Math_min_Some in Hm as [Hin Hle].
    rewrite Forall_forall in Hall.
    assert (0 <= m <= buffer_length st) as Hm by (apply Hall, Hin).
    unfold buffer_length in *.
    split; unfold buffer_length; simpl.
    + by rewrite length_fmap.
    + done.
    + rewrite Forall_fmap, Forall_forall. intros p Hp. simpl.
      specialize (Hall p Hp). specialize (Hle p Hp).
      rewrite length_drop. lia.
    + intros _. split.
      * apply list_elem_of_fmap. exists m. split; [lia|done].
      * apply list_elem_of_fmap. eexists. split; [|by apply Hend].
        rewrite length_drop. lia.
Qed.

Lemma tee_init_window (it : Src) (n : nat) : window (tee_init it n).
Proof.
  split; unfold buffer_length; simpl.
  - by rewrite length_replicate.
  - by rewrite length_replicate.
  - by apply Forall_replicate.
  - destruct n as [|n]; [done|]. intros _. split; left.
Qed.

Lemma set_done_window (index : nat) st :
  window st -> window (set_done index st).
Proof.
  intros [? ? ? ?]. split; simpl; try done. by rewrite length_insert.
Qed.

Lemma next_window (index : nat) st :
  (index < count st)%nat -> window st -> window (next src_next index st).2.
Proof.
  intros Hi Hw. pose proof Hw as [Hlen Hdone Hall Hends].
  destruct (lookup_lt_is_Some_2 (iteratorIndexPositions st) index)
    as [p Hp]; [lia|].
  assert (iteratorIndexPositions st <> []) as Hne
    by (intros E; by rewrite E in Hp).
  destruct (Hends Hne) as [_ Hend].
  assert (0 <= p <= buffer_length st) as Hpb
    by (rewrite Forall_forall in Hall; eapply Hall, list_elem_of_lookup_2, Hp).
  unfold next. rewrite (list_lookup_total_correct _ _ _ Hp).
  destruct (done st !!! index : bool); [done|].
  fold (buffer_length st).
  destruct (Z.ltb_spec p (buffer_length st)) as [Hlt|Hge]; simpl.
  - apply cleanup_window; unfold buffer_length in *; simpl.
    + by rewrite length_alter.
    + done.
    + apply Forall_alter; [done|]. intros x Hx ?.
      assert (x = p) as -> by congruence. lia.
    + intros _. apply list_elem_of_lookup in Hend as [j Hj].
      apply list_elem_of_lookup. exists j.
      rewrite list_lookup_alter_ne; [done|]. intros ->.
      rewrite Hp in Hj. injection Hj as ->. lia.
  - unfold getNextStreamElement.
    destruct (streamExhausted st); [by apply set_done_window|].
    destruct (truthy (streamError st)); [done|].
    destruct (src_next (sourceIterator st)) as [[result|e] it];
      [|by split].
    destruct (done_of result) eqn:Hd; simpl;
      [by split; simpl; rewrite ?length_insert|].
    apply cleanup_window; unfold buffer_length in *; simpl.
    + by rewrite length_alter.
    + done.
    + rewrite length_app. simpl. apply Forall_alter.
      * eapply Forall_impl; [exact Hall|]. simpl. intros; lia.
      * intros x Hx ?. assert (x = p) as -> by congruence. lia.
    + intros _. apply list_elem_of_lookup. exists index.
      rewrite list_lookup_alter_eq, Hp, length_app. simpl. f_equal. lia.
Qed.

Lemma step_window (o : op) st :
  (cursor_of o < count st)%nat -> window st -> window (step src_next o st).2.
Proof.
  destruct o as [i|i v|i e]; simpl.
  - apply next_window.
  - intros _ Hw. unfold return_.
    destruct (done st !!! i : bool); [done|by apply set_done_window].
  - intros _ Hw. unfold throw_.
    destruct (done st !!! i : bool); [done|by apply set_done_window].
Qed.

Lemma cleanup_count st : count (cleanupStreamBuffer st) = count st.
Proof.
  unfold cleanupStreamBuffer.
  by destruct (Math_min (iteratorIndexPositions st)).
Qed.

Lemma next_count (index : nat) st :
  count (next src_next index st).2 = count st.
Proof.
  unfold next, getNextStreamElement.
  destruct (done st !!! index : bool); [done|].
  destruct (_ <? _); simpl; [by rewrite cleanup_count|].
  destruct (streamExhausted st); [done|].
  destruct (truthy (streamError st)); [done|].
  destruct (src_next (sourceIterator st)) as [[result|e] it]; [|done].
  destruct (done_of result) eqn:Hd; simpl; [done|].
  by rewrite cleanup_count.
Qed.

Lemma step_count (o : op) st : count (step src_next o st).2 = count st.
Proof.
  destruct o as [i|i v|i e]; simpl; [apply next_count| |];
    unfold return_, throw_; by destruct (done st !!! i : bool).
Qed.

Lemma run_cons (o : op) (ops : list op) st :
  run src_next (o :: ops) st =
    ((step src_next o st).1 :: (run src_next ops (step src_next o st).2).1,
     (run src_next ops (step src_next o st).2).2).
Proof.
  cbn [run]. destruct (step src_next o st) as [r st']. cbn [fst snd].
  by destruct (run src_next ops st').
Qed.

Lemma run_window (n : nat) (ops : list op) st :
  count st = n -> Forall (fun o => (cursor_of o < n)%nat) ops ->
  window st -> window (run src_next ops st).2.
Proof.
  intros Hn Hops. revert st Hn.
  induction Hops as [|o ops Ho _ IH]; intros st Hn Hw; [done|].
  rewrite run_cons. simpl. apply IH.
  - by rewrite step_count.
  - apply step_window; [lia|done].
Qed.

End Window.

(** ** Properties of a splitter over any source *)

Section AnySource.

Context {Src : Type}.
Variable src_next : Src -> completion IteratorResult * Src.
Variable symbol_iterator : value -> completion (option (completion Src)).

Implicit Types (st : tee_state Src).

Lemma createTeeIterators_Normal (arguments : list value) st :
  createTeeIterators symbol_iterator arguments = Normal st ->
  exists it n, st = tee_init it n.
Proof.
  unfold createTeeIterators. intros H.
  destruct (negb _); [done|].
  destruct (symbol_iterator _) as [[[it|e]|]|e]; try done.
  all: destruct (default VUndefined (arguments !! 1%nat)); try done.
  destruct (Array_length _) as [k|]; [|done].
  injection H as <-. by exists it, k.
Qed.

Lemma window_spread st :
  window st -> iteratorIndexPositions st <> [] ->
  Math_max (iteratorIndexPositions st) = Some (buffer_length st) /\
  Math_min (iteratorIndexPositions st) = Some 0.
Proof.
  intros [_ _ Hall Hends] Hne. destruct (Hends Hne) as [H0 HL].
  rewrite Forall_forall in Hall. split.
  - apply Math_max_Some. split; [done|]. intros y Hy. by apply Hall.
  - apply Math_min_Some. split; [done|]. intros y Hy. by apply Hall.
Qed.

(** C3, as the code has it: in every state that calls on the cursors of a
    splitter with at least one cursor reach, the buffer length is the
    largest read position of all cursors, terminal ones included, minus the
    smallest read position of all cursors, and every read position lies
    between 0 and the buffer length. *)
Theorem buffer_length_is_position_spread
    (arguments : list value) (st0 : tee_state Src) (ops : list op) :
  createTeeIterators symbol_iterator arguments = Normal st0 ->
  (1 <= count st0)%nat ->
  Forall (fun o => (cursor_of o < count st0)%nat) ops ->
  let st := (run src_next ops st0).2 in
  (exists mx mn,
     Math_max (iteratorIndexPositions st) = Some mx /\
     Math_min (iteratorIndexPositions st) = Some mn /\
     buffer_length st = mx - mn) /\
  Forall (fun p => 0 <= p <= buffer_length st) (iteratorIndexPositions st).
Proof.
  intros Hcreate Hn Hops st.
  apply createTeeIterators_Normal in Hcreate as (it & n & ->).
  assert (window st) as Hw
    by (eapply run_window; [done|exact Hops|apply tee_init_window]).
  assert (count st = count (tee_init it n)) as Hc.
  { subst st. clear Hw Hops. generalize (tee_init it n) as s.
    induction ops as [|o ops IH]; intros s; [done|].
    rewrite run_cons. simpl. by rewrite IH, step_count. }
  assert (iteratorIndexPositions st <> []) as Hne.
  { intros E. pose proof (window_count _ Hw) as Hl.
    rewrite E, Hc in Hl. simpl in *. lia. }
  destruct (window_spread st Hw Hne) as [Hmx Hmn].
  split; [|apply Hw].
  exists (buffer_length st), 0. repeat split; [done|done|lia].
Qed.

End AnySource.

Lemma buffer_length_is_position_spread_witness :
  let S := [of_Z 1] in
  let ops := [Next 0; Next 0]%nat in
  exists st0,
    split S 2 = Normal st0 /\
    (1 <= count st0)%nat /\
    Forall (fun o => (cursor_of o < count st0)%nat) ops /\
    let st := (run Scripted_next ops st0).2 in
    (exists mx mn,
       Math_max (iteratorIndexPositions st) = Some mx /\
       Math_min (iteratorIndexPositions st) = Some mn /\
       buffer_length st = mx - mn) /\
    Forall (fun p => 0 <= p <= buffer_length st) (iteratorIndexPositions st).
Proof.
  intros S ops. exists (tee_init (values S) 2). split; [reflexivity|].
  assert (Forall (fun o => (cursor_of o < 2)%nat) ops) as Hops
    by (repeat constructor).
  split; [simpl; lia|]. split; [exact Hops|].
  apply (buffer_length_is_position_spread Scripted_next host_symbol_iterator
           [VArr S; of_Z 2] _ ops); [reflexivity|simpl; lia|exact Hops].
Defined.

(** C3 as stated fails: after cursor 0 of [split([1], 2)] has read the
    element and then the end, it is terminal; the only live cursor stands
    at position 0, so the stated length is 0 - 0, and the buffer holds one
    element. *)
Lemma live_spread_counterexample :
  exists st0,
    split [of_Z 1] 2 = Normal st0 /\
    let st := (run Scripted_next [Next 0; Next 0]%nat st0).2 in
    Math_max (live_positions st) = Some 0 /\
    Math_min (iteratorIndexPositions st) = Some 0 /\
    buffer_length st <> 0 - 0.
Proof. eexists. split; [reflexivity|]. vm_compute. repeat split; done. Qed.

(** ** A source that raises *)

Section SourceError.

Context {Src : Type}.
Variable src_next : Src -> completion IteratorResult * Src.

Implicit Types (st : tee_state Src).

Lemma cleanup_frame st :
  sourceIterator (cleanupStreamBuffer st) = sourceIterator st /\
  streamError (cleanupStreamBuffer st) = streamError st /\
  streamExhausted (cleanupStreamBuffer st) = streamExhausted st /\
  done (cleanupStreamBuffer st) = done st.
Proof.
  unfold cleanupStreamBuffer.
  by destruct (Math_min (iteratorIndexPositions st)).
Qed.

Lemma captured_frontier (e : value) (it : Src) (j : nat) st :
  truthy e = true -> captured e it st ->
  (done st !!! j : bool) = false ->
  ~ iteratorIndexPositions st !!! j < buffer_length st ->
  next src_next j st = (Throw e, st).
Proof.
  intros He (_ & Herr & Hex) Hd Hfront. unfold next.
  rewrite Hd. fold (buffer_length st).
  destruct (Z.ltb_spec (iteratorIndexPositions st !!! j) (buffer_length st));
    [done|].
  unfold getNextStreamElement. by rewrite Hex, Herr, He.
Qed.

Lemma captured_step (e : value) (it : Src) (o : op) st :
  truthy e = true -> captured e it st -> captured e it (step src_next o st).2.
Proof.
  intros He Hc. pose proof Hc as (Hit & Herr & Hex).
  destruct o as [i|i v|i x]; simpl.
  - unfold next. destruct (done st !!! i : bool); [done|].
    destruct (_ <? _); simpl.
    + unfold captured.
      destruct (cleanup_frame (increment i st)) as (-> & -> & -> & _).
      done.
    + unfold getNextStreamElement. by rewrite Hex, Herr, He.
  - unfold return_. by destruct (done st !!! i : bool).
  - unfold throw_. by destruct (done st !!! i : bool).
Qed.

Lemma captured_run (e : value) (it : Src) (ops : list op) st :
  truthy e = true -> captured e it st -> captured e it (run src_next ops st).2.
Proof.
  intros He. revert st. induction ops as [|o ops IH]; intros st Hc; [done|].
  rewrite run_cons. simpl. by apply IH, captured_step.
Qed.

(** C4, as the code has it: when the source raises a truthy error [e]
    during a pull by cursor [i], that call raises [e] and the error is
    captured; after any further calls on the cursors the source is still in
    the state the failed pull left it in (it is never pulled again), and
    every call of [next()] by a cursor that is not terminal and stands at
    the end of the buffer raises the same [e] and changes nothing: the
    cursor that observed the error is not made terminal by it, so it raises
    the error again on every further call. *)
Theorem source_error_replayed (e : value) (it' : Src) (i : nat) st :
  (done st !!! i : bool) = false ->
  ~ iteratorIndexPositions st !!! i < buffer_length st ->
  streamExhausted st = false ->
  truthy (streamError st) = false ->
  src_next (sourceIterator st) = (Throw e, it') ->
  truthy e = true ->
  let st1 := (next src_next i st).2 in
  (next src_next i st).1 = Throw e /\
  (done st1 !!! i : bool) = false /\
  next src_next i st1 = (Throw e, st1) /\
  forall ops : list op,
    let st2 := (run src_next ops st1).2 in
    sourceIterator st2 = it' /\
    streamError st2 = e /\
    forall j : nat,
      (done st2 !!! j : bool) = false ->
      ~ iteratorIndexPositions st2 !!! j < buffer_length st2 ->
      next src_next j st2 = (Throw e, st2).
Proof.
  intros Hd Hfront Hex Herr Hsrc He.
  assert (next src_next i st = (Throw e, set_error _ e (set_source _ it' st)))
    as Hnext.
  { unfold next. rewrite Hd. fold (buffer_length st).
    destruct (Z.ltb_spec (iteratorIndexPositions st !!! i) (buffer_length st));
      [done|].
    unfold getNextStreamElement. by rewrite Hex, Herr, Hsrc. }
  rewrite Hnext. simpl.
  set (st1 := set_error _ e (set_source _ it' st)).
  assert (captured e it' st1) as Hc by done.
  split; [done|]. split; [done|]. split.
  - by apply (captured_frontier e it').
  - intros ops. pose proof (captured_run e it' ops st1 He Hc) as Hc2.
    pose proof Hc2 as (? & ? & ?). split; [done|]. split; [done|].
    intros j ? ?. by apply (captured_frontier e it').
Qed.

End SourceError.

Lemma source_error_replayed_witness :
  let st := tee_init failing_source 2 in
  let e := VErr ErrorC "boom" in
  let it' := {| script := []; pulls := 1 |} in
  (done st !!! 0%nat : bool) = false /\
  ~ iteratorIndexPositions st !!! 0%nat < buffer_length st /\
  streamExhausted st = false /\
  truthy (streamError st) = false /\
  Scripted_next (sourceIterator st) = (Throw e, it') /\
  truthy e = true /\
  let st1 := (next Scripted_next 0 st).2 in
  (next Scripted_next 0 st).1 = Throw e /\
  (done st1 !!! 0%nat : bool) = false /\
  next Scripted_next 0 st1 = (Throw e, st1) /\
  forall ops : list op,
    let st2 := (run Scripted_next ops st1).2 in
    sourceIterator st2 = it' /\
    streamError st2 = e /\
    forall j : nat,
      (done st2 !!! j : bool) = false ->
      ~ iteratorIndexPositions st2 !!! j < buffer_length st2 ->
      next Scripted_next j st2 = (Throw e, st2).
Proof.
  intros st e it'.
  assert (~ iteratorIndexPositions st !!! 0%nat < buffer_length st) as Hfront
    by (vm_compute; congruence).
  do 6 (split; [done|]).
  exact (source_error_replayed Scripted_next e it' 0 st
           eq_refl Hfront eq_refl eq_refl eq_refl eq_refl).
Defined.

(** C4 as stated fails: the cursor that observed the source's error is not
    terminal afterwards, and its next call raises the error a second
    time. *)
Lemma error_observed_twice_counterexample :
  let e := VErr ErrorC "boom" in
  let '(results, st) :=
    run Scripted_next [Next 0; Next 0]%nat (tee_init failing_source 1) in
  results = [Throw e; Throw e] /\ done st = [false].
Proof. vm_compute. done. Qed.

(** ** Stopping a cursor early *)

Section StopEarly.

Context {Src : Type}.
Variable src_next : Src -> completion IteratorResult * Src.
Variable symbol_iterator : value -> completion (option (completion Src)).

Implicit Types (st : tee_state Src).

Lemma done_insert_true (dones : list bool) (i j : nat) :
  (dones !!! i : bool) = true -> (<[j:=true]> dones !!! i : bool) = true.
Proof.
  intros Hi. destruct (decide (j = i)) as [->|Hne].
  - destruct (decide (i < length dones)%nat).
    + by rewrite list_lookup_total_insert_eq.
    + by rewrite list_insert_ge by lia.
  - by rewrite list_lookup_total_insert_ne.
Qed.

(** Eviction moves a cursor's stored position back by the number of
    elements it drops, which is at most that position. *)
Lemma cleanup_pinned (i : nat) (p : Z) st :
  length (iteratorIndexPositions st) = count st ->
  Forall (fun q => 0 <= q) (iteratorIndexPositions st) ->
  iteratorIndexPositions st !! i = Some p ->
  exists d,
    0 <= d <= p /\
    iteratorIndexPositions (cleanupStreamBuffer st) !! i = Some (p - d) /\
    streamBuffer (cleanupStreamBuffer st)
      = drop (Z.to_nat d) (streamBuffer st) /\
    done (cleanupStreamBuffer st) = done st.
Proof.
  intros Hlen Hall Hp.
  assert (iteratorIndexPositions st <> []) as Hne
    by (intros E; by rewrite E in Hp).
  destruct (cleanup_spec st Hlen Hne) as (m & Hm & ->).
  apply Math_min_Some in Hm as [Hin Hle].
  rewrite Forall_forall in Hall.
  exists m. simpl. rewrite list_lookup_fmap, Hp. repeat split; try done.
  - by apply Hall.
  - eapply Hle, list_elem_of_lookup_2, Hp.
Qed.

Lemma step_pinned (o : op) (i : nat) (p : Z) st :
  window st -> (cursor_of o < count st)%nat ->
  (done st !!! i : bool) = true ->
  iteratorIndexPositions st !! i = Some p ->
  let st' := (step src_next o st).2 in
  (done st' !!! i : bool) = true /\
  exists d new,
    0 <= d <= p /\
    iteratorIndexPositions st' !! i = Some (p - d) /\
    streamBuffer st' = drop (Z.to_nat d) (streamBuffer st ++ new).
Proof.
  intros Hw Ho Hd Hp.
  assert (forall dones' : list bool,
            dones' = done st \/ (exists j, dones' = <[j:=true]> (done st)) ->
            (dones' !!! i : bool) = true /\
            exists d new,
              0 <= d <= p /\
              iteratorIndexPositions st !! i = Some (p - d) /\
              streamBuffer st = drop (Z.to_nat d) (streamBuffer st ++ new))
    as Hsame.
  { intros dones' Hdone. split.
    - destruct Hdone as [->|[j ->]]; [done|by apply done_insert_true].
    - assert (0 <= p) by
        (pose proof (window_bounds _ Hw) as Hb; rewrite Forall_forall in Hb;
         eapply Hb, list_elem_of_lookup_2, Hp).
      exists 0, []. rewrite Z.sub_0_r, app_nil_r. by repeat split; try lia. }
  pose proof Hw as [Hlen Hdl Hall Hends].
  assert (forall new j (stb : tee_state Src), (done st !!! j : bool) = false ->
            iteratorIndexPositions stb = iteratorIndexPositions st ->
            done stb = done st -> count stb = count st ->
            let pre := increment j (set_buffer _ (streamBuffer st ++ new) stb) in
            (done (cleanupStreamBuffer pre) !!! i : bool) = true /\
            exists d new',
              0 <= d <= p /\
              iteratorIndexPositions (cleanupStreamBuffer pre) !! i
                = Some (p - d) /\
              streamBuffer (cleanupStreamBuffer pre)
                = drop (Z.to_nat d) (streamBuffer st ++ new'))
    as Hmove.
  { intros new j stb Hj Eps Edone Ecount pre.
    assert (j <> i) as Hji by (intros ->; congruence).
    destruct (cleanup_pinned i p pre) as (d & Hdp & Hpos & Hbuf & Hdone).
    - subst pre. simpl. by rewrite length_alter, Eps, Ecount.
    - subst pre. simpl. rewrite Eps. apply Forall_alter.
      + eapply Forall_impl; [exact Hall|]. simpl. intros; lia.
      + simpl. intros; lia.
    - subst pre. simpl. by rewrite Eps, list_lookup_alter_ne.
    - rewrite Hdone. subst pre. simpl. rewrite Edone.
      split; [done|]. by exists d, new. }
  destruct o as [j|j v|j x]; simpl in *.
  - unfold next. destruct (done st !!! j : bool) eqn:Hj;
      [by simpl; apply Hsame; auto|].
    destruct (_ <? _); simpl.
    + specialize (Hmove [] j st Hj eq_refl eq_refl eq_refl).
      simpl in Hmove. rewrite app_nil_r in Hmove.
      replace (set_buffer Src (streamBuffer st) st) with st in Hmove
        by (by destruct st).
      exact Hmove.
    + unfold getNextStreamElement.
      destruct (streamExhausted st); [simpl; apply Hsame; eauto|].
      destruct (truthy (streamError st)); [by simpl; apply Hsame; auto|].
      destruct (src_next (sourceIterator st)) as [[result|e] it];
        [|by simpl; apply Hsame; auto].
      destruct (done_of result) eqn:Hr; simpl; [apply Hsame; eauto|].
      exact (Hmove [value_of result] j (set_source _ it st) Hj
               eq_refl eq_refl eq_refl).
  - unfold return_. destruct (done st !!! j : bool);
      simpl; apply Hsame; eauto.
  - unfold throw_. destruct (done st !!! j : bool);
      simpl; apply Hsame; eauto.
Qed.

Lemma run_pinned (n : nat) (ops : list op) (i : nat) (p : Z) st :
  count st = n -> window st ->
  Forall (fun o => (cursor_of o < n)%nat) ops ->
  (done st !!! i : bool) = true ->
  iteratorIndexPositions st !! i = Some p ->
  let st' := (run src_next ops st).2 in
  (done st' !!! i : bool) = true /\
  exists d new,
    0 <= d <= p /\
    iteratorIndexPositions st' !! i = Some (p - d) /\
    streamBuffer st' = drop (Z.to_nat d) (streamBuffer st ++ new).
Proof.
  intros Hn Hw Hops. revert st p Hn Hw.
  induction Hops as [|o ops Ho Hops IH]; intros st p Hn Hw Hd Hp.
  - simpl. split; [done|]. exists 0, [].
    rewrite Z.sub_0_r, app_nil_r. repeat split; try done.
    pose proof (window_bounds _ Hw) as Hb. rewrite Forall_forall in Hb.
    eapply Hb, list_elem_of_lookup_2, Hp.
  - rewrite run_cons. simpl.
    destruct (step_pinned o i p st Hw ltac:(lia) Hd Hp)
      as (Hd1 & d1 & new1 & Hd1p & Hp1 & Hb1).
    assert (window (step src_next o st).2) as Hw1
      by (apply step_window; [lia|done]).
    destruct (IH _ (p - d1) ltac:(by rewrite step_count) Hw1 Hd1 Hp1)
      as (Hd2 & d2 & new2 & Hd2p & Hp2 & Hb2).
    split; [done|]. exists (d1 + d2), (new1 ++ new2).
    split; [lia|]. split; [rewrite Hp2; f_equal; lia|].
    rewrite Hb2, Hb1.
    assert (p <= buffer_length st) as Hpl.
    { pose proof (window_bounds _ Hw) as Hb. rewrite Forall_forall in Hb.
      eapply Hb, list_elem_of_lookup_2, Hp. }
    unfold buffer_length in Hpl.
    rewrite <- drop_app_le by (rewrite length_app; lia).
    rewrite drop_drop, <- app_assoc. f_equal. lia.
Qed.

(** C8: on a cursor of a splitter, [return(v)] answers
    [{ value: v, done: true }] and [throw(e)] raises [e]; both leave the
    splitter in the state that differs from the one before in the [done]
    flag of that cursor alone, which is set: the buffer, the source, the
    exhausted flag, the captured error, every read position and every
    other cursor's flag are as before.  After the stop, whatever calls
    follow, the cursor stays terminal and its read position is only ever
    re-based: it falls by the number [d] of elements evicted since, which
    never exceeds it, and the buffer is the old buffer, with the elements
    pulled since appended, without its first [d] elements; every element
    from the stopped cursor's position on is retained. *)
Theorem stop_early_frame
    (arguments : list value) (st0 : tee_state Src) (ops0 : list op)
    (i : nat) (v e : value) :
  createTeeIterators symbol_iterator arguments = Normal st0 ->
  Forall (fun o => (cursor_of o < count st0)%nat) ops0 ->
  (i < count st0)%nat ->
  let st := (run src_next ops0 st0).2 in
  exists st1,
    return_ i v st = (Normal {| value_of := v; done_of := true |}, st1) /\
    throw_ i e st = (Throw e, st1) /\
    streamBuffer st1 = streamBuffer st /\
    sourceIterator st1 = sourceIterator st /\
    streamExhausted st1 = streamExhausted st /\
    streamError st1 = streamError st /\
    iteratorIndexPositions st1 = iteratorIndexPositions st /\
    (done st1 !!! i : bool) = true /\
    (forall j : nat, j <> i -> (done st1 !!! j : bool) = done st !!! j) /\
    forall ops : list op,
      Forall (fun o => (cursor_of o < count st0)%nat) ops ->
      let st2 := (run src_next ops st1).2 in
      (done st2 !!! i : bool) = true /\
      exists (d : Z) (new : list value),
        0 <= d <= iteratorIndexPositions st1 !!! i /\
        iteratorIndexPositions st2 !!! i
          = iteratorIndexPositions st1 !!! i - d /\
        streamBuffer st2 = drop (Z.to_nat d) (streamBuffer st1 ++ new).
Proof.
  intros Hcreate Hops0 Hi st.
  apply createTeeIterators_Normal in Hcreate as (it & n & ->).
  simpl in Hi, Hops0.
  assert (window st) as Hw
    by (eapply run_window; [done|exact Hops0|apply tee_init_window]).
  assert (count st = n) as Hc.
  { subst st. clear Hw Hops0. change n with (count (tee_init it n)) at 2.
    generalize (tee_init it n) as s.
    induction ops0 as [|o ops IH]; intros s; [done|].
    rewrite run_cons. simpl. by rewrite IH, step_count. }
  exists (set_done i st).
  assert ((done (set_done i st) !!! i : bool) = true) as Hdi.
  { simpl. apply list_lookup_total_insert_eq.
    rewrite (window_done _ Hw). lia. }
  assert (return_ i v st
          = (Normal {| value_of := v; done_of := true |}, set_done i st) /\
          throw_ i e st = (Throw e, set_done i st)) as [Hret Hthr].
  { unfold return_, throw_. destruct (done st !!! i : bool) eqn:Hd.
    - assert (set_done i st = st) as ->; [|by rewrite Hd].
      unfold set_done. rewrite list_insert_id; [by destruct st|].
      rewrite <- Hd. apply list_lookup_lookup_total_lt.
      rewrite (window_done _ Hw). lia.
    - by rewrite Hdi. }
  repeat (split; [done|]). split.
  { intros j Hj. simpl. by rewrite list_lookup_total_insert_ne. }
  intros ops Hops st2.
  destruct (lookup_lt_is_Some_2 (iteratorIndexPositions st) i) as [p Hp];
    [rewrite (window_count _ Hw); lia|].
  destruct (run_pinned n ops i p (set_done i st))
    as (Hd2 & d & new & ? & Hp2 & ?); [done|by apply set_done_window|done..|].
  split; [done|]. exists d, new. simpl.
  rewrite (list_lookup_total_correct _ _ _ Hp).
  by rewrite (list_lookup_total_correct _ _ _ Hp2).
Qed.

End StopEarly.

Lemma stop_early_frame_witness :
  let ops0 := [Next 0; Next 0; Next 1]%nat in
  exists st0,
    split [of_Z 1; of_Z 2; of_Z 3] 2 = Normal st0 /\
    Forall (fun o => (cursor_of o < count st0)%nat) ops0 /\
    (0 < count st0)%nat /\
    let st := (run Scripted_next ops0 st0).2 in
    exists st1,
      return_ 0 (of_Z 42) st
        = (Normal {| value_of := of_Z 42; done_of := true |}, st1) /\
      throw_ 0 VNull st = (Throw VNull, st1) /\
      streamBuffer st1 = streamBuffer st /\
      sourceIterator st1 = sourceIterator st /\
      streamExhausted st1 = streamExhausted st /\
      streamError st1 = streamError st /\
      iteratorIndexPositions st1 = iteratorIndexPositions st /\
      (done st1 !!! 0%nat : bool) = true /\
      (forall j : nat, j <> 0%nat -> (done st1 !!! j : bool) = done st !!! j) /\
      forall ops : list op,
        Forall (fun o => (cursor_of o < count st0)%nat) ops ->
        let st2 := (run Scripted_next ops st1).2 in
        (done st2 !!! 0%nat : bool) = true /\
        exists (d : Z) (new : list value),
          0 <= d <= iteratorIndexPositions st1 !!! 0%nat /\
          iteratorIndexPositions st2 !!! 0%nat
            = iteratorIndexPositions st1 !!! 0%nat - d /\
          streamBuffer st2 = drop (Z.to_nat d) (streamBuffer st1 ++ new).
Proof.
  intros ops0. exists (tee_init (values [of_Z 1; of_Z 2; of_Z 3]) 2).
  assert (Forall (fun o => (cursor_of o < 2)%nat) ops0) as Hops
    by (repeat constructor).
  split; [reflexivity|]. split; [exact Hops|]. split; [simpl; lia|].
  apply (stop_early_frame Scripted_next host_symbol_iterator
           [VArr [of_Z 1; of_Z 2; of_Z 3]; of_Z 2] _ ops0 0%nat);
    [reflexivity|exact Hops|simpl; lia].
Defined.

(** ** A splitter over an array *)

Lemma max_list_insert (cs : list nat) (i c c' : nat) :
  cs !! i = Some c -> (c <= c')%nat ->
  max_list (<[i:=c']> cs) = (max_list cs `max` c')%nat.
Proof.
  revert i. induction cs as [|x cs IH]; intros [|i] Hi Hc; simpl in *;
    try done.
  - injection Hi as ->. lia.
  - rewrite (IH i Hi Hc). lia.
Qed.

Lemma max_list_lookup_le (cs : list nat) (i c : nat) :
  cs !! i = Some c -> (c <= max_list cs)%nat.
Proof. intros H. by apply max_list_elem_of_le, list_elem_of_lookup_2 with i. Qed.

Lemma Math_min_shift (b : Z) (l : list Z) :
  Math_min ((fun p => p - b) <$> l) = (fun m => m - b) <$> Math_min l.
Proof.
  destruct (Math_min l) as [m|] eqn:Hm; simpl.
  - apply Math_min_Some in Hm as [Hin Hle]. apply Math_min_Some. split.
    + apply list_elem_of_fmap. by exists m.
    + intros y Hy. apply list_elem_of_fmap in Hy as (x & -> & Hx).
      specialize (Hle x Hx). lia.
  - apply Math_min_None in Hm as ->. done.
Qed.

Lemma alter_succ_shift (b r : Z) (i : nat) (l : list Z) :
  l !! i = Some r ->
  alter Z.succ i ((fun p => p - b) <$> l)
  = (fun p => p - b) <$> <[i:=r + 1]> l.
Proof.
  intros Hr. apply list_eq. intros j.
  rewrite list_lookup_alter, !list_lookup_fmap.
  destruct (decide (i = j)) as [<-|Hne].
  - rewrite list_lookup_insert_eq by (by eapply lookup_lt_Some).
    rewrite Hr. simpl. f_equal. lia.
  - by rewrite list_lookup_insert_ne.
Qed.

(** Eviction in a state whose positions are [raw'] re-based by [b]. *)
Lemma cleanup_rebased (b b' : Z) (raw' : list Z) (st : tee_state Scripted) :
  iteratorIndexPositions st = (fun p => p - b) <$> raw' ->
  count st = length raw' ->
  Math_min raw' = Some b' ->
  cleanupStreamBuffer st =
    set_positions _ ((fun p => p - b') <$> raw')
      (set_buffer _ (drop (Z.to_nat (b' - b)) (streamBuffer st)) st).
Proof.
  intros Hps Hc Hm.
  destruct (cleanup_spec st) as (m & Hm' & ->).
  - by rewrite Hps, length_fmap.
  - rewrite Hps. intros E. apply fmap_nil_inv in E. by rewrite E in Hm.
  - rewrite Hps, Math_min_shift, Hm in Hm'. injection Hm' as <-.
    rewrite Hps, <- list_fmap_compose. f_equal.
    apply list_fmap_ext. intros; simpl; lia.
Qed.

Lemma raw_lookup (S : list value) (cs : list nat) (i c : nat) :
  cs !! i = Some c -> raw S cs !! i = Some (Z.of_nat (c `min` length S)).
Proof. intros H. unfold raw. by rewrite list_lookup_fmap, H. Qed.

Lemma raw_insert (S : list value) (cs : list nat) (i c' : nat) :
  raw S (<[i:=c']> cs) = <[i:=Z.of_nat (c' `min` length S)]> (raw S cs).
Proof. unfold raw. by rewrite list_fmap_insert. Qed.

Lemma base_spec (S : list value) (cs : list nat) :
  cs <> [] ->
  Math_min (raw S cs) = Some (base S cs) /\
  0 <= base S cs <= Z.of_nat (pulled S cs) /\
  forall i c, cs !! i = Some c -> base S cs <= Z.of_nat (c `min` length S).
Proof.
  intros Hne. unfold base.
  destruct (Math_min (raw S cs)) as [m|] eqn:Hm; simpl.
  - split; [done|]. apply Math_min_Some in Hm as [Hin Hle].
    unfold raw in Hin. apply list_elem_of_fmap in Hin as (c0 & -> & Hc0).
    apply max_list_elem_of_le in Hc0. unfold pulled. split; [lia|].
    intros i c Hi. apply Hle. eapply list_elem_of_lookup_2, raw_lookup, Hi.
  - apply Math_min_None, fmap_nil_inv in Hm. done.
Qed.

Lemma done_insert_same (S : list value) (cs : list nat) (i c c' : nat) :
  cs !! i = Some c ->
  bool_decide (length S < c')%nat = bool_decide (length S < c)%nat ->
  (fun c => bool_decide (length S < c)%nat) <$> <[i:=c']> cs
  = (fun c => bool_decide (length S < c)%nat) <$> cs.
Proof.
  intros Hi Hb. rewrite list_fmap_insert, Hb.
  apply list_insert_id. by rewrite list_lookup_fmap, Hi.
Qed.

Lemma buffer_lookup (S : list value) (b p c : nat) :
  (b <= c < p)%nat -> (p <= length S)%nat ->
  drop b (take p S) !! (c - b)%nat = S !! c.
Proof.
  intros ? ?. rewrite lookup_drop, lookup_take_lt by lia. f_equal. lia.
Qed.

Lemma take_succ_snoc (S : list value) (c : nat) (v : value) (b : nat) :
  S !! c = Some v -> (b <= c)%nat ->
  drop b (take c S) ++ [v] = drop b (take (Datatypes.S c) S).
Proof.
  intros Hv Hb. rewrite (take_S_r _ _ _ Hv).
  rewrite drop_app_le; [done|].
  rewrite length_take. apply lookup_lt_Some in Hv. lia.
Qed.

(** Eviction after cursor [i] has advanced from [c] to [c + 1]. *)
Lemma cleanup_advance (S : list value) (cs : list nat) (i c : nat)
    (st : tee_state Scripted) (X : list value) :
  cs !! i = Some c -> (c < length S)%nat ->
  iteratorIndexPositions st
    = alter Z.succ i ((fun p => p - base S cs) <$> raw S cs) ->
  streamBuffer st = drop (Z.to_nat (base S cs)) X ->
  count st = length cs ->
  let cs' := <[i:=Datatypes.S c]> cs in
  cleanupStreamBuffer st =
    set_positions _ ((fun p => p - base S cs') <$> raw S cs')
      (set_buffer _ (drop (Z.to_nat (base S cs')) X) st).
Proof.
  intros Hi Hc Hps Hbuf Hcount cs'.
  assert (cs <> []) as Hne by (intros E; by rewrite E in Hi).
  assert (cs' <> []) as Hne'.
  { intros E. apply (f_equal length) in E. subst cs'.
    rewrite length_insert in E. by destruct cs. }
  destruct (base_spec S cs Hne) as (Hmin & Hbase & Hle).
  destruct (base_spec S cs' Hne') as (Hmin' & Hbase' & Hle').
  assert (raw S cs' = <[i:=Z.of_nat c + 1]> (raw S cs)) as Hraw.
  { subst cs'. rewrite raw_insert. f_equal. lia. }
  assert (base S cs <= base S cs') as Hmono.
  { pose proof Hmin' as Hm. apply Math_min_Some in Hm as [Hin _].
    apply list_elem_of_lookup in Hin as [j Hj]. rewrite Hraw in Hj.
    destruct (decide (i = j)) as [<-|Hij].
    - rewrite list_lookup_insert_eq in Hj
        by (unfold raw; rewrite length_fmap; by eapply lookup_lt_Some).
      injection Hj as <-. specialize (Hle i c Hi). lia.
    - rewrite list_lookup_insert_ne in Hj by done.
      apply Math_min_Some in Hmin as [_ Hall].
      eapply Hall, list_elem_of_lookup_2, Hj. }
  rewrite (cleanup_rebased (base S cs) (base S cs') (raw S cs') st).
  - rewrite Hbuf, drop_drop. do 3 f_equal. lia.
  - rewrite Hps, Hraw.
    apply alter_succ_shift. rewrite (raw_lookup _ _ _ _ Hi).
    f_equal. lia.
  - subst cs'. unfold raw. by rewrite length_fmap, length_insert.
  - done.
Qed.

(** One call of [next()] in a state of the splitter over [S]. *)
Lemma next_state_of (S : list value) (cs : list nat) (i c : nat) :
  cs !! i = Some c ->
  Forall (fun c => (c <= Datatypes.S (length S))%nat) cs ->
  next Scripted_next i (state_of S cs)
  = (answer S c, state_of S (<[i:=advance S c]> cs)).
Proof.
  intros Hi Hcap.
  assert (cs <> []) as Hne by (intros E; by rewrite E in Hi).
  destruct (base_spec S cs Hne) as (Hmin & Hbase & Hle).
  pose proof (Hle i c Hi) as Hbc.
  pose proof (max_list_lookup_le cs i c Hi) as Hmax.
  assert (max_list cs <= Datatypes.S (length S))%nat as Hmaxcap.
  { pose proof (max_list_elem_of cs Hne) as Hin.
    rewrite Forall_forall in Hcap. by apply Hcap. }
  unfold next, advance, answer.
  assert ((done (state_of S cs) !!! i : bool)
          = bool_decide (length S < c)%nat) as ->.
  { simpl. apply list_lookup_total_correct. by rewrite list_lookup_fmap, Hi. }
  case_bool_decide as Hdone.
  { rewrite lookup_ge_None_2 by lia. by rewrite list_insert_id. }
  assert (iteratorIndexPositions (state_of S cs) !!! i
          = Z.of_nat c - base S cs) as ->.
  { simpl. apply list_lookup_total_correct.
    rewrite list_lookup_fmap, (raw_lookup _ _ _ _ Hi). simpl.
    f_equal. lia. }
  assert (Z.of_nat (length (streamBuffer (state_of S cs)))
          = Z.of_nat (pulled S cs) - base S cs) as ->.
  { simpl. rewrite length_drop, length_take. unfold pulled in *. lia. }
  destruct (Z.ltb_spec (Z.of_nat c - base S cs)
              (Z.of_nat (pulled S cs) - base S cs)) as [Hlt|Hge].
  - (* the element is in the buffer *)
    assert (c < length S)%nat as HcS by (unfold pulled in *; lia).
    destruct (lookup_lt_is_Some_2 S c HcS) as [v Hv]. rewrite Hv.
    f_equal.
    + do 2 f_equal. unfold js_index.
      destruct (Z.ltb_spec (Z.of_nat c - base S cs) 0); [lia|].
      simpl streamBuffer.
      replace (Z.to_nat (Z.of_nat c - base S cs))
        with (c - Z.to_nat (base S cs))%nat by lia.
      rewrite buffer_lookup, Hv by (unfold pulled in *; lia). done.
    + assert (max_list (<[i:=Datatypes.S c]> cs) = max_list cs) as Hmax'.
      { rewrite (max_list_insert _ _ _ _ Hi) by lia. unfold pulled in *. lia. }
      rewrite (cleanup_advance S cs i c (increment i (state_of S cs))
                 (take (pulled S cs) S)
                 Hi HcS eq_refl eq_refl eq_refl).
      unfold state_of, pulled. rewrite Hmax'. simpl.
      rewrite length_insert.
      rewrite (done_insert_same S cs i c (Datatypes.S c) Hi); [done|].
      rewrite !bool_decide_eq_false_2 by lia. done.
  - (* the cursor stands at the end of the buffer *)
    assert (c = pulled S cs) as Hc by (unfold pulled in *; lia).
    unfold getNextStreamElement.
    change (streamExhausted (state_of S cs))
      with (bool_decide (length S < max_list cs)%nat).
    change (streamError (state_of S cs)) with VNull.
    case_bool_decide as Hex.
    + (* the end of the source is known *)
      assert (c = length S) as -> by (unfold pulled in *; lia).
      simpl. rewrite lookup_ge_None_2 by lia. f_equal.
      unfold state_of, pulled.
      rewrite (max_list_insert _ _ _ _ Hi) by lia.
      replace (max_list cs `max` Datatypes.S (length S))%nat
        with (max_list cs) by lia.
      assert (raw S (<[i:=Datatypes.S (length S)]> cs) = raw S cs) as Hraw.
      { rewrite raw_insert. apply list_insert_id.
        rewrite (raw_lookup _ _ _ _ Hi). f_equal. lia. }
      unfold base. rewrite Hraw. unfold set_done. simpl.
      rewrite length_insert, list_fmap_insert.
      rewrite (bool_decide_eq_true_2 (length S < Datatypes.S (length S))%nat)
        by lia.
      done.
    + simpl truthy. cbv iota.
      change (sourceIterator (state_of S cs))
        with {| script := Normal <$> drop (pulled S cs) S;
                pulls := pulled S cs
                         + (if bool_decide (length S < max_list cs)%nat
                            then 1 else 0)%nat |}.
      rewrite bool_decide_eq_false_2 by done.
      unfold Scripted_next. simpl script. simpl pulls. rewrite <- Hc.
      destruct (S !! c) as [v|] eqn:Hv.
      * assert (c < length S)%nat as HcS by (by eapply lookup_lt_Some).
        rewrite (drop_S _ _ _ Hv). simpl. f_equal.
        assert (max_list (<[i:=Datatypes.S c]> cs) = Datatypes.S c)
          as Hmax'.
        { rewrite (max_list_insert _ _ _ _ Hi) by lia.
          unfold pulled in *. lia. }
        match goal with
        | |- cleanupStreamBuffer ?st = _ =>
            rewrite (cleanup_advance S cs i c st (take (Datatypes.S c) S)
                       Hi HcS eq_refl)
        end.
        -- unfold state_of, pulled. rewrite Hmax'.
           replace (Datatypes.S c `min` length S)%nat
             with (Datatypes.S c) by lia.
           rewrite (done_insert_same S cs i c (Datatypes.S c) Hi)
             by (rewrite !bool_decide_eq_false_2 by lia; done).
           rewrite !bool_decide_eq_false_2 by lia.
           rewrite length_insert.
           unfold set_positions, set_buffer, increment, set_source.
           cbn [count sourceIterator iteratorIndexPositions streamBuffer
                  streamExhausted streamError done].
           reflexivity.
        -- simpl. rewrite <- Hc. apply take_succ_snoc; [done|lia].
        -- done.
      * assert (c = length S) as -> by (apply lookup_ge_None_1 in Hv; lia).
        rewrite drop_all. cbn [fmap list_fmap done_of]. f_equal.
        unfold state_of, pulled.
        rewrite (max_list_insert _ _ _ _ Hi) by lia.
        replace (max_list cs `max` Datatypes.S (length S))%nat
          with (Datatypes.S (length S)) by lia.
        assert (raw S (<[i:=Datatypes.S (length S)]> cs) = raw S cs) as Hraw.
        { rewrite raw_insert. apply list_insert_id.
          rewrite (raw_lookup _ _ _ _ Hi). f_equal. lia. }
        unfold base. rewrite Hraw.
        rewrite length_insert, list_fmap_insert.
        rewrite !(bool_decide_eq_true_2
                    (length S < Datatypes.S (length S))%nat) by lia.
        replace (Datatypes.S (length S) `min` length S)%nat
          with (length S) by lia.
        replace (max_list cs `min` length S)%nat with (length S)
          by (unfold pulled in *; lia).
        rewrite (bool_decide_eq_false_2 (length S < max_list cs)%nat) by done.
        rewrite drop_all.
        unfold set_done, set_exhausted, set_source.
        cbn [count sourceIterator iteratorIndexPositions streamBuffer
               streamExhausted streamError done fmap list_fmap].
        do 2 f_equal. lia.
Qed.

Lemma tee_init_state_of (S : list value) (k : nat) :
  tee_init (values S) k = state_of S (replicate k 0%nat).
Proof.
  assert (max_list (replicate k 0%nat) = 0%nat) as Hmax
    by (induction k; simpl; lia).
  assert (raw S (replicate k 0%nat) = replicate k 0) as Hraw
    by (unfold raw; by rewrite fmap_replicate).
  assert (base S (replicate k 0%nat) = 0) as Hbase.
  { unfold base. rewrite Hraw. destruct k as [|k]; [done|].
    change (foldr Z.min 0 (replicate k 0) = 0). clear.
    induction k as [|k IH]; [done|].
    change (Z.min 0 (foldr Z.min 0 (replicate k 0)) = 0).
    rewrite IH. reflexivity. }
  unfold state_of, tee_init, values, pulled.
  rewrite Hmax, Hbase, Hraw, length_replicate, !fmap_replicate.
  rewrite bool_decide_eq_false_2 by lia. reflexivity.
Qed.

Lemma Qfloor_inject_Z (z : Z) : Qfloor (inject_Z z) = z.
Proof. apply Qfloor_Z. Qed.

(** [split] hands out cursors exactly for the counts that are array
    lengths, in the initial state. *)
Lemma split_Normal (S : list value) (n : Z) (st0 : tee_state Scripted) :
  split S n = Normal st0 <->
  0 <= n < 2 ^ 32 /\ st0 = state_of S (replicate (Z.to_nat n) 0%nat).
Proof.
  unfold split, createTeeIterators, of_Z, Math_floor, Array_length.
  cbn -[Qfloor Qeq_bool Z.pow inject_Z tee_init].
  rewrite !Qfloor_inject_Z.
  assert (Qeq_bool (inject_Z n) (inject_Z n) = true) as ->
    by (apply Qeq_bool_iff; reflexivity).
  simpl. rewrite <- tee_init_state_of.
  destruct (Z.leb_spec 0 n), (Z.ltb_spec n (2 ^ 32)); simpl;
    split; try (intros [? ?]; lia); try done.
  - intros [= <-]. split; [lia|done].
  - by intros [_ ->].
Qed.

Lemma advance_cap (S : list value) (c : nat) :
  (c <= Datatypes.S (length S))%nat ->
  (advance S c <= Datatypes.S (length S))%nat.
Proof. unfold advance. case_bool_decide; lia. Qed.

Lemma counts_after_length (S : list value) (sched : list nat) (cs : list nat) :
  length (counts_after S sched cs) = length cs.
Proof.
  revert cs. induction sched as [|j sched IH]; intros cs; [done|].
  simpl. by rewrite IH, length_alter.
Qed.

Lemma counts_after_cap (S : list value) (sched : list nat) (cs : list nat) :
  Forall (fun c => (c <= Datatypes.S (length S))%nat) cs ->
  Forall (fun c => (c <= Datatypes.S (length S))%nat)
    (counts_after S sched cs).
Proof.
  revert cs. induction sched as [|j sched IH]; intros cs Hcap; [done|].
  simpl. apply IH, Forall_alter; [done|]. intros; by apply advance_cap.
Qed.

Lemma alter_advance (S : list value) (cs : list nat) (j c : nat) :
  cs !! j = Some c -> alter (advance S) j cs = <[j:=advance S c]> cs.
Proof.
  intros Hj. apply list_eq. intros k.
  rewrite list_lookup_alter.
  destruct (decide (j = k)) as [<-|Hne].
  - rewrite Hj, list_lookup_insert_eq by (by eapply lookup_lt_Some). done.
  - by rewrite list_lookup_insert_ne.
Qed.

(** A run of [next()] calls from a state of the splitter over [S]. *)
Lemma run_state_of (S : list value) (sched : list nat) (cs : list nat) :
  Forall (fun c => (c <= Datatypes.S (length S))%nat) cs ->
  Forall (fun j => (j < length cs)%nat) sched ->
  (run Scripted_next (Next <$> sched) (state_of S cs)).2
  = state_of S (counts_after S sched cs).
Proof.
  revert cs. induction sched as [|j sched IH]; intros cs Hcap Hs; [done|].
  apply Forall_cons in Hs as [Hj Hs].
  destruct (lookup_lt_is_Some_2 cs j Hj) as [c Hc].
  rewrite fmap_cons, run_cons. simpl.
  rewrite (next_state_of S cs j c Hc Hcap), <- (alter_advance S cs j c Hc).
  simpl. apply IH.
  - apply Forall_alter; [done|]. intros; by apply advance_cap.
  - by rewrite length_alter.
Qed.

Lemma answer_past (S : list value) (a k : nat) :
  (length S <= a)%nat -> answer S <$> seq a k = replicate k finished.
Proof.
  revert a. induction k as [|k IH]; intros a Ha; [done|].
  simpl. rewrite IH by lia. f_equal.
  unfold answer. by rewrite lookup_ge_None_2 by lia.
Qed.

Lemma answer_direct (S : list value) (k : nat) :
  answer S <$> seq 0 k
  = (yield <$> take k S) ++ replicate (k - length S) finished.
Proof.
  revert S. induction k as [|k IH]; intros S; [done|].
  destruct S as [|x S].
  - by rewrite answer_past by (simpl; lia).
  - simpl. f_equal. rewrite <- IH, <- fmap_S_seq, <- list_fmap_compose. done.
Qed.

Lemma answers_cons (i j : nat) (sched : list nat)
    (r : completion IteratorResult) (rs : list (completion IteratorResult)) :
  answers i (j :: sched) (r :: rs)
  = if Nat.eqb j i then r :: answers i sched rs else answers i sched rs.
Proof. unfold answers. simpl. by destruct (Nat.eqb j i). Qed.

Lemma calls_of_cons (i j : nat) (sched : list nat) :
  calls_of i (j :: sched)
  = if Nat.eqb j i then Datatypes.S (calls_of i sched) else calls_of i sched.
Proof. unfold calls_of. simpl. by destruct (Nat.eqb j i). Qed.

Lemma answers_state_of (S : list value) (sched : list nat) (cs : list nat)
    (i c : nat) :
  Forall (fun c => (c <= Datatypes.S (length S))%nat) cs ->
  Forall (fun j => (j < length cs)%nat) sched ->
  cs !! i = Some c ->
  answers i sched (run Scripted_next (Next <$> sched) (state_of S cs)).1
  = answer S <$> seq c (calls_of i sched).
Proof.
  revert cs c. induction sched as [|j sched IH]; intros cs c Hcap Hs Hi;
    [done|].
  apply Forall_cons in Hs as [Hj Hs].
  destruct (lookup_lt_is_Some_2 cs j Hj) as [cj Hcj].
  rewrite fmap_cons, run_cons. simpl fst. cbn [step].
  rewrite (next_state_of S cs j cj Hcj Hcap). cbn [fst snd].
  assert (Forall (fun c => (c <= Datatypes.S (length S))%nat)
            (<[j:=advance S cj]> cs)) as Hcap'.
  { rewrite <- (alter_advance S cs j cj Hcj).
    apply Forall_alter; [done|]. intros; by apply advance_cap. }
  assert (Forall (fun k => (k < length (<[j:=advance S cj]> cs))%nat) sched)
    as Hs' by (by rewrite length_insert).
  rewrite answers_cons, calls_of_cons.
  destruct (Nat.eqb_spec j i) as [->|Hne]; simpl.
  - assert (cj = c) as -> by congruence.
    rewrite (IH _ (advance S c) Hcap' Hs')
      by (rewrite list_lookup_insert_eq by (by eapply lookup_lt_Some); done).
    f_equal. unfold advance. case_bool_decide; [|done].
    by rewrite !answer_past by lia.
  - apply (IH _ c Hcap' Hs'). by rewrite list_lookup_insert_ne.
Qed.

(** C1: for every array [S] and every count [n >= 1] of cursors (an array
    length, so below 2^32), [split(S, n)] returns [n] cursors, and in every
    run of [next()] calls, whatever the order [sched] in which the cursors
    make them, the answers that cursor [i] receives are the elements of
    [S], one by one and in the order of [S], and after them only the end:
    after [k] calls it has received the first [k] elements of [S], followed
    by [k - length S] end markers when [k] exceeds the length. *)
Theorem every_cursor_yields_the_source (S : list value) (n : Z) :
  1 <= n < 2 ^ 32 ->
  exists st0,
    split S n = Normal st0 /\
    count st0 = Z.to_nat n /\
    forall (sched : list nat) (i : nat),
      Forall (fun j => (j < count st0)%nat) sched ->
      (i < count st0)%nat ->
      answers i sched (run Scripted_next (Next <$> sched) st0).1
      = (yield <$> take (calls_of i sched) S)
        ++ replicate (calls_of i sched - length S) finished.
Proof.
  intros Hn. exists (state_of S (replicate (Z.to_nat n) 0%nat)).
  split; [apply split_Normal; split; [lia|done]|].
  split; [simpl; by rewrite length_replicate|].
  intros sched i Hs Hi. simpl in Hs, Hi.
  rewrite (answers_state_of S sched _ i 0%nat).
  - apply answer_direct.
  - apply Forall_replicate. lia.
  - done.
  - apply lookup_replicate_2. by rewrite length_replicate in Hi.
Qed.

Lemma every_cursor_yields_the_source_witness :
  let S := [of_Z 10; of_Z 20; of_Z 30] in
  1 <= 2 < 2 ^ 32 /\
  exists st0,
    split S 2 = Normal st0 /\
    count st0 = Z.to_nat 2 /\
    forall (sched : list nat) (i : nat),
      Forall (fun j => (j < count st0)%nat) sched ->
      (i < count st0)%nat ->
      answers i sched (run Scripted_next (Next <$> sched) st0).1
      = (yield <$> take (calls_of i sched) S)
        ++ replicate (calls_of i sched - length S) finished.
Proof.
  intros S. split; [lia|].
  apply (every_cursor_yields_the_source S 2). lia.
Defined.

(** The example of the specification: of the two cursors of
    [split([10, 20, 30], 2)], cursor 0 is drained first, then cursor 1. *)
Example drain_one_then_the_other :
  let S := [of_Z 10; of_Z 20; of_Z 30] in
  let sched := [0; 0; 0; 0; 1; 1; 1; 1]%nat in
  exists st0,
    split S 2 = Normal st0 /\
    let results := (run Scripted_next (Next <$> sched) st0).1 in
    answers 0 sched results = (yield <$> S) ++ [finished] /\
    answers 1 sched results = (yield <$> S) ++ [finished].
Proof. eexists. split; [reflexivity|]. vm_compute. done. Qed.

(** The answer counts of the cursors after a run from the start. *)
Lemma advance_min (S : list value) (c : nat) :
  (c <= Datatypes.S (length S))%nat ->
  advance S c = (Datatypes.S c `min` Datatypes.S (length S))%nat.
Proof. unfold advance. case_bool_decide; lia. Qed.

Lemma counts_after_lookup (S : list value) (sched : list nat) :
  forall (cs : list nat) (i c : nat),
    (c <= Datatypes.S (length S))%nat ->
    cs !! i = Some c ->
    counts_after S sched cs !! i
    = Some ((c + calls_of i sched) `min` Datatypes.S (length S))%nat.
Proof.
  induction sched as [|j sched IH]; intros cs i c Hc Hi.
  - unfold calls_of. simpl. rewrite Hi. f_equal. lia.
  - change (counts_after S (j :: sched) cs)
      with (counts_after S sched (alter (advance S) j cs)).
    rewrite calls_of_cons.
    destruct (Nat.eqb_spec j i) as [->|Hne].
    + rewrite (IH _ i (advance S c)).
      * f_equal. rewrite advance_min by done. lia.
      * by apply advance_cap.
      * rewrite list_lookup_alter, decide_True by done. by rewrite Hi.
    + apply IH; [done|].
      by rewrite list_lookup_alter, decide_False.
Qed.

Lemma counts_after_init (S : list value) (sched : list nat) (n i : nat) :
  (i < n)%nat ->
  counts_after S sched (replicate n 0%nat) !! i = Some (answered S i sched).
Proof.
  intros Hi.
  rewrite (counts_after_lookup S sched _ i 0%nat); [done|lia|].
  by apply lookup_replicate_2.
Qed.

(** C2: for every array [S] and every count [n >= 1] of cursors, in every
    run of [next()] calls on the cursors of [split(S, n)] the source's
    [next()] has been called at most [length S + 1] times and at least as
    often as any cursor has been answered, and it has handed out a prefix
    of [S], each element once: what it still holds is [S] without the
    elements pulled.  When the run drains every cursor (each calls
    [next()] more than [length S] times, so each is told the end), the
    number of calls is exactly [length S + 1], whatever the order of the
    calls; so it is when every cursor is terminal. *)
Theorem source_pulled_once_per_element (S : list value) (n : Z) :
  1 <= n < 2 ^ 32 ->
  exists st0,
    split S n = Normal st0 /\
    count st0 = Z.to_nat n /\
    forall sched : list nat,
      Forall (fun j => (j < count st0)%nat) sched ->
      let st := (run Scripted_next (Next <$> sched) st0).2 in
      (pulls (sourceIterator st) <= length S + 1)%nat /\
      script (sourceIterator st)
        = Normal <$> drop (pulls (sourceIterator st)) S /\
      (forall i, (i < count st0)%nat ->
         (answered S i sched <= pulls (sourceIterator st))%nat) /\
      ((forall i, (i < count st0)%nat -> (length S < calls_of i sched)%nat) ->
       pulls (sourceIterator st) = (length S + 1)%nat) /\
      (Forall (fun d => d = true) (done st) ->
       pulls (sourceIterator st) = (length S + 1)%nat).
Proof.
  intros Hn. exists (state_of S (replicate (Z.to_nat n) 0%nat)).
  split; [apply split_Normal; split; [lia|done]|].
  split; [simpl; by rewrite length_replicate|].
  intros sched Hs st. simpl in Hs. subst st.
  rewrite run_state_of; [|apply Forall_replicate; lia|done].
  set (cs := counts_after S sched (replicate (Z.to_nat n) 0%nat)).
  assert (length cs = Z.to_nat n) as Hlen
    by (subst cs; by rewrite counts_after_length, length_replicate).
  assert (forall i, (i < length (replicate (Z.to_nat n) 0%nat))%nat ->
            (answered S i sched
             <= pulls (sourceIterator (state_of S cs)))%nat) as Hlow.
  { intros i Hi. rewrite length_replicate in Hi.
    pose proof (counts_after_init S sched (Z.to_nat n) i Hi) as Hc.
    apply max_list_lookup_le in Hc. fold cs in Hc.
    assert (answered S i sched <= Datatypes.S (length S))%nat
      by (unfold answered; lia).
    simpl. unfold pulled. case_bool_decide; lia. }
  simpl. unfold pulled.
  split; [case_bool_decide; lia|]. split; [|split; [|split]].
  - case_bool_decide; [|by rewrite Nat.add_0_r].
    replace (max_list cs `min` length S)%nat with (length S) by lia.
    by rewrite !drop_ge by lia.
  - exact Hlow.
  - intros Hall.
    assert (0 < length (replicate (Z.to_nat n) 0%nat))%nat as H0
      by (rewrite length_replicate; lia).
    specialize (Hlow 0%nat H0). specialize (Hall 0%nat H0).
    simpl in Hlow. unfold pulled, answered in Hlow.
    revert Hlow. case_bool_decide; lia.
  - intros Hall.
    destruct cs as [|c cs']; [simpl in Hlen; lia|].
    apply Forall_fmap, Forall_cons in Hall as [Hc _]. simpl in Hc.
    apply bool_decide_eq_true in Hc.
    assert (length S < max_list (c :: cs'))%nat as Hmax by (simpl; lia).
    rewrite bool_decide_eq_true_2 by done. lia.
Qed.

Lemma source_pulled_once_per_element_witness :
  let S := [of_Z 10; of_Z 20; of_Z 30] in
  let sched := [2; 0; 0; 1; 2; 2; 0; 1; 2; 1; 1; 0]%nat in
  1 <= 3 < 2 ^ 32 /\
  exists st0,
    split S 3 = Normal st0 /\
    Forall (fun j => (j < count st0)%nat) sched /\
    (forall i, (i < count st0)%nat -> (length S < calls_of i sched)%nat) /\
    pulls (sourceIterator (run Scripted_next (Next <$> sched) st0).2)
    = (length S + 1)%nat.
Proof.
  intros S sched. split; [lia|].
  destruct (source_pulled_once_per_element S 3 ltac:(lia))
    as (st0 & Hsplit & Hcount & Hruns).
  assert (Forall (fun j => (j < count st0)%nat) sched) as Hs
    by (rewrite Hcount; repeat constructor).
  assert (forall i, (i < count st0)%nat -> (length S < calls_of i sched)%nat)
    as Hdrained.
  { rewrite Hcount. intros [|[|[|i]]] Hi; vm_compute; lia. }
  exists st0. split; [exact Hsplit|]. split; [exact Hs|].
  split; [exact Hdrained|].
  exact (proj1 (proj2 (proj2 (proj2 (Hruns sched Hs)))) Hdrained).
Defined.

(** Three cursors drained in an interleaved order over three elements:
    four pulls. *)
Example pulls_of_an_interleaved_drain :
  let S := [of_Z 10; of_Z 20; of_Z 30] in
  let sched := [2; 0; 0; 1; 2; 2; 0; 1; 2; 1; 1; 0]%nat in
  exists st0,
    split S 3 = Normal st0 /\
    let st := (run Scripted_next (Next <$> sched) st0).2 in
    done st = [true; true; true] /\ pulls (sourceIterator st) = 4%nat.
Proof. eexists. split; [reflexivity|]. vm_compute. done. Qed.

(** ** The consumer runner *)

Section RunnerFacts.

Variable call : nat -> list value -> completion value.

Lemma is_null_true (v : value) : is_null v = true <-> v = VNull.
Proof. by destruct v. Qed.

Lemma check_consumer_None (consumer : value) :
  check_consumer consumer = None <-> well_formed consumer.
Proof.
  unfold check_consumer, well_formed.
  destruct (String.eqb_spec (typeof consumer) "object") as [Ht|Ht]; simpl;
    [|split; [done|tauto]].
  destruct (is_null consumer) eqn:Hn; simpl.
  { apply is_null_true in Hn. split; [done|tauto]. }
  assert (consumer <> VNull) as Hnn
    by (intros E; apply is_null_true in E; congruence).
  destruct (has_property "kind" consumer); simpl; [|split; [done|]];
    [|intros (_ & _ & ? & _); done].
  destruct (String.eqb_spec (typeof (get consumer "kind")) "string");
    simpl; [|split; [done|tauto]].
  destruct (String.eqb_spec (typeof (get consumer "fn")) "function");
    simpl; [|split; [done|tauto]].
  done.
Qed.

Lemma check_consumer_Some (consumer e : value) :
  check_consumer consumer = Some e -> exists message, e = VErr TypeErrorC message.
Proof.
  unfold check_consumer.
  repeat (match goal with
          | |- context [if ?b then _ else _] => destruct b
          end; [intros [= <-]; by eexists|]).
  done.
Qed.

Lemma validate_None (consumers : list value) :
  validate consumers = None <-> Forall well_formed consumers.
Proof.
  induction consumers as [|c cs IH]; simpl; [done|].
  rewrite Forall_cons, <- IH, <- check_consumer_None.
  destruct (check_consumer c); [split; [done|by intros [? _]]|tauto].
Qed.

Lemma validate_Some (consumers : list value) (e : value) :
  validate consumers = Some e -> exists message, e = VErr TypeErrorC message.
Proof.
  induction consumers as [|c cs IH]; simpl; [done|].
  destruct (check_consumer c) eqn:Hc; [|done].
  intros [= <-]. by eapply check_consumer_Some.
Qed.

End RunnerFacts.

Section RunnerLoops.

Variable call : nat -> list value -> completion value.

(** The loop over the elements, on cursor [i] of a splitter over [S] that
    has yielded its first [c] elements: the loop body meets the remaining
    elements in order, and when no call throws the cursor ends
    terminal. *)
Lemma for_of_state_of (fuel : nat) (fn : value) (S : list value)
    (cs : list nat) (i c : nat) (L : locals) (log : list call_record) :
  cs !! i = Some c -> (c <= length S)%nat ->
  Forall (fun c => (c <= Datatypes.S (length S))%nat) cs ->
  (length S - c < fuel)%nat ->
  exists st',
    for_of call fuel i fn (state_of S cs) L log
    = Some ((consume_all call fn (drop c S) L log).1, st',
            (consume_all call fn (drop c S) L log).2) /\
    forall L', (consume_all call fn (drop c S) L log).1 = Normal L' ->
               st' = state_of S (<[i:=Datatypes.S (length S)]> cs).
Proof.
  revert cs c L log.
  induction fuel as [|fuel IH]; intros cs c L log Hi Hc Hcap Hfuel; [lia|].
  cbn [for_of]. rewrite (next_state_of S cs i c Hi Hcap).
  unfold advance. rewrite bool_decide_eq_false_2 by lia.
  unfold answer. destruct (S !! c) as [v|] eqn:Hv.
  - cbn [done_of value_of]. rewrite (drop_S _ _ _ Hv). cbn [consume_all].
    destruct (consume call fn v L log) as [[L'|e] log'].
    + assert (c < length S)%nat by (by eapply lookup_lt_Some).
      destruct (IH (<[i:=Datatypes.S c]> cs) (Datatypes.S c) L' log')
        as (st' & Hfor & Hst).
      * apply list_lookup_insert_eq. by eapply lookup_lt_Some.
      * lia.
      * apply Forall_insert; [done|lia].
      * lia.
      * exists st'. split; [done|]. intros L'' HL.
        rewrite (Hst L'' HL). by rewrite list_insert_insert_eq.
    + eexists. split; [reflexivity|]. done.
  - assert (c = length S) as -> by (apply lookup_ge_None_1 in Hv; lia).
    cbn [done_of]. rewrite drop_all. cbn [consume_all fst snd].
    eexists. split; [reflexivity|]. done.
Qed.

Lemma insert_replicate_boundary (k m x : nat) :
  <[k:=x]> (replicate k x ++ replicate (Datatypes.S m) 0%nat)
  = replicate (Datatypes.S k) x ++ replicate m 0%nat.
Proof.
  rewrite insert_app_r_alt by (by rewrite length_replicate).
  rewrite length_replicate, Nat.sub_diag, (replicate_S_end k x),
    <- app_assoc.
  done.
Qed.

(** The loop over the consumers on the cursors of a splitter over [S]:
    every consumer meets the elements of [S]. *)
Lemma process_state_of (fuel : nat) (S : list value) :
  (length S < fuel)%nat ->
  forall (rest : list value) (k : nat) (out : list value)
         (log : list call_record),
  exists st',
    process call fuel rest k
      (state_of S (replicate k (Datatypes.S (length S))
                   ++ replicate (length rest) 0%nat)) out log
    = Some ((process_all call S rest k out log).1, st',
            (process_all call S rest k out log).2).
Proof.
  intros Hfuel rest.
  induction rest as [|fn rest IH]; intros k out log.
  { eexists. reflexivity. }
  cbn [process process_all length].
  destruct (for_of_state_of fuel fn S
              (replicate k (Datatypes.S (length S))
               ++ replicate (Datatypes.S (length rest)) 0%nat)
              k 0 (initial_locals fn) log) as (st' & Hfor & Hst).
  - rewrite lookup_app_r by (by rewrite length_replicate).
    by rewrite length_replicate, Nat.sub_diag.
  - lia.
  - apply Forall_app. split; apply Forall_replicate; lia.
  - lia.
  - rewrite Hfor. rewrite drop_0 in *.
    destruct (consume_all call fn S (initial_locals fn) log) as [[L'|e] log'].
    + cbn [fst snd] in *. rewrite (Hst L' eq_refl).
      rewrite insert_replicate_boundary. apply IH.
    + eexists. reflexivity.
Qed.

Lemma createTeeIterators_array (S : list value) (n : nat) :
  Z.of_nat n < 2 ^ 32 ->
  createTeeIterators host_symbol_iterator [VArr S; of_nat n]
  = Normal (state_of S (replicate n 0%nat)).
Proof.
  intros Hn. change (split S (Z.of_nat n) = Normal (state_of S (replicate n 0%nat))).
  apply split_Normal. split; [lia|]. by rewrite Nat2Z.id.
Qed.

(** The runner on an array and well-formed consumers, without the
    splitter. *)
Lemma teeConsumers_process_all (fuel : nat) (S : list value)
    (consumers : list value) :
  consumers <> [] -> Forall well_formed consumers ->
  Z.of_nat (length consumers) < 2 ^ 32 ->
  (length S < fuel)%nat ->
  exists n,
    teeConsumers call fuel (VArr S) consumers
    = Some {| outcome :=
                array_of (process_all call S consumers 0
                            (replicate (length consumers) (of_Z 0)) []).1;
              calls := (process_all call S consumers 0
                          (replicate (length consumers) (of_Z 0)) []).2;
              source_pulls := n |}.
Proof.
  intros Hne Hwf Hlen Hfuel. unfold teeConsumers. cbn [Array_isArray negb].
  destruct consumers as [|c cs]; [done|]. cbn [length Nat.eqb].
  apply validate_None in Hwf. rewrite Hwf.
  rewrite createTeeIterators_array by done.
  destruct (process_state_of fuel S Hfuel (c :: cs) 0
              (replicate (length (c :: cs)) (of_Z 0)) []) as (st' & Hp).
  cbn [replicate app] in Hp. cbn [length] in Hp. rewrite Hp.
  destruct (process_all call S (c :: cs) 0 _ []) as [[out|e] log];
    eexists; reflexivity.
Qed.

End RunnerLoops.

(** ** Validation of the consumers *)

Section Validation.

Variable call : nat -> list value -> completion value.

Lemma rejected_up_front
    (fuel : nat) (elems : list value) (consumers : list value) :
  consumers = [] \/ Exists (fun c => ~ well_formed c) consumers ->
  exists e,
    teeConsumers call fuel (VArr elems) consumers
      = Some {| outcome := Throw e; calls := []; source_pulls := 0 |} /\
    (consumers = [] ->
     e = VErr ErrorC "At least one consumer must be provided") /\
    (consumers <> [] -> exists message, e = VErr TypeErrorC message).
Proof.
  intros Hbad. unfold teeConsumers. cbn [Array_isArray negb].
  destruct consumers as [|c cs]; cbn [length Nat.eqb].
  { eexists. split; [reflexivity|]. split; done. }
  destruct Hbad as [?|Hex]; [done|].
  destruct (validate (c :: cs)) as [e|] eqn:Hv.
  - exists e. split; [done|]. split; [done|].
    intros _. by eapply validate_Some.
  - apply validate_None in Hv. apply Exists_exists in Hex as (x & Hx & Hnot).
    rewrite Forall_forall in Hv. destruct Hnot. by apply Hv.
Qed.

Lemma is_string_other (s k : string) : k <> s -> is_string s (VStr k) = false.
Proof. intros H. by apply String.eqb_neq. Qed.

Lemma unknown_kind_late
    (fuel : nat) (fn first : value) (rest : list value) (k : string) :
  well_formed fn -> get fn "kind" = VStr k ->
  k <> "map" -> k <> "filter" -> k <> "reduce" -> k <> "forEach" ->
  (1 <= fuel)%nat ->
  teeConsumers call fuel (VArr (first :: rest)) [fn]
  = Some {| outcome := Throw (VErr ErrorC ("Unknown consumer kind: " +:+ k));
            calls := []; source_pulls := 1 |}.
Proof.
  intros Hwf Hkind Hmap Hfilter Hreduce HforEach Hfuel.
  unfold teeConsumers. cbn [Array_isArray negb length Nat.eqb].
  assert (validate [fn] = None) as ->
    by (apply validate_None; by constructor).
  rewrite createTeeIterators_array by (simpl; lia).
  destruct fuel as [|fuel]; [lia|]. cbn [process for_of replicate].
  rewrite (next_state_of (first :: rest) [0%nat] 0 0 eq_refl)
    by (repeat constructor; lia).
  unfold answer. cbn [lookup list_lookup done_of value_of].
  unfold consume. rewrite Hkind, !is_string_other by done.
  cbn [String_of]. unfold return_, advance.
  rewrite bool_decide_eq_false_2 by (simpl; lia).
  assert (pulled (first :: rest) [1%nat] = 1%nat) as Hp
    by (unfold pulled; simpl; lia).
  destruct (done (state_of (first :: rest) (<[0%nat:=1%nat]> [0%nat])) !!! 0%nat
            : bool);
    cbn [snd set_done sourceIterator state_of pulls insert list_insert];
    rewrite Hp, bool_decide_eq_false_2 by (simpl; lia); done.
Qed.

(** The loop over the consumers [pre ++ rest] runs [pre] and then, when
    that returns, [rest]. *)
Lemma process_app (fuel : nat) (pre rest : list value) :
  forall (k : nat) (st : tee_state Scripted) (out : list value)
         (log : list call_record),
    process call fuel (pre ++ rest) k st out log
    = match process call fuel pre k st out log with
      | None => None
      | Some (Throw e, st', log') => Some (Throw e, st', log')
      | Some (Normal out', st', log') =>
          process call fuel rest (k + length pre) st' out' log'
      end.
Proof.
  induction pre as [|fn pre IH]; intros k st out log.
  - cbn [app process length]. by rewrite Nat.add_0_r.
  - cbn [app process length].
    destruct (for_of call fuel k fn st (initial_locals fn) log)
      as [[[[L'|e] st'] log']|]; [|done|done].
    rewrite IH. by rewrite Nat.add_succ_r.
Qed.

(** The loop over the first consumers of a run, while [m] more cursors
    wait. *)
Lemma process_prefix (fuel : nat) (S : list value) :
  (length S < fuel)%nat ->
  forall (pre : list value) (k m : nat) (out : list value)
         (log : list call_record),
  exists st',
    process call fuel pre k
      (state_of S (replicate k (Datatypes.S (length S))
                   ++ replicate (length pre + m) 0%nat)) out log
    = Some ((process_all call S pre k out log).1, st',
            (process_all call S pre k out log).2) /\
    forall out', (process_all call S pre k out log).1 = Normal out' ->
      st' = state_of S (replicate (k + length pre) (Datatypes.S (length S))
                        ++ replicate m 0%nat).
Proof.
  intros Hfuel pre.
  induction pre as [|fn pre IH]; intros k m out log.
  { eexists. split; [reflexivity|]. intros _ _.
    cbn [length]. by rewrite Nat.add_0_r. }
  cbn [process process_all length].
  change (Datatypes.S (length pre) + m)%nat
    with (Datatypes.S (length pre + m)).
  destruct (for_of_state_of call fuel fn S
              (replicate k (Datatypes.S (length S))
               ++ replicate (Datatypes.S (length pre + m)) 0%nat)
              k 0 (initial_locals fn) log) as (st' & Hfor & Hst).
  - rewrite lookup_app_r by (by rewrite length_replicate).
    by rewrite length_replicate, Nat.sub_diag.
  - lia.
  - apply Forall_app. split; apply Forall_replicate; lia.
  - lia.
  - rewrite Hfor. rewrite drop_0 in *.
    destruct (consume_all call fn S (initial_locals fn) log) as [[L'|e] log'].
    + cbn [fst snd] in *. rewrite (Hst L' eq_refl).
      rewrite insert_replicate_boundary.
      destruct (IH (Datatypes.S k) m (store fn k L' out) log')
        as (st'' & Hproc & Hst').
      exists st''. split; [done|].
      intros out' Hout. rewrite (Hst' out' Hout).
      by rewrite Nat.add_succ_r.
    + eexists. split; [reflexivity|done].
Qed.

(** The calls of the loop over the consumers, and whether it throws, do
    not depend on the results stored so far. *)
Lemma process_all_out (S : list value) (consumers : list value) :
  forall (k k' : nat) (out out' : list value) (log : list call_record),
    (process_all call S consumers k out log).2
    = (process_all call S consumers k' out' log).2 /\
    match (process_all call S consumers k out log).1,
          (process_all call S consumers k' out' log).1 with
    | Normal _, Normal _ => True
    | Throw e, Throw e' => e = e'
    | _, _ => False
    end.
Proof.
  induction consumers as [|fn rest IH]; intros k k' out out' log;
    cbn [process_all]; [done|].
  destruct (consume_all call fn S (initial_locals fn) log) as [[L'|e] log'];
    [apply IH|done].
Qed.

Lemma max_list_cap (cs : list nat) (x : nat) :
  Forall (fun c => (c <= x)%nat) cs -> (max_list cs <= x)%nat.
Proof. induction 1; simpl; lia. Qed.

Lemma return_source (i : nat) (v : value) (st : tee_state Scripted) :
  sourceIterator (return_ i v st).2 = sourceIterator st.
Proof. unfold return_. by destruct (done st !!! i : bool). Qed.

(** A [kind] outside the four, at any position: the error is raised when
    the loop over the consumers reaches the descriptor, after the earlier
    descriptors have run over the whole array. *)
Lemma unknown_kind_anywhere
    (fuel : nat) (pre : list value) (fn : value) (post : list value)
    (first : value) (rest : list value) (k : string) :
  Forall well_formed pre -> well_formed fn -> Forall well_formed post ->
  get fn "kind" = VStr k ->
  k <> "map" -> k <> "filter" -> k <> "reduce" -> k <> "forEach" ->
  Z.of_nat (length (pre ++ fn :: post)) < 2 ^ 32 ->
  (length (first :: rest) < fuel)%nat ->
  exists ex,
    teeConsumers call fuel (VArr (first :: rest)) (pre ++ fn :: post)
    = Some ex /\
    (pre = [] ->
     ex = {| outcome :=
               Throw (VErr ErrorC ("Unknown consumer kind: " +:+ k));
             calls := []; source_pulls := 1 |}) /\
    (pre <> [] ->
     exists before,
       teeConsumers call fuel (VArr (first :: rest)) pre = Some before /\
       calls ex = calls before /\
       match outcome before with
       | Normal _ =>
           outcome ex
           = Throw (VErr ErrorC ("Unknown consumer kind: " +:+ k)) /\
           source_pulls ex = (length (first :: rest) + 1)%nat
       | Throw e => outcome ex = Throw e
       end).
Proof.
  intros Hpre Hfn Hpost Hkind Hmap Hfilter Hreduce HforEach Hlen Hfuel.
  set (S := first :: rest) in *.
  assert (length (pre ++ fn :: post)
          = Datatypes.S (length pre + length post)) as Hn
    by (rewrite length_app; simpl; lia).
  assert (validate (pre ++ fn :: post) = None) as Hval.
  { apply validate_None, Forall_app. split; [done|by constructor]. }
  unfold teeConsumers at 1. cbn [Array_isArray negb].
  rewrite Hval, createTeeIterators_array by done.
  rewrite Hn. cbn [Nat.eqb].
  replace (Datatypes.S (length pre + length post))
    with (length pre + Datatypes.S (length post))%nat by lia.
  set (out := replicate (length pre + Datatypes.S (length post)) (of_Z 0)).
  rewrite process_app.
  destruct (process_prefix fuel S Hfuel pre 0 (Datatypes.S (length post))
              out []) as (st' & Hp & Hst).
  cbn [replicate app] in Hp. rewrite Hp. clear Hp.
  pose proof (process_all_out S pre 0 0 out
                (replicate (length pre) (of_Z 0)) []) as [Hlog Hsame].
  assert (pre <> [] ->
          exists n,
            teeConsumers call fuel (VArr S) pre
            = Some {| outcome :=
                        array_of (process_all call S pre 0
                                    (replicate (length pre) (of_Z 0)) []).1;
                      calls := (process_all call S pre 0
                                  (replicate (length pre) (of_Z 0)) []).2;
                      source_pulls := n |}) as Hbefore.
  { intros Hne. apply teeConsumers_process_all; try done. lia. }
  destruct (process_all call S pre 0 out []) as [[out'|e] log'] eqn:Hpa;
    cbn [fst snd] in *.
  - (* the earlier descriptors have returned *)
    rewrite (Hst out' eq_refl). clear Hst. cbn [Nat.add].
    set (cs := replicate (length pre) (Datatypes.S (length S))
               ++ replicate (Datatypes.S (length post)) 0%nat).
    assert (cs !! length pre = Some 0%nat) as Hi.
    { unfold cs. rewrite lookup_app_r by (by rewrite length_replicate).
      by rewrite length_replicate, Nat.sub_diag. }
    assert (Forall (fun c => (c <= Datatypes.S (length S))%nat) cs) as Hcap.
    { apply Forall_app. split; apply Forall_replicate; lia. }
    destruct fuel as [|fuel]; [lia|]. cbn [process for_of].
    rewrite (next_state_of S cs (length pre) 0 Hi Hcap).
    unfold answer. cbn [S lookup list_lookup done_of value_of].
    unfold consume. rewrite Hkind, !is_string_other by done.
    cbn [String_of].
    eexists. split; [reflexivity|]. cbn [outcome calls source_pulls].
    rewrite return_source.
    assert (advance S 0 = 1%nat) as ->.
    { unfold advance. by rewrite bool_decide_eq_false_2 by lia. }
    assert (max_list (<[length pre:=1%nat]> cs) = (max_list cs `max` 1)%nat)
      as Hmax by (apply (max_list_insert cs _ 0%nat); [done|lia]).
    pose proof (max_list_cap cs _ Hcap) as Hle.
    split.
    + intros ->. cbn [process_all] in Hpa. injection Hpa as _ <-.
      f_equal. cbn [state_of sourceIterator pulls]. unfold pulled.
      rewrite Hmax.
      assert (max_list cs = 0%nat) as ->.
      { unfold cs. cbn [length app].
        change (replicate 0 (Datatypes.S (length S)) ++
                replicate (Datatypes.S (length post)) 0%nat)
          with (replicate (Datatypes.S (length post)) 0%nat).
        apply Nat.le_antisymm; [|lia].
        apply max_list_cap, Forall_replicate. lia. }
      rewrite bool_decide_eq_false_2 by (unfold S; simpl; lia).
      unfold S. simpl. lia.
    + intros Hne. destruct (Hbefore Hne) as (n & Hrun).
      eexists. split; [exact Hrun|]. cbn [outcome calls].
      split; [done|].
      destruct (process_all call S pre 0
                  (replicate (length pre) (of_Z 0)) []).1 as [out''|e'];
        [|done].
      cbn [array_of]. split; [done|].
      cbn [state_of sourceIterator pulls]. unfold pulled.
      rewrite Hmax.
      assert (Datatypes.S (length S) <= max_list cs)%nat.
      { apply max_list_lookup_le with 0%nat. unfold cs.
        destruct pre as [|d pre]; [done|]. done. }
      rewrite bool_decide_eq_true_2 by lia. lia.
  - (* an earlier descriptor has thrown *)
    eexists. split; [reflexivity|]. cbn [outcome calls source_pulls].
    split.
    + intros ->. by cbn [process_all] in Hpa.
    + intros Hne. destruct (Hbefore Hne) as (n & Hrun).
      eexists. split; [exact Hrun|]. cbn [outcome calls].
      split; [done|].
      destruct (process_all call S pre 0
                  (replicate (length pre) (of_Z 0)) []).1 as [out''|e'];
        [done|].
      cbn [array_of]. by rewrite Hsame.
Qed.

End Validation.

(** C5, as the code has it: a call on an array without descriptors raises
    a plain Error, and a call in which some descriptor is not an object
    with a string-valued [kind] and a function-valued [fn] raises a
    TypeError; both are raised before the array's iterator is pulled and
    before any consumer function is called.  The value of [kind] is not
    checked up front.  Over a non-empty array a well-formed descriptor
    with a [kind] outside the four, at any position among well-formed
    descriptors, raises a plain Error only when the loop over the
    descriptors reaches it: as the first descriptor, once the array's
    iterator has been pulled for the first element and before any
    consumer function is called; after earlier descriptors, once these
    have run as in a call with them alone, with the same calls of their
    functions, the array's iterator having been pulled to its end; and
    when an earlier descriptor throws, its error is the one raised. *)
Theorem malformed_consumers_rejected :
  (forall (call : nat -> list value -> completion value) (fuel : nat)
          (elems : list value) (consumers : list value),
     consumers = [] \/ Exists (fun c => ~ well_formed c) consumers ->
     exists e,
       teeConsumers call fuel (VArr elems) consumers
         = Some {| outcome := Throw e; calls := []; source_pulls := 0 |} /\
       (consumers = [] ->
        e = VErr ErrorC "At least one consumer must be provided") /\
       (consumers <> [] -> exists message, e = VErr TypeErrorC message)) /\
  (forall (call : nat -> list value -> completion value) (fuel : nat)
          (fn first : value) (rest : list value) (k : string),
     well_formed fn -> get fn "kind" = VStr k ->
     k <> "map" -> k <> "filter" -> k <> "reduce" -> k <> "forEach" ->
     (1 <= fuel)%nat ->
     teeConsumers call fuel (VArr (first :: rest)) [fn]
     = Some {| outcome :=
                 Throw (VErr ErrorC ("Unknown consumer kind: " +:+ k));
               calls := []; source_pulls := 1 |}) /\
  (forall (call : nat -> list value -> completion value) (fuel : nat)
          (pre : list value) (fn : value) (post : list value)
          (first : value) (rest : list value) (k : string),
     Forall well_formed pre -> well_formed fn -> Forall well_formed post ->
     get fn "kind" = VStr k ->
     k <> "map" -> k <> "filter" -> k <> "reduce" -> k <> "forEach" ->
     Z.of_nat (length (pre ++ fn :: post)) < 2 ^ 32 ->
     (length (first :: rest) < fuel)%nat ->
     exists ex,
       teeConsumers call fuel (VArr (first :: rest)) (pre ++ fn :: post)
       = Some ex /\
       (pre = [] ->
        ex = {| outcome :=
                  Throw (VErr ErrorC ("Unknown consumer kind: " +:+ k));
                calls := []; source_pulls := 1 |}) /\
       (pre <> [] ->
        exists before,
          teeConsumers call fuel (VArr (first :: rest)) pre = Some before /\
          calls ex = calls before /\
          match outcome before with
          | Normal _ =>
              outcome ex
              = Throw (VErr ErrorC ("Unknown consumer kind: " +:+ k)) /\
              source_pulls ex = (length (first :: rest) + 1)%nat
          | Throw e => outcome ex = Throw e
          end)).
Proof.
  split; [|split].
  - intros call. apply rejected_up_front.
  - intros call. apply unknown_kind_late.
  - intros call. apply unknown_kind_anywhere.
Qed.

Lemma malformed_consumers_rejected_witness :
  (let consumers :=
     [descriptor "map" 0; VObj [("kind", VStr "map"); ("fn", of_Z 123)]] in
   (consumers = [] \/ Exists (fun c => ~ well_formed c) consumers) /\
   exists e,
     teeConsumers sample_call 0 (VArr [of_Z 1; of_Z 2; of_Z 3]) consumers
       = Some {| outcome := Throw e; calls := []; source_pulls := 0 |} /\
     (consumers = [] ->
      e = VErr ErrorC "At least one consumer must be provided") /\
     (consumers <> [] -> exists message, e = VErr TypeErrorC message)) /\
  (let fn := descriptor "bogus" 4 in
   well_formed fn /\ get fn "kind" = VStr "bogus" /\
   "bogus" <> "map" /\ "bogus" <> "filter" /\ "bogus" <> "reduce" /\
   "bogus" <> "forEach" /\ (1 <= 1)%nat /\
   teeConsumers sample_call 1 (VArr [of_Z 2; of_Z 3; of_Z 4]) [fn]
   = Some {| outcome :=
               Throw (VErr ErrorC ("Unknown consumer kind: " +:+ "bogus"));
             calls := []; source_pulls := 1 |}) /\
  (let pre := [descriptor "map" 0] in
   let fn := descriptor "bogus" 4 in
   let post := [descriptor "forEach" 3] in
   Forall well_formed pre /\ well_formed fn /\ Forall well_formed post /\
   get fn "kind" = VStr "bogus" /\
   "bogus" <> "map" /\ "bogus" <> "filter" /\ "bogus" <> "reduce" /\
   "bogus" <> "forEach" /\
   Z.of_nat (length (pre ++ fn :: post)) < 2 ^ 32 /\
   (length [of_Z 2; of_Z 3; of_Z 4] < 4)%nat /\
   exists ex,
     teeConsumers sample_call 4 (VArr [of_Z 2; of_Z 3; of_Z 4])
       (pre ++ fn :: post)
     = Some ex /\
     (pre = [] ->
      ex = {| outcome :=
                Throw (VErr ErrorC ("Unknown consumer kind: " +:+ "bogus"));
              calls := []; source_pulls := 1 |}) /\
     (pre <> [] ->
      exists before,
        teeConsumers sample_call 4 (VArr [of_Z 2; of_Z 3; of_Z 4]) pre
        = Some before /\
        calls ex = calls before /\
        match outcome before with
        | Normal _ =>
            outcome ex
            = Throw (VErr ErrorC ("Unknown consumer kind: " +:+ "bogus")) /\
            source_pulls ex = (length [of_Z 2; of_Z 3; of_Z 4] + 1)%nat
        | Throw e => outcome ex = Throw e
        end)).
Proof.
  split; [|split].
  - intros consumers.
    assert (consumers = [] \/ Exists (fun c => ~ well_formed c) consumers)
      as Hbad.
    { right. apply Exists_cons_tl, Exists_cons_hd.
      intros (_ & _ & _ & _ & Hfn). vm_compute in Hfn. congruence. }
    split; [exact Hbad|].
    exact (proj1 malformed_consumers_rejected sample_call 0%nat
             [of_Z 1; of_Z 2; of_Z 3] consumers Hbad).
  - intros fn.
    assert (well_formed fn) as Hwf by (by repeat split).
    assert ("bogus" <> "map") as H1 by done.
    assert ("bogus" <> "filter") as H2 by done.
    assert ("bogus" <> "reduce") as H3 by done.
    assert ("bogus" <> "forEach") as H4 by done.
    assert (1 <= 1)%nat as Hfuel by lia.
    repeat (split; [done|]).
    exact (proj1 (proj2 malformed_consumers_rejected) sample_call 1%nat fn
             (of_Z 2) [of_Z 3; of_Z 4] "bogus" Hwf eq_refl H1 H2 H3 H4 Hfuel).
  - intros pre fn post.
    assert (Forall well_formed pre) as Hpre by (repeat constructor; done).
    assert (well_formed fn) as Hwf by (by repeat split).
    assert (Forall well_formed post) as Hpost by (repeat constructor; done).
    assert ("bogus" <> "map") as H1 by done.
    assert ("bogus" <> "filter") as H2 by done.
    assert ("bogus" <> "reduce") as H3 by done.
    assert ("bogus" <> "forEach") as H4 by done.
    assert (Z.of_nat (length (pre ++ fn :: post)) < 2 ^ 32) as Hlen by done.
    assert (length [of_Z 2; of_Z 3; of_Z 4] < 4)%nat as Hfuel
      by (simpl; lia).
    do 10 (split; [done|]).
    exact (proj2 (proj2 malformed_consumers_rejected) sample_call 4%nat
             pre fn post (of_Z 2) [of_Z 3; of_Z 4] "bogus"
             Hpre Hwf Hpost eq_refl H1 H2 H3 H4 Hlen Hfuel).
Defined.

(** C5 as stated fails: without descriptors the error is a plain Error,
    not a TypeError; a descriptor whose [kind] is not one of the four is
    not rejected up front: over [[2, 3, 4]] the error, again a plain
    Error, is raised after the first descriptor has processed every
    element and the source has been pulled to its end, and over an empty
    array no error is raised at all. *)
Lemma unknown_kind_counterexample :
  teeConsumers sample_call 10 (VArr [of_Z 1]) []
    = Some {| outcome :=
                Throw (VErr ErrorC "At least one consumer must be provided");
              calls := []; source_pulls := 0 |} /\
  teeConsumers sample_call 10 (VArr [of_Z 2; of_Z 3; of_Z 4])
      [descriptor "map" 0; descriptor "bogus" 4]
    = Some {| outcome := Throw (VErr ErrorC "Unknown consumer kind: bogus");
              calls := [(VFun 0, [of_Z 2; of_Z 0]);
                        (VFun 0, [of_Z 3; of_Z 1]);
                        (VFun 0, [of_Z 4; of_Z 2])];
              source_pulls := 4 |} /\
  teeConsumers sample_call 10 (VArr []) [descriptor "bogus" 4]
    = Some {| outcome := Normal (VArr [of_Z 0]); calls := [];
              source_pulls := 1 |}.
Proof. vm_compute. repeat split. Qed.

(** Decide the [switch] on a [kind] that [H] gives as a string literal. *)
Ltac known_kind H :=
  rewrite H; cbn [is_string String.eqb Ascii.eqb Bool.eqb].

Section RunnerSpec.

Variable call : nat -> list value -> completion value.

Lemma consume_all_map (fn : value) (elems : list value) (L : locals)
    (log : list call_record) :
  get fn "kind" = VStr "map" ->
  match map_spec call (get fn "fn") (elementIdx L) elems with
  | Normal vals =>
      exists L' log',
        consume_all call fn elems L log = (Normal L', log') /\
        mapResult L' = mapResult L ++ vals
  | Throw e => exists log', consume_all call fn elems L log = (Throw e, log')
  end.
Proof.
  intros Hkind. revert L log.
  induction elems as [|elem rest IH]; intros L log; cbn [map_spec consume_all].
  { exists L, log. by rewrite app_nil_r. }
  unfold consume. known_kind Hkind.
  destruct (js_call call (get fn "fn") [elem; of_nat (elementIdx L)])
    as [val|e]; [|by eexists].
  specialize (IH (elementIdx_incr (mapResult_push val L))
                (log ++ [(get fn "fn", [elem; of_nat (elementIdx L)])])).
  cbn [elementIdx_incr mapResult_push elementIdx mapResult] in IH.
  destruct (map_spec call (get fn "fn") (Datatypes.S (elementIdx L)) rest)
    as [vals|e].
  - destruct IH as (L' & log' & -> & Hm). exists L', log'.
    by rewrite Hm, <- app_assoc.
  - destruct IH as (log' & ->). by eexists.
Qed.

Lemma consume_all_filter (fn : value) (elems : list value) (L : locals)
    (log : list call_record) :
  get fn "kind" = VStr "filter" ->
  match filter_spec call (get fn "fn") (elementIdx L) elems with
  | Normal kept =>
      exists L' log',
        consume_all call fn elems L log = (Normal L', log') /\
        filterResult L' = filterResult L ++ kept
  | Throw e => exists log', consume_all call fn elems L log = (Throw e, log')
  end.
Proof.
  intros Hkind. revert L log.
  induction elems as [|elem rest IH]; intros L log;
    cbn [filter_spec consume_all].
  { exists L, log. by rewrite app_nil_r. }
  unfold consume. known_kind Hkind.
  destruct (js_call call (get fn "fn") [elem; of_nat (elementIdx L)])
    as [keep|e]; [|by eexists].
  specialize (IH (elementIdx_incr
                    (if truthy keep then filterResult_push elem L else L))
                (log ++ [(get fn "fn", [elem; of_nat (elementIdx L)])])).
  assert (elementIdx (elementIdx_incr
                        (if truthy keep then filterResult_push elem L else L))
          = Datatypes.S (elementIdx L)) as Hidx by (by destruct (truthy keep)).
  rewrite Hidx in IH.
  destruct (filter_spec call (get fn "fn") (Datatypes.S (elementIdx L)) rest)
    as [kept|e].
  - destruct IH as (L' & log' & -> & Hm). exists L', log'. split; [done|].
    rewrite Hm. destruct (truthy keep); simpl; [by rewrite <- app_assoc|done].
  - destruct IH as (log' & ->). by eexists.
Qed.

Lemma consume_all_forEach (fn : value) (elems : list value) (L : locals)
    (log : list call_record) :
  get fn "kind" = VStr "forEach" ->
  match forEach_spec call (get fn "fn") (elementIdx L) elems with
  | Normal r =>
      r = VUndefined /\
      exists L' log', consume_all call fn elems L log = (Normal L', log')
  | Throw e => exists log', consume_all call fn elems L log = (Throw e, log')
  end.
Proof.
  intros Hkind. revert L log.
  induction elems as [|elem rest IH]; intros L log;
    cbn [forEach_spec consume_all].
  { split; [done|]. by exists L, log. }
  unfold consume. known_kind Hkind.
  destruct (js_call call (get fn "fn") [elem; of_nat (elementIdx L)])
    as [val|e]; [|by eexists].
  apply (IH (elementIdx_incr L)).
Qed.

(** Past the seeding step the loop body of a reduce consumer calls [fn]
    on every element. *)
Lemma consume_all_reduce (fn : value) (elems : list value) (L : locals)
    (log : list call_record) :
  get fn "kind" = VStr "reduce" ->
  is_undefined (reduceResult L) = false \/ elementIdx L <> 0%nat ->
  match reduce_from call (get fn "fn") (elementIdx L) (reduceResult L) elems
  with
  | (Normal acc, made) =>
      exists L',
        consume_all call fn elems L log = (Normal L', log ++ made) /\
        reduceResult L' = acc
  | (Throw e, made) =>
      consume_all call fn elems L log = (Throw e, log ++ made)
  end.
Proof.
  intros Hkind. revert L log.
  induction elems as [|elem rest IH]; intros L log Hpast;
    cbn [reduce_from consume_all].
  { exists L. by rewrite app_nil_r. }
  unfold consume. known_kind Hkind.
  assert ((elementIdx L =? 0)%nat && is_undefined (reduceResult L) = false)
    as ->.
  { destruct Hpast as [->|Hidx]; [by rewrite andb_false_r|].
    by apply Nat.eqb_neq in Hidx as ->. }
  destruct (js_call call (get fn "fn")
              [reduceResult L; elem; of_nat (elementIdx L)]) as [acc'|e];
    [|done].
  specialize (IH (elementIdx_incr (set_reduceResult acc' L))
                (log ++ [(get fn "fn",
                          [reduceResult L; elem; of_nat (elementIdx L)])])
                ltac:(by right)).
  cbn [elementIdx_incr set_reduceResult elementIdx reduceResult] in IH.
  destruct (reduce_from call (get fn "fn") (Datatypes.S (elementIdx L))
              acc' rest) as [[acc|e] made].
  - destruct IH as (L' & -> & <-). exists L'. by rewrite <- app_assoc.
  - rewrite IH. by rewrite <- app_assoc.
Qed.

Lemma is_undefined_true (v : value) : is_undefined v = true <-> v = VUndefined.
Proof. by destruct v. Qed.

(** A reduce consumer from the start of its round. *)
Lemma consume_all_reduce_initial (fn : value) (elems : list value)
    (log : list call_record) :
  get fn "kind" = VStr "reduce" ->
  match reduce_spec call (get fn "fn") (get fn "initVal") elems with
  | (Normal acc, made) =>
      exists L',
        consume_all call fn elems (initial_locals fn) log
        = (Normal L', log ++ made) /\
        reduceResult L' = acc
  | (Throw e, made) =>
      consume_all call fn elems (initial_locals fn) log
      = (Throw e, log ++ made)
  end.
Proof.
  intros Hkind. unfold reduce_spec.
  assert (reduceResult (initial_locals fn) = get fn "initVal") as Hinit
    by (unfold initial_locals; by rewrite Hkind).
  destruct (is_undefined (get fn "initVal")) eqn:Hundef.
  - destruct elems as [|first rest].
    + exists (initial_locals fn). rewrite app_nil_r. split; [done|].
      rewrite Hinit. by apply is_undefined_true.
    + assert (consume_all call fn (first :: rest) (initial_locals fn) log
              = consume_all call fn rest
                  (elementIdx_incr
                     (set_reduceResult first (initial_locals fn))) log)
        as ->.
      { cbn [consume_all]. unfold consume. known_kind Hkind.
        by rewrite Hinit, Hundef. }
      apply (consume_all_reduce fn rest
               (elementIdx_incr (set_reduceResult first (initial_locals fn)))
               log Hkind).
      by right.
  - pose proof (consume_all_reduce fn elems (initial_locals fn) log Hkind)
      as H.
    rewrite Hinit in H. apply H. by left.
Qed.

(** The round of a recognized consumer stores the result that the
    specification gives for its descriptor. *)
Lemma consume_all_descriptor (fn : value) (S : list value)
    (log : list call_record) (k : nat) (out : list value) :
  recognized fn ->
  match descriptor_spec call fn S with
  | Normal r =>
      exists L' log',
        consume_all call fn S (initial_locals fn) log = (Normal L', log') /\
        store fn k L' out = <[k:=r]> out
  | Throw e =>
      exists log',
        consume_all call fn S (initial_locals fn) log = (Throw e, log')
  end.
Proof.
  intros [_ [Hkind|[Hkind|[Hkind|Hkind]]]];
    unfold descriptor_spec, store; known_kind Hkind.
  - pose proof (consume_all_map fn S (initial_locals fn) log Hkind) as H.
    change (elementIdx (initial_locals fn)) with 0%nat in H.
    destruct (map_spec call (get fn "fn") 0 S) as [vals|e]; [|done].
    destruct H as (L' & log' & ? & Hr). exists L', log'. split; [done|].
    by rewrite Hr.
  - pose proof (consume_all_filter fn S (initial_locals fn) log Hkind) as H.
    change (elementIdx (initial_locals fn)) with 0%nat in H.
    destruct (filter_spec call (get fn "fn") 0 S) as [kept|e]; [|done].
    destruct H as (L' & log' & ? & Hr). exists L', log'. split; [done|].
    by rewrite Hr.
  - pose proof (consume_all_reduce_initial fn S log Hkind) as H.
    destruct (reduce_spec call (get fn "fn") (get fn "initVal") S)
      as [[acc|e] made]; cbn [fst].
    + destruct H as (L' & ? & Hr). exists L'. eexists. split; [done|].
      by rewrite Hr.
    + by eexists.
  - pose proof (consume_all_forEach fn S (initial_locals fn) log Hkind) as H.
    change (elementIdx (initial_locals fn)) with 0%nat in H.
    destruct (forEach_spec call (get fn "fn") 0 S) as [r|e]; [|done].
    destruct H as (-> & L' & log' & ?). by exists L', log'.
Qed.

Lemma process_all_spec (S : list value) (consumers : list value) :
  Forall recognized consumers ->
  forall (k : nat) (out : list value) (log : list call_record),
  length out = (k + length consumers)%nat ->
  match results_spec call S consumers with
  | Normal rs =>
      exists log',
        process_all call S consumers k out log
        = (Normal (take k out ++ rs), log')
  | Throw e =>
      exists log', process_all call S consumers k out log = (Throw e, log')
  end.
Proof.
  induction 1 as [|fn rest Hfn _ IH]; intros k out log Hlen;
    cbn [results_spec process_all].
  { exists log. rewrite app_nil_r, firstn_all2; [done|]. simpl in Hlen. lia. }
  pose proof (consume_all_descriptor fn S log k out Hfn) as Hd.
  destruct (descriptor_spec call fn S) as [r|e].
  - destruct Hd as (L' & log' & -> & ->).
    specialize (IH (Datatypes.S k) (<[k:=r]> out) log').
    rewrite length_insert in IH. simpl in Hlen.
    specialize (IH ltac:(lia)).
    destruct (results_spec call S rest) as [rs|e].
    + destruct IH as (log'' & ->). exists log''. do 2 f_equal.
      destruct (lookup_lt_is_Some_2 out k ltac:(lia)) as [x Hx].
      rewrite (take_S_r (<[k:=r]> out) k r)
        by (rewrite list_lookup_insert_eq by lia; done).
      by rewrite take_insert_ge, <- app_assoc by lia.
    + done.
  - destruct Hd as (log' & ->). by eexists.
Qed.

End RunnerSpec.

Section RunnerResults.

Variable call : nat -> list value -> completion value.

Lemma results_spec_Forall2 (S : list value) (descriptors rs : list value) :
  results_spec call S descriptors = Normal rs ->
  Forall2 (fun fn r => descriptor_spec call fn S = Normal r) descriptors rs.
Proof.
  revert rs. induction descriptors as [|fn rest IH]; intros rs; simpl.
  - intros [= <-]. constructor.
  - destruct (descriptor_spec call fn S) as [r|e] eqn:Hr; [|done].
    destruct (results_spec call S rest) as [rs'|e]; [|done].
    intros [= <-]. constructor; [done|by apply IH].
Qed.

(** The runner on an array and recognized descriptors computes what the
    specification words. *)
Lemma teeConsumers_run_spec (fuel : nat) (S : list value)
    (descriptors : list value) :
  descriptors <> [] -> Forall recognized descriptors ->
  Z.of_nat (length descriptors) < 2 ^ 32 ->
  (length S < fuel)%nat ->
  outcome <$> teeConsumers call fuel (VArr S) descriptors
  = Some (run_spec call S descriptors).
Proof.
  intros Hne Hrec Hlen Hfuel.
  assert (Forall well_formed descriptors) as Hwf
    by (eapply Forall_impl; [exact Hrec|]; by intros ? [? _]).
  destruct (teeConsumers_process_all call fuel S descriptors
              Hne Hwf Hlen Hfuel) as (n & ->).
  cbn [fmap option_fmap option_map outcome]. f_equal. unfold run_spec.
  pose proof (process_all_spec call S descriptors Hrec 0
                (replicate (length descriptors) (of_Z 0)) []
                ltac:(by rewrite length_replicate)) as Hp.
  destruct (results_spec call S descriptors) as [rs|e].
  - by destruct Hp as (log' & ->).
  - by destruct Hp as (log' & ->).
Qed.

Lemma reduce_from_indices (f : value) (i : nat) (acc : value)
    (elems : list value) :
  Forall (fun c => exists j : nat, index_of c = Some (of_nat j) /\ (i <= j)%nat)
    (reduce_from call f i acc elems).2.
Proof.
  revert i acc. induction elems as [|elem rest IH]; intros i acc; simpl;
    [constructor|].
  destruct (js_call call f [acc; elem; of_nat i]) as [acc'|e]; simpl.
  - specialize (IH (Datatypes.S i) acc').
    destruct (reduce_from call f (Datatypes.S i) acc' rest) as [r made].
    simpl in *. constructor; [by exists i|].
    eapply Forall_impl; [exact IH|]. intros c (j & ? & ?). exists j.
    split; [done|lia].
  - repeat constructor. by exists i.
Qed.

(** The runner on an array and a single reduce descriptor. *)
Lemma teeConsumers_single_reduce (fuel : nat) (S : list value) (fn : value) :
  well_formed fn -> get fn "kind" = VStr "reduce" ->
  (length S < fuel)%nat ->
  exists n,
    teeConsumers call fuel (VArr S) [fn]
    = Some {| outcome :=
                single (reduce_spec call (get fn "fn")
                          (get fn "initVal") S).1;
              calls := (reduce_spec call (get fn "fn")
                          (get fn "initVal") S).2;
              source_pulls := n |}.
Proof.
  intros Hwf Hkind Hfuel.
  destruct (teeConsumers_process_all call fuel S [fn]) as (n & ->);
    [done|by constructor|simpl; lia|done|].
  exists n. cbn [process_all length replicate].
  pose proof (consume_all_reduce_initial call fn S [] Hkind) as H.
  destruct (reduce_spec call (get fn "fn") (get fn "initVal") S)
    as [[acc|e] made]; cbn [fst snd].
  - destruct H as (L' & -> & <-). unfold store. by known_kind Hkind.
  - by rewrite H.
Qed.

(** The slot of a reduce descriptor in a run that returns. *)
Lemma reduce_slot (fuel : nat) (S : list value) (descriptors : list value)
    (k : nat) (fn : value) (rs : list value) :
  descriptors <> [] -> Forall recognized descriptors ->
  Z.of_nat (length descriptors) < 2 ^ 32 ->
  (length S < fuel)%nat ->
  descriptors !! k = Some fn -> get fn "kind" = VStr "reduce" ->
  outcome <$> teeConsumers call fuel (VArr S) descriptors
    = Some (Normal (VArr rs)) ->
  exists acc,
    rs !! k = Some acc /\
    (reduce_spec call (get fn "fn") (get fn "initVal") S).1 = Normal acc.
Proof.
  intros Hne Hrec Hlen Hfuel Hk Hkind Hrun.
  rewrite teeConsumers_run_spec in Hrun by done.
  injection Hrun as Hrun. unfold run_spec in Hrun.
  destruct (results_spec call S descriptors) as [rs'|e] eqn:Hrs;
    simpl in Hrun; [|done].
  injection Hrun as ->. apply results_spec_Forall2 in Hrs.
  destruct (Forall2_lookup_l _ _ _ _ _ Hrs Hk) as (acc & Hacc & Hspec).
  exists acc. split; [done|].
  unfold descriptor_spec in Hspec. rewrite Hkind in Hspec.
  by cbn [is_string String.eqb Ascii.eqb Bool.eqb] in Hspec.
Qed.

End RunnerResults.

(** C7: on an array and descriptors of the four kinds the runner returns
    the array of the results that the specification gives, one per
    descriptor and in the order of the descriptors: for map the values
    [fn(element, index)] in order, for filter the elements whose
    [fn(element, index)] is truthy, for reduce the final accumulator, for
    forEach the no-value marker; a call that throws ends the run with what
    it threw.  Running map [x * 2], filter [x % 2 == 0], reduce with a sum
    from 0 and forEach with a function that does nothing over
    [[1, 2, 3, 4]] returns [[[2, 4, 6, 8], [2, 4], 10, undefined]]. *)
Theorem results_in_descriptor_order :
  (forall (call : nat -> list value -> completion value) (fuel : nat)
          (S : list value) (descriptors : list value),
     descriptors <> [] -> Forall recognized descriptors ->
     Z.of_nat (length descriptors) < 2 ^ 32 ->
     (length S < fuel)%nat ->
     outcome <$> teeConsumers call fuel (VArr S) descriptors
       = Some (run_spec call S descriptors) /\
     forall rs : list value,
       run_spec call S descriptors = Normal (VArr rs) ->
       Forall2 (fun fn r => descriptor_spec call fn S = Normal r)
         descriptors rs) /\
  outcome <$> teeConsumers sample_call 5
                (VArr [of_Z 1; of_Z 2; of_Z 3; of_Z 4])
                [descriptor "map" 0; descriptor "filter" 1;
                 reducer 2 (of_Z 0); descriptor "forEach" 3]
  = Some (Normal (VArr [VArr [of_Z 2; of_Z 4; of_Z 6; of_Z 8];
                        VArr [of_Z 2; of_Z 4]; of_Z 10; VUndefined])).
Proof.
  split; [|by vm_compute].
  intros call fuel S descriptors Hne Hrec Hlen Hfuel.
  split; [by apply teeConsumers_run_spec|].
  intros rs Hrs. apply results_spec_Forall2.
  unfold run_spec in Hrs.
  destruct (results_spec call S descriptors) as [l|e]; simpl in Hrs;
    [by injection Hrs as ->|done].
Qed.

Lemma recognized_descriptor (kind : string) (closure : nat) :
  kind = "map" \/ kind = "filter" \/ kind = "reduce" \/ kind = "forEach" ->
  recognized (descriptor kind closure).
Proof.
  intros H. split; [by repeat split|].
  destruct H as [ -> | [ -> | [ -> | -> ] ] ]; simpl; tauto.
Qed.

Lemma results_in_descriptor_order_witness :
  let S := [of_Z 1; of_Z 2; of_Z 3; of_Z 4] in
  let descriptors :=
    [descriptor "map" 0; descriptor "filter" 1;
     reducer 2 (of_Z 0); descriptor "forEach" 3] in
  descriptors <> [] /\ Forall recognized descriptors /\
  Z.of_nat (length descriptors) < 2 ^ 32 /\
  (length S < 5)%nat /\
  outcome <$> teeConsumers sample_call 5 (VArr S) descriptors
    = Some (run_spec sample_call S descriptors).
Proof.
  intros S descriptors.
  assert (Forall recognized descriptors) as Hrec.
  { constructor; [apply recognized_descriptor; tauto|].
    constructor; [apply recognized_descriptor; tauto|].
    constructor; [split; [by repeat split|simpl; tauto]|].
    constructor; [apply recognized_descriptor; tauto|]. constructor. }
  assert (Z.of_nat (length descriptors) < 2 ^ 32) as Hlen by (simpl; lia).
  assert (length S < 5)%nat as Hfuel by (simpl; lia).
  repeat (split; [done|]).
  apply (proj1 results_in_descriptor_order sample_call 5%nat S descriptors);
    done.
Defined.

(** C6: a reduce descriptor without an initial value (no [initVal]
    property, or one that is [undefined]) over a source with a first
    element: the accumulator is seeded with the first element, and the
    calls of [fn] are those of reducing the rest of the source from index
    1, [fn(accumulator, element, index)] for each index from 1 on, none
    with index 0; reducing [[2, 3, 4]] with a multiplying function and no
    initial value returns 24.  With an initial value (one that is not
    [undefined]) the accumulator is seeded with it and the calls are those
    of reducing the whole source from index 0.  A call that throws ends
    the run with what it threw.  Among other descriptors, in a run that
    returns, the slot of a reduce descriptor holds the accumulator of the
    same reduction. *)
Theorem reduce_seeding :
  (forall (call : nat -> list value -> completion value) (fuel : nat)
          (fn first : value) (rest : list value),
     well_formed fn -> get fn "kind" = VStr "reduce" ->
     get fn "initVal" = VUndefined ->
     (length (first :: rest) < fuel)%nat ->
     let reduction := reduce_from call (get fn "fn") 1 first rest in
     (exists n,
        teeConsumers call fuel (VArr (first :: rest)) [fn]
        = Some {| outcome := single reduction.1; calls := reduction.2;
                  source_pulls := n |}) /\
     Forall (fun c => exists j : nat,
               index_of c = Some (of_nat j) /\ (1 <= j)%nat) reduction.2) /\
  (forall (call : nat -> list value -> completion value) (fuel : nat)
          (fn : value) (elems : list value),
     well_formed fn -> get fn "kind" = VStr "reduce" ->
     get fn "initVal" <> VUndefined ->
     (length elems < fuel)%nat ->
     let reduction :=
       reduce_from call (get fn "fn") 0 (get fn "initVal") elems in
     exists n,
       teeConsumers call fuel (VArr elems) [fn]
       = Some {| outcome := single reduction.1; calls := reduction.2;
                 source_pulls := n |}) /\
  (forall (call : nat -> list value -> completion value) (fuel : nat)
          (S : list value) (descriptors : list value) (k : nat)
          (fn : value) (rs : list value),
     descriptors <> [] -> Forall recognized descriptors ->
     Z.of_nat (length descriptors) < 2 ^ 32 ->
     (length S < fuel)%nat ->
     descriptors !! k = Some fn -> get fn "kind" = VStr "reduce" ->
     outcome <$> teeConsumers call fuel (VArr S) descriptors
       = Some (Normal (VArr rs)) ->
     exists acc,
       rs !! k = Some acc /\
       (reduce_spec call (get fn "fn") (get fn "initVal") S).1
       = Normal acc) /\
  outcome <$> teeConsumers sample_call 4 (VArr [of_Z 2; of_Z 3; of_Z 4])
                [descriptor "reduce" 4]
  = Some (Normal (VArr [of_Z 24])).
Proof.
  split; [|split; [|split; [|by vm_compute]]].
  - intros call fuel fn first rest Hwf Hkind Hinit Hfuel reduction.
    split; [|apply reduce_from_indices].
    destruct (teeConsumers_single_reduce call fuel (first :: rest) fn
                Hwf Hkind Hfuel) as (n & ->).
    exists n. unfold reduce_spec. by rewrite Hinit.
  - intros call fuel fn elems Hwf Hkind Hinit Hfuel reduction.
    destruct (teeConsumers_single_reduce call fuel elems fn
                Hwf Hkind Hfuel) as (n & ->).
    exists n. unfold reduce_spec.
    destruct (is_undefined (get fn "initVal")) eqn:Hu; [|done].
    by apply is_undefined_true in Hu.
  - intros call. apply reduce_slot.
Qed.

Lemma reduce_seeding_witness :
  (let fn := descriptor "reduce" 4 in
   let first := of_Z 2 in
   let rest := [of_Z 3; of_Z 4] in
   well_formed fn /\ get fn "kind" = VStr "reduce" /\
   get fn "initVal" = VUndefined /\
   (length (first :: rest) < 4)%nat /\
   let reduction := reduce_from sample_call (get fn "fn") 1 first rest in
   (exists n,
      teeConsumers sample_call 4 (VArr (first :: rest)) [fn]
      = Some {| outcome := single reduction.1; calls := reduction.2;
                source_pulls := n |}) /\
   Forall (fun c => exists j : nat,
             index_of c = Some (of_nat j) /\ (1 <= j)%nat) reduction.2) /\
  (let fn := reducer 2 (of_Z 0) in
   let elems := [of_Z 1; of_Z 2; of_Z 3] in
   well_formed fn /\ get fn "kind" = VStr "reduce" /\
   get fn "initVal" <> VUndefined /\
   (length elems < 4)%nat /\
   let reduction :=
     reduce_from sample_call (get fn "fn") 0 (get fn "initVal") elems in
   exists n,
     teeConsumers sample_call 4 (VArr elems) [fn]
     = Some {| outcome := single reduction.1; calls := reduction.2;
               source_pulls := n |}) /\
  (let S := [of_Z 2; of_Z 3; of_Z 4] in
   let fn := descriptor "reduce" 4 in
   let descriptors := [descriptor "map" 0; fn] in
   let rs := [VArr [of_Z 4; of_Z 6; of_Z 8]; of_Z 24] in
   descriptors <> [] /\ Forall recognized descriptors /\
   Z.of_nat (length descriptors) < 2 ^ 32 /\
   (length S < 4)%nat /\
   descriptors !! 1%nat = Some fn /\ get fn "kind" = VStr "reduce" /\
   outcome <$> teeConsumers sample_call 4 (VArr S) descriptors
     = Some (Normal (VArr rs)) /\
   exists acc,
     rs !! 1%nat = Some acc /\
     (reduce_spec sample_call (get fn "fn") (get fn "initVal") S).1
     = Normal acc).
Proof.
  split; [|split].
  - intros fn first rest.
    assert (well_formed fn) as Hwf by (by repeat split).
    assert (length (first :: rest) < 4)%nat as Hfuel by (simpl; lia).
    do 4 (split; [done|]).
    exact (proj1 reduce_seeding sample_call 4%nat fn first rest
             Hwf eq_refl eq_refl Hfuel).
  - intros fn elems.
    assert (well_formed fn) as Hwf by (by repeat split).
    assert (get fn "initVal" <> VUndefined) as Hinit by done.
    assert (length elems < 4)%nat as Hfuel by (simpl; lia).
    do 4 (split; [done|]).
    exact (proj1 (proj2 reduce_seeding) sample_call 4%nat fn elems
             Hwf eq_refl Hinit Hfuel).
  - intros S fn descriptors rs.
    assert (descriptors <> []) as Hne by done.
    assert (Forall recognized descriptors) as Hrec
      by (repeat (constructor; [apply recognized_descriptor; tauto|]);
          constructor).
    assert (Z.of_nat (length descriptors) < 2 ^ 32) as Hlen by (simpl; lia).
    assert (length S < 4)%nat as Hfuel by (simpl; lia).
    assert (outcome <$> teeConsumers sample_call 4 (VArr S) descriptors
            = Some (Normal (VArr rs))) as Hrun by (by vm_compute).
    do 7 (split; [done|]).
    exact (proj1 (proj2 (proj2 reduce_seeding)) sample_call 4%nat S
             descriptors 1%nat fn rs Hne Hrec Hlen Hfuel eq_refl eq_refl Hrun).
Defined.

(** ** An [initVal] that is [undefined] *)

Lemma assoc_without_eq (k : string) (props : list (string * value)) :
  assoc k (without k props) = None.
Proof.
  induction props as [|[k' v] props IH]; simpl; [done|].
  destruct (String.eqb_spec k k') as [->|Hne]; simpl; [done|].
  by destruct (String.eqb_spec k k').
Qed.

Lemma assoc_without_ne (k k' : string) (props : list (string * value)) :
  k <> k' -> assoc k (without k' props) = assoc k props.
Proof.
  intros Hne. induction props as [|[k'' v] props IH]; simpl; [done|].
  destruct (String.eqb_spec k' k'') as [->|Hne']; simpl.
  - by destruct (String.eqb_spec k k'').
  - by rewrite IH.
Qed.

Section SameConsumers.

Variable call : nat -> list value -> completion value.

Lemma same_consumer_refl (d : value) : same_consumer d d.
Proof. by repeat split. Qed.

Lemma check_consumer_same (d d' : value) :
  same_consumer d d' -> check_consumer d = check_consumer d'.
Proof.
  intros (Ht & Hn & Hk & Hkind & Hfn & _). unfold check_consumer.
  by rewrite Ht, Hn, Hk, Hkind, Hfn.
Qed.

Lemma consume_same (d d' elem : value) (L : locals) (log : list call_record) :
  same_consumer d d' -> consume call d elem L log = consume call d' elem L log.
Proof.
  intros (_ & _ & _ & Hkind & Hfn & _). unfold consume.
  by rewrite Hkind, Hfn.
Qed.

Lemma for_of_same (fuel : nat) (i : nat) (d d' : value)
    (st : tee_state Scripted) (L : locals) (log : list call_record) :
  same_consumer d d' ->
  for_of call fuel i d st L log = for_of call fuel i d' st L log.
Proof.
  intros Hsame. revert st L log.
  induction fuel as [|fuel IH]; intros st L log; [done|]. cbn [for_of].
  destruct (next Scripted_next i st) as [[result|e] st']; [|done].
  destruct (done_of result); [done|].
  rewrite (consume_same d d' _ _ _ Hsame).
  by destruct (consume call d' (value_of result) L log) as [[L'|e] log'].
Qed.

Lemma process_same (fuel : nat) (ds ds' : list value) :
  Forall2 same_consumer ds ds' ->
  forall (k : nat) (st : tee_state Scripted) (out : list value)
         (log : list call_record),
  process call fuel ds k st out log = process call fuel ds' k st out log.
Proof.
  induction 1 as [|d d' ds ds' Hsame _ IH]; intros k st out log; [done|].
  cbn [process]. rewrite (for_of_same fuel k d d' _ _ _ Hsame).
  pose proof Hsame as (_ & _ & _ & Hkind & _ & Hinit).
  unfold initial_locals, store. rewrite Hkind, Hinit.
  destruct (for_of call fuel k d' st _ log) as [[[[L'|e] st'] log']|];
    [|done|done].
  apply IH.
Qed.

Lemma validate_same (ds ds' : list value) :
  Forall2 same_consumer ds ds' -> validate ds = validate ds'.
Proof.
  induction 1 as [|d d' ds ds' Hsame _ IH]; [done|]. simpl.
  by rewrite (check_consumer_same d d' Hsame), IH.
Qed.

(** The runner cannot tell apart consumers that agree on what it
    reads. *)
Lemma teeConsumers_same (fuel : nat) (this : value) (ds ds' : list value) :
  Forall2 same_consumer ds ds' ->
  teeConsumers call fuel this ds = teeConsumers call fuel this ds'.
Proof.
  intros Hsame. unfold teeConsumers.
  rewrite (Forall2_length _ _ _ Hsame), (validate_same _ _ Hsame).
  destruct (negb (Array_isArray this)); [done|].
  destruct (length ds' =? 0)%nat; [done|].
  destruct (validate ds'); [done|].
  destruct (createTeeIterators _ _) as [st|e]; [|done].
  by rewrite (process_same fuel ds ds' Hsame).
Qed.

Lemma same_consumer_without (props : list (string * value)) :
  assoc "initVal" props = Some VUndefined ->
  same_consumer (VObj props) (VObj (without "initVal" props)).
Proof.
  intros Hinit. unfold same_consumer. simpl.
  rewrite !assoc_without_ne by done.
  by rewrite assoc_without_eq, Hinit.
Qed.

End SameConsumers.

(** C10: a descriptor whose [initVal] property is present and equal to
    [undefined] makes every run the run of the same descriptor without
    that property, whatever the array, the other descriptors and its place
    among them; and when it is a reduce descriptor, alone over a source
    with a first element, the first element seeds the accumulator and
    [fn] is called from index 1 on, never with index 0. *)
Theorem undefined_initVal_is_no_initVal :
  (forall (call : nat -> list value -> completion value) (fuel : nat)
          (this : value) (before after : list value)
          (props : list (string * value)),
     assoc "initVal" props = Some VUndefined ->
     teeConsumers call fuel this (before ++ VObj props :: after)
     = teeConsumers call fuel this
         (before ++ VObj (without "initVal" props) :: after)) /\
  (forall (call : nat -> list value -> completion value) (fuel : nat)
          (props : list (string * value)) (first : value)
          (rest : list value),
     well_formed (VObj props) -> get (VObj props) "kind" = VStr "reduce" ->
     assoc "initVal" props = Some VUndefined ->
     (length (first :: rest) < fuel)%nat ->
     let reduction :=
       reduce_from call (get (VObj props) "fn") 1 first rest in
     (exists n,
        teeConsumers call fuel (VArr (first :: rest)) [VObj props]
        = Some {| outcome := single reduction.1; calls := reduction.2;
                  source_pulls := n |}) /\
     Forall (fun c => exists j : nat,
               index_of c = Some (of_nat j) /\ (1 <= j)%nat) reduction.2).
Proof.
  split.
  - intros call fuel this before after props Hinit.
    apply teeConsumers_same, Forall2_app.
    + apply Forall2_same_length_lookup_2; [done|].
      intros i x y Hx Hy. assert (x = y) as -> by congruence.
      apply same_consumer_refl.
    + constructor; [by apply same_consumer_without|].
      apply Forall2_same_length_lookup_2; [done|].
      intros i x y Hx Hy. assert (x = y) as -> by congruence.
      apply same_consumer_refl.
  - intros call fuel props first rest Hwf Hkind Hinit Hfuel reduction.
    split; [|apply reduce_from_indices].
    destruct (teeConsumers_single_reduce call fuel (first :: rest)
                (VObj props) Hwf Hkind Hfuel) as (n & ->).
    exists n. unfold reduce_spec. simpl get. by rewrite Hinit.
Qed.

Lemma undefined_initVal_is_no_initVal_witness :
  let props := [("kind", VStr "reduce"); ("fn", VFun 4);
                ("initVal", VUndefined)] in
  (assoc "initVal" props = Some VUndefined /\
   teeConsumers sample_call 4 (VArr [of_Z 2; of_Z 3; of_Z 4])
     ([descriptor "map" 0] ++ VObj props :: [descriptor "filter" 1])
   = teeConsumers sample_call 4 (VArr [of_Z 2; of_Z 3; of_Z 4])
       ([descriptor "map" 0] ++ VObj (without "initVal" props)
          :: [descriptor "filter" 1])) /\
  (let first := of_Z 2 in
   let rest := [of_Z 3; of_Z 4] in
   well_formed (VObj props) /\ get (VObj props) "kind" = VStr "reduce" /\
   assoc "initVal" props = Some VUndefined /\
   (length (first :: rest) < 4)%nat /\
   let reduction :=
     reduce_from sample_call (get (VObj props) "fn") 1 first rest in
   (exists n,
      teeConsumers sample_call 4 (VArr (first :: rest)) [VObj props]
      = Some {| outcome := single reduction.1; calls := reduction.2;
                source_pulls := n |}) /\
   Forall (fun c => exists j : nat,
             index_of c = Some (of_nat j) /\ (1 <= j)%nat) reduction.2).
Proof.
  intros props. split.
  - split; [done|].
    exact (proj1 undefined_initVal_is_no_initVal sample_call 4%nat
             (VArr [of_Z 2; of_Z 3; of_Z 4]) [descriptor "map" 0]
             [descriptor "filter" 1] props eq_refl).
  - intros first rest.
    assert (well_formed (VObj props)) as Hwf by (by repeat split).
    assert (length (first :: rest) < 4)%nat as Hfuel by (simpl; lia).
    repeat (split; [done|]).
    exact (proj2 undefined_initVal_is_no_initVal sample_call 4%nat
             props first rest Hwf eq_refl eq_refl Hfuel).
Defined.

(** ** The arguments of [createTeeIterators] *)

Lemma Array_length_floor (q : Q) :
  Array_length (Math_floor (Fin q))
  = if (0 <=? Qfloor q) && (Qfloor q <? 2 ^ 32)
    then Some (Z.to_nat (Qfloor q)) else None.
Proof.
  unfold Array_length, Math_floor. rewrite Qfloor_Z.
  assert (Qeq_bool (inject_Z (Qfloor q)) (inject_Z (Qfloor q)) = true) as ->
    by (apply Qeq_bool_iff; reflexivity).
  done.
Qed.

Lemma truncate_nonnegative (q : Q) :
  (0 <= q)%Q -> truncate q = Qfloor q /\ 0 <= Qfloor q.
Proof.
  intros Hq. unfold truncate.
  assert (Qle_bool 0 q = true) as -> by (by apply Qle_bool_iff).
  split; [done|]. change 0 with (Qfloor 0). by apply Qfloor_resp_le.
Qed.

Lemma Qfloor_negative (q : Q) : (q < 0)%Q -> Qfloor q < 0.
Proof.
  intros Hq. destruct (Z.lt_ge_cases (Qfloor q) 0) as [|Hge]; [done|].
  exfalso. apply (Qlt_not_le _ _ Hq).
  apply Qle_trans with (inject_Z (Qfloor q)); [|apply Qfloor_le].
  change 0%Q with (inject_Z 0). by rewrite <- Zle_Qle.
Qed.

(** C9: [createTeeIterators] raises an error, without having asked the
    source for an iterator, when it does not receive exactly two
    arguments, when reading [Symbol.iterator] of the first gives nothing
    to call (the error is an Error, or what the read itself threw), or
    when the second is not a number (an Error).  A fractional count (a
    count is not negative) is truncated toward zero before use: the call
    returns that many cursors.  Outside the contract, a negative count is
    rounded down and raises a RangeError. *)
Theorem split_argument_contract :
  (forall (Src : Type)
          (symbol_iterator : value -> completion (option (completion Src)))
          (arguments : list value),
     length arguments <> 2%nat \/
     (forall make,
        symbol_iterator (default VUndefined (arguments !! 0%nat))
        <> Normal (Some make)) \/
     typeof (default VUndefined (arguments !! 1%nat)) <> "number" ->
     exists e,
       createTeeIterators symbol_iterator arguments = Throw e /\
       ((exists message, e = VErr ErrorC message) \/
        symbol_iterator (default VUndefined (arguments !! 0%nat))
        = Throw e)) /\
  (forall (Src : Type)
          (symbol_iterator : value -> completion (option (completion Src)))
          (sourceIterable : value) (it : Src) (q : Q),
     symbol_iterator sourceIterable = Normal (Some (Normal it)) ->
     (0 <= q)%Q -> Qfloor q < 2 ^ 32 ->
     createTeeIterators symbol_iterator [sourceIterable; VNum (Fin q)]
     = Normal (tee_init it (Z.to_nat (truncate q)))) /\
  (forall (Src : Type)
          (symbol_iterator : value -> completion (option (completion Src)))
          (sourceIterable : value) (it : Src) (q : Q),
     symbol_iterator sourceIterable = Normal (Some (Normal it)) ->
     (q < 0)%Q ->
     createTeeIterators symbol_iterator [sourceIterable; VNum (Fin q)]
     = Throw (VErr RangeErrorC "Invalid array length")).
Proof.
  split; [|split].
  - intros Src symbol_iterator arguments Hbad. unfold createTeeIterators.
    destruct (Nat.eqb_spec (length arguments) 2) as [Hlen|Hlen];
      cbn [negb]; [|eexists; split; [reflexivity|left; by eexists]].
    destruct Hbad as [?|[Hit|Hnum]]; [done| |].
    + destruct (symbol_iterator _) as [[make|]|e] eqn:Hs.
      * by destruct (Hit make).
      * eexists. split; [reflexivity|left; by eexists].
      * eexists. split; [reflexivity|by right].
    + destruct (symbol_iterator _) as [[make|]|e] eqn:Hs.
      * destruct (default VUndefined (arguments !! 1%nat)); try done;
          eexists; (split; [reflexivity|left; by eexists]).
      * eexists. split; [reflexivity|left; by eexists].
      * eexists. split; [reflexivity|by right].
  - intros Src symbol_iterator sourceIterable it q Hs Hq Hmax.
    unfold createTeeIterators. cbn [length Nat.eqb negb lookup list_lookup
                                     default from_option id].
    rewrite Hs, Array_length_floor.
    destruct (truncate_nonnegative q Hq) as [-> H0].
    destruct (Z.leb_spec 0 (Qfloor q)); [|lia].
    destruct (Z.ltb_spec (Qfloor q) (2 ^ 32)); [|lia]. done.
  - intros Src symbol_iterator sourceIterable it q Hs Hq.
    unfold createTeeIterators. cbn [length Nat.eqb negb lookup list_lookup
                                     default from_option id].
    rewrite Hs, Array_length_floor.
    pose proof (Qfloor_negative q Hq).
    destruct (Z.leb_spec 0 (Qfloor q)); [lia|]. done.
Qed.

Lemma split_argument_contract_witness :
  (let arguments := [VArr [of_Z 1; of_Z 2; of_Z 3]; VStr "2"] in
   (length arguments <> 2%nat \/
    (forall make,
       host_symbol_iterator (default VUndefined (arguments !! 0%nat))
       <> Normal (Some make)) \/
    typeof (default VUndefined (arguments !! 1%nat)) <> "number") /\
   exists e,
     createTeeIterators host_symbol_iterator arguments = Throw e /\
     ((exists message, e = VErr ErrorC message) \/
      host_symbol_iterator (default VUndefined (arguments !! 0%nat))
      = Throw e)) /\
  (let S := [of_Z 1; of_Z 2; of_Z 3] in
   host_symbol_iterator (VArr S) = Normal (Some (Normal (values S))) /\
   (0 <= 5 # 2)%Q /\ Qfloor (5 # 2) < 2 ^ 32 /\
   createTeeIterators host_symbol_iterator [VArr S; VNum (Fin (5 # 2))]
   = Normal (tee_init (values S) (Z.to_nat (truncate (5 # 2))))) /\
  (let S := [of_Z 1; of_Z 2; of_Z 3] in
   host_symbol_iterator (VArr S) = Normal (Some (Normal (values S))) /\
   (-1 # 2 < 0)%Q /\
   createTeeIterators host_symbol_iterator [VArr S; VNum (Fin (-1 # 2))]
   = Throw (VErr RangeErrorC "Invalid array length")).
Proof.
  split; [|split].
  - intros arguments.
    assert (length arguments <> 2%nat \/
            (forall make,
               host_symbol_iterator (default VUndefined (arguments !! 0%nat))
               <> Normal (Some make)) \/
            typeof (default VUndefined (arguments !! 1%nat)) <> "number")
      as Hbad by (right; right; done).
    split; [exact Hbad|].
    exact (proj1 split_argument_contract Scripted host_symbol_iterator
             arguments Hbad).
  - intros S.
    assert (0 <= 5 # 2)%Q as Hq by done.
    assert (Qfloor (5 # 2) < 2 ^ 32) as Hmax by done.
    repeat (split; [done|]).
    exact (proj1 (proj2 split_argument_contract) Scripted
             host_symbol_iterator (VArr S) (values S) (5 # 2)
             eq_refl Hq Hmax).
  - intros S.
    assert (-1 # 2 < 0)%Q as Hq by done.
    repeat (split; [done|]).
    exact (proj2 (proj2 split_argument_contract) Scripted
             host_symbol_iterator (VArr S) (values S) (-1 # 2) eq_refl Hq).
Defined.


(** * Further properties of the splitter and the runner *)

(** ** Terminal cursors, eviction and the end of the source, for any
    source *)

Section AnySourceMore.

Context {Src : Type}.
Variable src_next : Src -> completion IteratorResult * Src.

Implicit Types (st : tee_state Src).

Lemma step_done_permanent (o : op) (i : nat) st :
  (done st !!! i : bool) = true ->
  (done (step src_next o st).2 !!! i : bool) = true.
Proof.
  intros Hd. destruct o as [j|j v|j e]; simpl.
  - unfold next. destruct (done st !!! j : bool); [done|].
    destruct (_ <? _); simpl.
    + by destruct (cleanup_frame (increment j st)) as (_ & _ & _ & ->).
    + unfold getNextStreamElement.
      destruct (streamExhausted st); [by apply done_insert_true|].
      destruct (truthy (streamError st)); [done|].
      destruct (src_next (sourceIterator st)) as [[result|e] it]; [|done].
      destruct (done_of result); simpl; [by apply done_insert_true|].
      match goal with
      | |- context [cleanupStreamBuffer ?s] =>
          by destruct (cleanup_frame s) as (_ & _ & _ & ->)
      end.
  - unfold return_. destruct (done st !!! j : bool); simpl;
      [done|by apply done_insert_true].
  - unfold throw_. destruct (done st !!! j : bool); simpl;
      [done|by apply done_insert_true].
Qed.

(** X1: a cursor that is terminal stays terminal whatever calls follow on
    any cursor, and each of its [next()] calls answers the end and leaves
    the splitter as it is. *)
Theorem terminal_is_permanent (ops : list op) (i : nat) st :
  (done st !!! i : bool) = true ->
  let st' := (run src_next ops st).2 in
  (done st' !!! i : bool) = true /\
  next src_next i st' = (finished, st').
Proof.
  intros Hd st'.
  assert ((done st' !!! i : bool) = true) as Hd'.
  { subst st'. revert st Hd.
    induction ops as [|o ops IH]; intros st Hd; [done|].
    rewrite run_cons. simpl. by apply IH, step_done_permanent. }
  split; [done|]. unfold next. by rewrite Hd'.
Qed.

(** X2: eviction never discards an element that some cursor has yet to
    read: for every cursor the part of the buffer from its position on is
    the same before and after [cleanupStreamBuffer]. *)
Theorem eviction_keeps_unread (i : nat) (p : Z) st :
  length (iteratorIndexPositions st) = count st ->
  Forall (fun q => 0 <= q) (iteratorIndexPositions st) ->
  iteratorIndexPositions st !! i = Some p ->
  exists p',
    iteratorIndexPositions (cleanupStreamBuffer st) !! i = Some p' /\
    0 <= p' <= p /\
    drop (Z.to_nat p') (streamBuffer (cleanupStreamBuffer st))
    = drop (Z.to_nat p) (streamBuffer st).
Proof.
  intros Hlen Hall Hp.
  destruct (cleanup_pinned i p st Hlen Hall Hp) as (d & Hd & Hp' & Hb & _).
  exists (p - d). split; [done|]. split; [lia|].
  rewrite Hb, drop_drop. f_equal. lia.
Qed.

(** X3: eviction leaves the smallest read position at 0, and evicting
    twice is evicting once. *)
Theorem eviction_idempotent st :
  length (iteratorIndexPositions st) = count st ->
  (iteratorIndexPositions st <> [] ->
   Math_min (iteratorIndexPositions (cleanupStreamBuffer st)) = Some 0) /\
  cleanupStreamBuffer (cleanupStreamBuffer st) = cleanupStreamBuffer st.
Proof.
  intros Hlen.
  destruct (decide (iteratorIndexPositions st = [])) as [Hnil|Hne].
  { split; [done|]. unfold cleanupStreamBuffer at 2. rewrite Hnil. simpl.
    unfold cleanupStreamBuffer. simpl. by rewrite Hnil. }
  destruct (cleanup_spec st Hlen Hne) as (m & Hm & Hc).
  assert (Math_min (iteratorIndexPositions (cleanupStreamBuffer st)) = Some 0)
    as Hmin.
  { rewrite Hc. simpl. rewrite Math_min_shift, Hm. simpl. f_equal. lia. }
  split; [done|].
  destruct (cleanup_spec (cleanupStreamBuffer st)) as (m' & Hm' & ->).
  - rewrite cleanup_count. rewrite Hc. simpl. by rewrite length_fmap.
  - intros E. by rewrite E in Hmin.
  - rewrite Hmin in Hm'. injection Hm' as <-.
    rewrite (list_fmap_ext (fun p => p - 0) id) by (intros; simpl; lia).
    rewrite list_fmap_id. simpl.
    by destruct (cleanupStreamBuffer st).
Qed.


Lemma ended_frontier (it : Src) (j : nat) st :
  ended it st ->
  (done st !!! j : bool) = false ->
  ~ iteratorIndexPositions st !!! j < buffer_length st ->
  next src_next j st = (finished, set_done j st).
Proof.
  intros (_ & Hex) Hd Hfront. unfold next.
  rewrite Hd. fold (buffer_length st).
  destruct (Z.ltb_spec (iteratorIndexPositions st !!! j) (buffer_length st));
    [done|].
  unfold getNextStreamElement. by rewrite Hex.
Qed.

Lemma ended_step (it : Src) (o : op) st :
  ended it st -> ended it (step src_next o st).2.
Proof.
  intros Hc. pose proof Hc as (Hit & Hex).
  destruct o as [i|i v|i x]; simpl.
  - unfold next. destruct (done st !!! i : bool); [done|].
    destruct (_ <? _); simpl.
    + unfold ended.
      destruct (cleanup_frame (increment i st)) as (-> & _ & -> & _).
      done.
    + unfold getNextStreamElement. by rewrite Hex.
  - unfold return_. by destruct (done st !!! i : bool).
  - unfold throw_. by destruct (done st !!! i : bool).
Qed.

Lemma ended_run (it : Src) (ops : list op) st :
  ended it st -> ended it (run src_next ops st).2.
Proof.
  revert st. induction ops as [|o ops IH]; intros st Hc; [done|].
  rewrite run_cons. simpl. by apply IH, ended_step.
Qed.

(** X4: when a pull by a cursor finds the source at its end, that cursor
    is told the end and becomes terminal; whatever calls follow, the
    source is never pulled again (it stays in the state the last pull left
    it in), and every cursor that is not terminal and has read the whole
    buffer is told the end and becomes terminal in turn. *)
Theorem source_end_is_final
    (result : IteratorResult) (it' : Src) (i : nat) st :
  (i < length (done st))%nat ->
  (done st !!! i : bool) = false ->
  ~ iteratorIndexPositions st !!! i < buffer_length st ->
  streamExhausted st = false ->
  truthy (streamError st) = false ->
  src_next (sourceIterator st) = (Normal result, it') ->
  done_of result = true ->
  let st1 := (next src_next i st).2 in
  (next src_next i st).1 = finished /\
  (done st1 !!! i : bool) = true /\
  forall ops : list op,
    let st2 := (run src_next ops st1).2 in
    sourceIterator st2 = it' /\
    streamExhausted st2 = true /\
    forall j : nat,
      (done st2 !!! j : bool) = false ->
      ~ iteratorIndexPositions st2 !!! j < buffer_length st2 ->
      next src_next j st2 = (finished, set_done j st2).
Proof.
  intros Hi Hd Hfront Hex Herr Hsrc Hres.
  assert (next src_next i st
          = (finished,
             set_done i (set_exhausted _ true (set_source _ it' st))))
    as Hnext.
  { unfold next. rewrite Hd. fold (buffer_length st).
    destruct (Z.ltb_spec (iteratorIndexPositions st !!! i) (buffer_length st));
      [done|].
    unfold getNextStreamElement. by rewrite Hex, Herr, Hsrc, Hres. }
  rewrite Hnext. simpl.
  set (st1 := set_done i (set_exhausted _ true (set_source _ it' st))).
  assert (ended it' st1) as Hc by done.
  split; [done|]. split; [by apply list_lookup_total_insert_eq|].
  intros ops. pose proof (ended_run it' ops st1 Hc) as Hc2.
  pose proof Hc2 as (? & ?). split; [done|]. split; [done|].
  intros j ? ?. by apply (ended_frontier it').
Qed.

(** X5: an error that is falsy ([null], [0], the empty string) is not
    replayed: after the pull that raised it, the next call of the same
    cursor pulls the source again and answers what that second pull
    gives. *)
Theorem falsy_error_is_pulled_again (e : value) (it' : Src) (i : nat) st :
  (done st !!! i : bool) = false ->
  ~ iteratorIndexPositions st !!! i < buffer_length st ->
  streamExhausted st = false ->
  truthy (streamError st) = false ->
  src_next (sourceIterator st) = (Throw e, it') ->
  truthy e = false ->
  let st1 := (next src_next i st).2 in
  (next src_next i st).1 = Throw e /\
  streamError st1 = e /\
  (next src_next i st1).1
  = match (src_next it').1 with
    | Normal result =>
        if done_of result then finished else yield (value_of result)
    | Throw e' => Throw e'
    end /\
  sourceIterator (next src_next i st1).2 = (src_next it').2.
Proof.
  intros Hd Hfront Hex Herr Hsrc He.
  assert (next src_next i st = (Throw e, set_error _ e (set_source _ it' st)))
    as Hnext.
  { unfold next. rewrite Hd. fold (buffer_length st).
    destruct (Z.ltb_spec (iteratorIndexPositions st !!! i) (buffer_length st));
      [done|].
    unfold getNextStreamElement. by rewrite Hex, Herr, Hsrc. }
  rewrite Hnext. simpl. split; [done|]. split; [done|].
  set (st1 := set_error _ e (set_source _ it' st)).
  unfold next.
  change (done st1) with (done st). rewrite Hd.
  change (iteratorIndexPositions st1) with (iteratorIndexPositions st).
  change (streamBuffer st1) with (streamBuffer st).
  fold (buffer_length st).
  destruct (Z.ltb_spec (iteratorIndexPositions st !!! i) (buffer_length st));
    [done|].
  unfold getNextStreamElement.
  change (streamExhausted st1) with (streamExhausted st).
  change (streamError st1) with e.
  change (sourceIterator st1) with it'.
  rewrite Hex, He.
  destruct (src_next it') as [[result|e'] it'']; simpl; [|done].
  destruct (done_of result) eqn:Hr; simpl; [done|].
  split; [done|].
  match goal with
  | |- context [cleanupStreamBuffer ?s] =>
      by destruct (cleanup_frame s) as (-> & _)
  end.
Qed.

End AnySourceMore.

Lemma terminal_is_permanent_witness :
  let st := (run Scripted_next [Next 0; Return 0 VNull]%nat
               (tee_init (values [of_Z 1; of_Z 2]) 2)).2 in
  let ops := [Next 1; Next 0; Next 1; Next 1]%nat in
  (done st !!! 0%nat : bool) = true /\
  let st' := (run Scripted_next ops st).2 in
  (done st' !!! 0%nat : bool) = true /\
  next Scripted_next 0 st' = (finished, st').
Proof.
  intros st ops. split; [done|].
  exact (terminal_is_permanent Scripted_next ops 0 st eq_refl).
Defined.

Lemma eviction_keeps_unread_witness :
  let st :=
    {| count := 2; sourceIterator := values [];
       iteratorIndexPositions := [3; 1];
       streamBuffer := [of_Z 10; of_Z 20; of_Z 30];
       streamExhausted := false; streamError := VNull;
       done := [false; false] |} in
  length (iteratorIndexPositions st) = count st /\
  Forall (fun q => 0 <= q) (iteratorIndexPositions st) /\
  iteratorIndexPositions st !! 1%nat = Some 1 /\
  exists p',
    iteratorIndexPositions (cleanupStreamBuffer st) !! 1%nat = Some p' /\
    0 <= p' <= 1 /\
    drop (Z.to_nat p') (streamBuffer (cleanupStreamBuffer st))
    = drop (Z.to_nat 1) (streamBuffer st).
Proof.
  intros st.
  assert (Forall (fun q => 0 <= q) (iteratorIndexPositions st)) as Hall
    by (repeat constructor; lia).
  do 3 (split; [done|]).
  exact (eviction_keeps_unread 1 1 st eq_refl Hall eq_refl).
Defined.

Lemma eviction_idempotent_witness :
  let st :=
    {| count := 2; sourceIterator := values [];
       iteratorIndexPositions := [3; 1];
       streamBuffer := [of_Z 10; of_Z 20; of_Z 30];
       streamExhausted := false; streamError := VNull;
       done := [false; false] |} in
  length (iteratorIndexPositions st) = count st /\
  (iteratorIndexPositions st <> [] ->
   Math_min (iteratorIndexPositions (cleanupStreamBuffer st)) = Some 0) /\
  cleanupStreamBuffer (cleanupStreamBuffer st) = cleanupStreamBuffer st.
Proof.
  intros st. split; [done|].
  exact (eviction_idempotent st eq_refl).
Defined.

Lemma source_end_is_final_witness :
  let st := (run Scripted_next [Next 0]%nat
               (tee_init (values [of_Z 1]) 2)).2 in
  let result := {| value_of := VUndefined; done_of := true |} in
  let it' := {| script := []; pulls := 2 |} in
  (0 < length (done st))%nat /\
  (done st !!! 0%nat : bool) = false /\
  ~ iteratorIndexPositions st !!! 0%nat < buffer_length st /\
  streamExhausted st = false /\
  truthy (streamError st) = false /\
  Scripted_next (sourceIterator st) = (Normal result, it') /\
  done_of result = true /\
  let st1 := (next Scripted_next 0 st).2 in
  (next Scripted_next 0 st).1 = finished /\
  (done st1 !!! 0%nat : bool) = true /\
  forall ops : list op,
    let st2 := (run Scripted_next ops st1).2 in
    sourceIterator st2 = it' /\
    streamExhausted st2 = true /\
    forall j : nat,
      (done st2 !!! j : bool) = false ->
      ~ iteratorIndexPositions st2 !!! j < buffer_length st2 ->
      next Scripted_next j st2 = (finished, set_done j st2).
Proof.
  intros st result it'.
  assert (0 < length (done st))%nat as Hi by (vm_compute; lia).
  assert (~ iteratorIndexPositions st !!! 0%nat < buffer_length st) as Hfront
    by (vm_compute; congruence).
  do 7 (split; [done|]).
  exact (source_end_is_final Scripted_next result it' 0 st
           Hi eq_refl Hfront eq_refl eq_refl eq_refl eq_refl).
Defined.

Lemma falsy_error_is_pulled_again_witness :
  let st :=
    tee_init {| script := [Throw VNull; Normal (of_Z 7)]; pulls := 0 |} 1 in
  let it' := {| script := [Normal (of_Z 7)]; pulls := 1 |} in
  (done st !!! 0%nat : bool) = false /\
  ~ iteratorIndexPositions st !!! 0%nat < buffer_length st /\
  streamExhausted st = false /\
  truthy (streamError st) = false /\
  Scripted_next (sourceIterator st) = (Throw VNull, it') /\
  truthy VNull = false /\
  let st1 := (next Scripted_next 0 st).2 in
  (next Scripted_next 0 st).1 = Throw VNull /\
  streamError st1 = VNull /\
  (next Scripted_next 0 st1).1
  = match (Scripted_next it').1 with
    | Normal result =>
        if done_of result then finished else yield (value_of result)
    | Throw e' => Throw e'
    end /\
  sourceIterator (next Scripted_next 0 st1).2 = (Scripted_next it').2.
Proof.
  intros st it'.
  assert (~ iteratorIndexPositions st !!! 0%nat < buffer_length st) as Hfront
    by (vm_compute; congruence).
  do 6 (split; [done|]).
  exact (falsy_error_is_pulled_again Scripted_next VNull it' 0 st
           eq_refl Hfront eq_refl eq_refl eq_refl eq_refl).
Defined.

(** ** Laziness *)

Lemma Scripted_next_pulls (it : Scripted) :
  pulls (Scripted_next it).2 = Datatypes.S (pulls it).
Proof. unfold Scripted_next. by destruct (script it) as [|[v|e] rest]. Qed.

Lemma step_pulls (o : op) (st : tee_state Scripted) :
  (pulls (sourceIterator st)
   <= pulls (sourceIterator (step Scripted_next o st).2)
   <= pulls (sourceIterator st) + (if is_next o then 1 else 0))%nat.
Proof.
  destruct o as [j|j v|j e]; simpl.
  - unfold next. destruct (done st !!! j : bool); [simpl; lia|].
    destruct (_ <? _); simpl.
    + destruct (cleanup_frame (increment j st)) as (-> & _). simpl. lia.
    + unfold getNextStreamElement.
      destruct (streamExhausted st); [simpl; lia|].
      destruct (truthy (streamError st)); [simpl; lia|].
      pose proof (Scripted_next_pulls (sourceIterator st)) as Hp.
      destruct (Scripted_next (sourceIterator st)) as [[result|e] it];
        simpl in Hp; [|simpl; lia].
      destruct (done_of result); simpl; [lia|].
      match goal with
      | |- context [cleanupStreamBuffer ?s] =>
          destruct (cleanup_frame s) as (-> & _)
      end.
      simpl. lia.
  - unfold return_. destruct (done st !!! j : bool); simpl; lia.
  - unfold throw_. destruct (done st !!! j : bool); simpl; lia.
Qed.

(** X6: the source is pulled only on demand: a run of calls on the
    cursors pulls the source at most once for each [next()] call in it, and
    [return()] and [throw()] never pull. *)
Theorem source_pulled_on_demand (ops : list op) (st : tee_state Scripted) :
  (pulls (sourceIterator st)
   <= pulls (sourceIterator (run Scripted_next ops st).2)
   <= pulls (sourceIterator st) + next_calls ops)%nat.
Proof.
  revert st. induction ops as [|o ops IH]; intros st; [simpl; lia|].
  rewrite run_cons. cbn [snd].
  pose proof (step_pulls o st) as Hs.
  pose proof (IH (step Scripted_next o st).2) as Hr.
  unfold next_calls in *. cbn [List.filter].
  destruct (is_next o); simpl in *; lia.
Qed.

(** ** When [createTeeIterators] returns cursors *)

(** X7: [createTeeIterators] returns cursors exactly when it is given two
    arguments, an iterable whose iterator can be obtained and a finite
    number whose floor is an array length; the cursors are then as many as
    that floor, over the iterator obtained, with an empty buffer. *)
Theorem cursors_returned_iff
    {Src : Type}
    (symbol_iterator : value -> completion (option (completion Src)))
    (arguments : list value) (st : tee_state Src) :
  createTeeIterators symbol_iterator arguments = Normal st <->
  exists (sourceIterable : value) (q : Q) (it : Src),
    arguments = [sourceIterable; VNum (Fin q)] /\
    symbol_iterator sourceIterable = Normal (Some (Normal it)) /\
    0 <= Qfloor q < 2 ^ 32 /\
    st = tee_init it (Z.to_nat (Qfloor q)).
Proof.
  split.
  - unfold createTeeIterators.
    destruct arguments as [|a [|b [|c rest]]]; try done.
    cbn [length Nat.eqb negb lookup list_lookup default from_option id].
    destruct (symbol_iterator a) as [[[it|e]|]|e] eqn:Hs; try done.
    all: destruct b as [| |?|[q| |?]|?|?|?|?|? ?]; try done.
    rewrite Array_length_floor.
    destruct (Z.leb_spec 0 (Qfloor q)); [|done].
    destruct (Z.ltb_spec (Qfloor q) (2 ^ 32)); [|done].
    intros [= <-]. exists a, q, it. repeat split; done.
  - intros (sourceIterable & q & it & -> & Hs & Hq & ->).
    unfold createTeeIterators.
    cbn [length Nat.eqb negb lookup list_lookup default from_option id].
    rewrite Hs, Array_length_floor.
    destruct (Z.leb_spec 0 (Qfloor q)); [|lia].
    destruct (Z.ltb_spec (Qfloor q) (2 ^ 32)); [|lia]. done.
Qed.

Lemma cursors_returned_iff_witness :
  let S := [of_Z 1; of_Z 2] in
  (exists (sourceIterable : value) (q : Q) (it : Scripted),
     [VArr S; VNum (Fin (7 # 2))] = [sourceIterable; VNum (Fin q)] /\
     host_symbol_iterator sourceIterable = Normal (Some (Normal it)) /\
     0 <= Qfloor q < 2 ^ 32 /\
     tee_init (values S) 3 = tee_init it (Z.to_nat (Qfloor q))) /\
  createTeeIterators host_symbol_iterator [VArr S; VNum (Fin (7 # 2))]
  = Normal (tee_init (values S) 3).
Proof.
  intros S.
  assert (exists (sourceIterable : value) (q : Q) (it : Scripted),
            [VArr S; VNum (Fin (7 # 2))] = [sourceIterable; VNum (Fin q)] /\
            host_symbol_iterator sourceIterable = Normal (Some (Normal it)) /\
            0 <= Qfloor q < 2 ^ 32 /\
            tee_init (values S) 3 = tee_init it (Z.to_nat (Qfloor q))) as H.
  { exists (VArr S), (7 # 2), (values S). repeat split; done. }
  split; [exact H|].
  exact (proj2 (cursors_returned_iff host_symbol_iterator
                  [VArr S; VNum (Fin (7 # 2))] (tee_init (values S) 3)) H).
Defined.

(** ** The window over an array *)

Lemma run_init_state_of (S : list value) (sched : list nat) (n : nat) :
  Forall (fun j => (j < n)%nat) sched ->
  (run Scripted_next (Next <$> sched) (tee_init (values S) n)).2
  = state_of S (counts_after S sched (replicate n 0%nat)).
Proof.
  intros Hs. rewrite tee_init_state_of. apply run_state_of.
  - apply Forall_replicate. lia.
  - by rewrite length_replicate.
Qed.

Lemma fastest_cursor (S : list value) (sched : list nat) (n : nat) :
  (1 <= n)%nat ->
  exists fast,
    (fast < n)%nat /\
    max_list (counts_after S sched (replicate n 0%nat))
    = answered S fast sched /\
    forall i, (i < n)%nat ->
      (answered S i sched <= answered S fast sched)%nat.
Proof.
  intros Hn.
  set (cs := counts_after S sched (replicate n 0%nat)).
  assert (length cs = n) as Hlen
    by (unfold cs; by rewrite counts_after_length, length_replicate).
  assert (cs <> []) as Hne by (intros E; rewrite E in Hlen; simpl in Hlen; lia).
  apply max_list_elem_of, list_elem_of_lookup in Hne as [fast Hf].
  assert (fast < n)%nat as Hfn
    by (rewrite <- Hlen; by eapply lookup_lt_Some).
  pose proof Hf as Hf'. unfold cs in Hf'.
  rewrite counts_after_init in Hf' by done. injection Hf' as Hf'.
  exists fast. split; [done|]. split; [done|].
  intros i Hi. rewrite Hf'.
  apply max_list_lookup_le with i. by apply counts_after_init.
Qed.

(** X8: over an array, after any run of [next()] calls the source has
    been pulled exactly as often as the cursor that called most has been
    answered: the number of its calls, at most the length of the array plus
    one. *)
Theorem source_pulled_as_the_fastest
    (S : list value) (n : nat) (sched : list nat) :
  (1 <= n)%nat ->
  Forall (fun j => (j < n)%nat) sched ->
  let st := (run Scripted_next (Next <$> sched) (tee_init (values S) n)).2 in
  exists fast,
    (fast < n)%nat /\
    (forall i, (i < n)%nat ->
       (answered S i sched <= answered S fast sched)%nat) /\
    pulls (sourceIterator st) = answered S fast sched.
Proof.
  intros Hn Hs st. unfold st. rewrite run_init_state_of by done.
  destruct (fastest_cursor S sched n Hn) as (fast & Hfn & Hmax & Hle).
  exists fast. split; [done|]. split; [done|].
  simpl. unfold pulled. rewrite Hmax. unfold answered.
  case_bool_decide; lia.
Qed.

Lemma source_pulled_as_the_fastest_witness :
  let S := [of_Z 10; of_Z 20; of_Z 30] in
  let sched := [0; 1; 1; 0; 1; 1; 1]%nat in
  (1 <= 2)%nat /\
  Forall (fun j => (j < 2)%nat) sched /\
  let st := (run Scripted_next (Next <$> sched) (tee_init (values S) 2)).2 in
  exists fast,
    (fast < 2)%nat /\
    (forall i, (i < 2)%nat ->
       (answered S i sched <= answered S fast sched)%nat) /\
    pulls (sourceIterator st) = answered S fast sched.
Proof.
  intros S sched.
  split; [lia|]. split; [by repeat constructor|].
  apply (source_pulled_as_the_fastest S 2 sched); [lia|by repeat constructor].
Defined.

(** X9: over an array, after any run of [next()] calls the buffer holds
    exactly the elements that the cursor that received most has received
    and the cursor that received fewest has not: the elements between the
    two read counts, in the order of the array. *)
Theorem buffer_is_the_gap (S : list value) (n : nat) (sched : list nat) :
  (1 <= n)%nat ->
  Forall (fun j => (j < n)%nat) sched ->
  let st := (run Scripted_next (Next <$> sched) (tee_init (values S) n)).2 in
  exists slow fast,
    (slow < n)%nat /\ (fast < n)%nat /\
    (forall i, (i < n)%nat ->
       (received S slow sched <= received S i sched
        <= received S fast sched)%nat) /\
    streamBuffer st
    = drop (received S slow sched) (take (received S fast sched) S).
Proof.
  intros Hn Hs st. unfold st. rewrite run_init_state_of by done.
  destruct (fastest_cursor S sched n Hn) as (fast & Hfn & Hmax & Hle).
  set (cs := counts_after S sched (replicate n 0%nat)) in *.
  assert (length cs = n) as Hlen
    by (unfold cs; by rewrite counts_after_length, length_replicate).
  assert (cs <> []) as Hne by (intros E; rewrite E in Hlen; simpl in Hlen; lia).
  destruct (base_spec S cs Hne) as (Hmin & _ & Hlow).
  apply Math_min_Some in Hmin as [Hin _].
  apply list_elem_of_lookup in Hin as [slow Hslow].
  assert (slow < n)%nat as Hsn.
  { rewrite <- Hlen. apply lookup_lt_Some in Hslow.
    unfold raw in Hslow. by rewrite length_fmap in Hslow. }
  assert (forall i, (i < n)%nat ->
            Z.of_nat (answered S i sched `min` length S)
            = Z.of_nat (received S i sched)) as Hrec
    by (intros i _; unfold answered, received; lia).
  assert (base S cs = Z.of_nat (received S slow sched)) as Hbase.
  { rewrite (raw_lookup S cs slow (answered S slow sched)) in Hslow
      by (by apply counts_after_init).
    injection Hslow as <-. by apply Hrec. }
  exists slow, fast. split; [done|]. split; [done|]. split.
  - intros i Hi. split.
    + specialize (Hlow i _ (counts_after_init S sched n i Hi)).
      rewrite Hbase, Hrec in Hlow by done. lia.
    + specialize (Hle i Hi). unfold answered, received in *. lia.
  - simpl. rewrite Hbase, Nat2Z.id. unfold pulled. rewrite Hmax.
    f_equal. f_equal. unfold answered, received. lia.
Qed.

Lemma buffer_is_the_gap_witness :
  let S := [of_Z 10; of_Z 20; of_Z 30; of_Z 40] in
  let sched := [0; 1; 1; 0; 1; 2]%nat in
  (1 <= 3)%nat /\
  Forall (fun j => (j < 3)%nat) sched /\
  let st := (run Scripted_next (Next <$> sched) (tee_init (values S) 3)).2 in
  exists slow fast,
    (slow < 3)%nat /\ (fast < 3)%nat /\
    (forall i, (i < 3)%nat ->
       (received S slow sched <= received S i sched
        <= received S fast sched)%nat) /\
    streamBuffer st
    = drop (received S slow sched) (take (received S fast sched) S).
Proof.
  intros S sched.
  split; [lia|]. split; [by repeat constructor|].
  apply (buffer_is_the_gap S 3 sched); [lia|by repeat constructor].
Defined.

(** ** Stopping other cursors *)

(** [next()] reads and writes the [done] flag of its own cursor only. *)
Lemma next_with_done {Src : Type}
    (src_next : Src -> completion IteratorResult * Src)
    (i : nat) (ds : list bool) (st : tee_state Src) :
  (ds !!! i : bool) = false ->
  (done st !!! i : bool) = false ->
  next src_next i (with_done ds st)
  = ((next src_next i st).1,
     with_done (if returns_done (next src_next i st).1
                then <[i:=true]> ds else ds)
       (next src_next i st).2).
Proof.
  intros Hds Hdone. unfold next.
  cbn [with_done done iteratorIndexPositions streamBuffer].
  rewrite Hds, Hdone.
  destruct (_ <? _).
  - cbn [fst snd returns_done done_of].
    f_equal. unfold cleanupStreamBuffer, increment. simpl.
    by destruct (Math_min _).
  - unfold getNextStreamElement.
    cbn [with_done streamExhausted streamError sourceIterator].
    destruct (streamExhausted st); [done|].
    destruct (truthy (streamError st)); [done|].
    destruct (src_next (sourceIterator st)) as [[result|e] it]; [|done].
    destruct (done_of result) eqn:Hr; cbn [fst snd returns_done done_of];
      rewrite ?Hr; [done|].
    cbn [fst snd returns_done done_of].
    f_equal. unfold cleanupStreamBuffer, increment. simpl.
    by destruct (Math_min _).
Qed.

Lemma next_with_done_terminal {Src : Type}
    (src_next : Src -> completion IteratorResult * Src)
    (i : nat) (ds : list bool) (st : tee_state Src) :
  (ds !!! i : bool) = true ->
  next src_next i (with_done ds st) = (finished, with_done ds st).
Proof. intros Hds. unfold next. cbn [with_done done]. by rewrite Hds. Qed.

Lemma with_done_done {Src : Type} (st : tee_state Src) :
  with_done (done st) st = st.
Proof. by destruct st. Qed.

Lemma stop_with_done {Src : Type} (j : nat) (ds : list bool)
    (st : tee_state Src) :
  (if (ds !!! j : bool) then with_done ds st
   else set_done j (with_done ds st))
  = with_done (<[j:=true]> ds) st.
Proof.
  destruct (ds !!! j : bool) eqn:Hd; [|done].
  f_equal. symmetry. apply list_eq. intros k.
  destruct (decide (j = k)) as [<-|Hne]; [|by rewrite list_lookup_insert_ne].
  destruct (ds !! j) as [d|] eqn:Hj.
  - rewrite list_lookup_insert_eq by (by eapply lookup_lt_Some).
    apply list_lookup_total_correct in Hj. congruence.
  - rewrite list_insert_ge; [done|]. by apply lookup_ge_None.
Qed.

Lemma next_answers_cons (i : nat) (o : op) (ops : list op)
    (r : completion IteratorResult) (rs : list (completion IteratorResult)) :
  next_answers i (o :: ops) (r :: rs)
  = if is_next_of i o then r :: next_answers i ops rs
    else next_answers i ops rs.
Proof. unfold next_answers. simpl. by destruct (is_next_of i o). Qed.

Lemma next_calls_of_cons (i : nat) (o : op) (ops : list op) :
  next_calls_of i (o :: ops)
  = if is_next_of i o then Datatypes.S (next_calls_of i ops)
    else next_calls_of i ops.
Proof. unfold next_calls_of. simpl. by destruct (is_next_of i o). Qed.

Lemma next_answers_unstopped (S : list value) (ops : list op) :
  forall (cs : list nat) (ds : list bool) (i c : nat),
    Forall (fun c => (c <= Datatypes.S (length S))%nat) cs ->
    length ds = length cs ->
    (forall j cj, cs !! j = Some cj -> (length S < cj)%nat ->
                  ds !! j = Some true) ->
    Forall (fun o => (cursor_of o < length cs)%nat) ops ->
    Forall (fun o => stops i o = false) ops ->
    cs !! i = Some c ->
    ((c <= length S)%nat -> ds !! i = Some false) ->
    next_answers i ops
      (run Scripted_next ops (with_done ds (state_of S cs))).1
    = answer S <$> seq c (next_calls_of i ops).
Proof.
  induction ops as [|o ops IH]; intros cs ds i c Hcap Hlen Hmono Hops Hst Hi Hlive;
    [done|].
  apply Forall_cons in Hops as [Ho Hops].
  apply Forall_cons in Hst as [Hso Hst].
  rewrite run_cons. cbn [fst].
  rewrite next_answers_cons, next_calls_of_cons.
  destruct o as [j|j v|j e]; cbn [cursor_of] in Ho; cbn [step is_next_of].
  - destruct (lookup_lt_is_Some_2 cs j Ho) as [cj Hcj].
    destruct (lookup_lt_is_Some_2 ds j ltac:(lia)) as [dj Hdj].
    pose proof (list_lookup_total_correct _ _ _ Hdj) as Hdj'.
    destruct dj.
    + rewrite next_with_done_terminal by done. cbn [fst snd].
      destruct (Nat.eqb_spec j i) as [->|Hne].
      * assert (length S < c)%nat as Hc.
        { destruct (decide (c <= length S)%nat) as [Hle|]; [|lia].
          specialize (Hlive Hle). congruence. }
        rewrite (IH cs ds i c) by done.
        by rewrite !answer_past by lia.
      * by apply IH.
    + assert (cj <= length S)%nat as Hcj'.
      { destruct (decide (length S < cj)%nat) as [Hlt|]; [|lia].
        specialize (Hmono j cj Hcj Hlt). congruence. }
      assert (done (state_of S cs) !!! j = false) as Hdone.
      { apply list_lookup_total_correct. simpl.
        rewrite list_lookup_fmap, Hcj. simpl.
        by rewrite bool_decide_eq_false_2 by lia. }
      rewrite next_with_done by done.
      rewrite (next_state_of S cs j cj Hcj Hcap). cbn [fst snd].
      assert (advance S cj = Datatypes.S cj) as ->
        by (unfold advance; by rewrite bool_decide_eq_false_2 by lia).
      set (ds' := if returns_done (answer S cj) then <[j:=true]> ds else ds).
      assert (length ds' = length (<[j:=Datatypes.S cj]> cs)) as Hlen'.
      { unfold ds'. destruct (returns_done _);
          by rewrite ?length_insert, ?Hlen. }
      assert (Forall (fun c => (c <= Datatypes.S (length S))%nat)
                (<[j:=Datatypes.S cj]> cs)) as Hcap'.
      { apply Forall_insert; [done|lia]. }
      assert (forall k ck, <[j:=Datatypes.S cj]> cs !! k = Some ck ->
                (length S < ck)%nat -> ds' !! k = Some true) as Hmono'.
      { intros k ck Hk Hck. destruct (decide (j = k)) as [<-|Hne].
        - rewrite list_lookup_insert_eq in Hk by done.
          injection Hk as <-.
          unfold ds', answer. rewrite (lookup_ge_None_2 S cj) by lia. simpl.
          by rewrite list_lookup_insert_eq by lia.
        - rewrite list_lookup_insert_ne in Hk by done.
          specialize (Hmono k ck Hk Hck).
          unfold ds'. destruct (returns_done _);
            by rewrite ?list_lookup_insert_ne. }
      assert (Forall (fun o => (cursor_of o
                < length (<[j:=Datatypes.S cj]> cs))%nat) ops) as Hops'
        by (by rewrite length_insert).
      destruct (Nat.eqb_spec j i) as [->|Hne].
      * assert (cj = c) as -> by congruence.
        rewrite (IH _ ds' i (Datatypes.S c)); try done.
        -- by rewrite list_lookup_insert_eq.
        -- intros Hc. unfold ds', answer.
           destruct (lookup_lt_is_Some_2 S c ltac:(lia)) as [v ->]. simpl.
           apply Hlive. lia.
      * apply (IH _ ds' i c); try done.
        -- by rewrite list_lookup_insert_ne.
        -- intros Hc. unfold ds'. destruct (returns_done _);
             rewrite ?list_lookup_insert_ne by done; by apply Hlive.
  - unfold return_. cbn [fst snd with_done done].
    rewrite (stop_with_done j ds (state_of S cs)).
    cbn [stops] in Hso. apply Nat.eqb_neq in Hso.
    apply IH; try done.
    + by rewrite length_insert.
    + intros k ck Hk Hck. specialize (Hmono k ck Hk Hck).
      destruct (decide (j = k)) as [<-|Hne];
        [rewrite list_lookup_insert_eq; [done|]; by eapply lookup_lt_Some
        |by rewrite list_lookup_insert_ne].
    + intros Hc. rewrite list_lookup_insert_ne by done. by apply Hlive.
  - unfold throw_. cbn [fst snd with_done done].
    rewrite (stop_with_done j ds (state_of S cs)).
    cbn [stops] in Hso. apply Nat.eqb_neq in Hso.
    apply IH; try done.
    + by rewrite length_insert.
    + intros k ck Hk Hck. specialize (Hmono k ck Hk Hck).
      destruct (decide (j = k)) as [<-|Hne];
        [rewrite list_lookup_insert_eq; [done|]; by eapply lookup_lt_Some
        |by rewrite list_lookup_insert_ne].
    + intros Hc. rewrite list_lookup_insert_ne by done. by apply Hlive.
Qed.

(** X10: over an array, a cursor that is never stopped itself receives the
    elements of the array in order and then only the end, whatever the
    other cursors do: their [next()], [return()] and [throw()] calls, in
    any order and at any time, change nothing of what it receives. *)
Theorem stopping_others_changes_nothing
    (S : list value) (n : nat) (ops : list op) (i : nat) :
  (i < n)%nat ->
  Forall (fun o => (cursor_of o < n)%nat) ops ->
  Forall (fun o => stops i o = false) ops ->
  next_answers i ops (run Scripted_next ops (tee_init (values S) n)).1
  = (yield <$> take (next_calls_of i ops) S)
    ++ replicate (next_calls_of i ops - length S) finished.
Proof.
  intros Hi Hops Hst.
  rewrite tee_init_state_of.
  rewrite <- (with_done_done (state_of S (replicate n 0%nat))).
  rewrite (next_answers_unstopped S ops _ _ i 0%nat).
  - apply answer_direct.
  - apply Forall_replicate. lia.
  - simpl. by rewrite length_fmap.
  - intros j cj Hj Hcj. apply lookup_replicate in Hj as [-> _]. lia.
  - by rewrite length_replicate.
  - done.
  - by apply lookup_replicate_2.
  - intros _. cbn [done state_of].
    rewrite list_lookup_fmap, lookup_replicate_2 by done.
    cbn [fmap option_fmap option_map].
    by rewrite bool_decide_eq_false_2 by lia.
Qed.

Lemma stopping_others_changes_nothing_witness :
  let S := [of_Z 10; of_Z 20] in
  let ops := [Next 0; Next 1; Return 1 VUndefined; Next 0; Next 1;
              ThrowOp 2 VNull; Next 0; Next 2; Next 0]%nat in
  (0 < 3)%nat /\
  Forall (fun o => (cursor_of o < 3)%nat) ops /\
  Forall (fun o => stops 0 o = false) ops /\
  next_answers 0 ops (run Scripted_next ops (tee_init (values S) 3)).1
  = (yield <$> take (next_calls_of 0 ops) S)
    ++ replicate (next_calls_of 0 ops - length S) finished.
Proof.
  intros S ops.
  split; [lia|]. split; [by repeat constructor|].
  split; [by repeat constructor|].
  apply (stopping_others_changes_nothing S 3 ops 0);
    [lia|by repeat constructor|by repeat constructor].
Defined.

(** ** A source that fails after some elements *)

Lemma eviction_with_source {Src : Type} (it : Src) (e : value) (x : bool)
    (i : nat) (st : tee_state Src) :
  cleanupStreamBuffer (increment i (with_source it e x st))
  = with_source it e x (cleanupStreamBuffer (increment i st)).
Proof.
  unfold cleanupStreamBuffer, increment. simpl.
  by destruct (Math_min _).
Qed.

(** A read from the buffer neither reads nor changes the source, the
    captured error and the end flag. *)
Lemma next_buffered_frame {Src : Type}
    (src_next : Src -> completion IteratorResult * Src)
    (it : Src) (e : value) (x : bool) (i : nat) (st : tee_state Src) :
  (done st !!! i : bool) = false ->
  iteratorIndexPositions st !!! i < buffer_length st ->
  next src_next i (with_source it e x st)
  = ((next src_next i st).1, with_source it e x (next src_next i st).2).
Proof.
  intros Hd Hp. unfold next.
  cbn [with_source done iteratorIndexPositions streamBuffer].
  rewrite Hd. fold (buffer_length st).
  destruct (Z.ltb_spec (iteratorIndexPositions st !!! i) (buffer_length st));
    [|lia].
  cbn [fst snd]. f_equal. apply eviction_with_source.
Qed.

(** A pull that yields an element: the cursor states depend on the
    element only. *)
Lemma next_pull_frame {Src : Type}
    (src_next : Src -> completion IteratorResult * Src)
    (it it' ita : Src) (e : value) (result : IteratorResult) (i : nat)
    (st : tee_state Src) :
  (done st !!! i : bool) = false ->
  ~ iteratorIndexPositions st !!! i < buffer_length st ->
  streamExhausted st = false ->
  truthy (streamError st) = false ->
  truthy e = false ->
  src_next (sourceIterator st) = (Normal result, ita) ->
  done_of result = false ->
  src_next it = (Normal result, it') ->
  next src_next i (with_source it e false st)
  = ((next src_next i st).1, with_source it' e false (next src_next i st).2).
Proof.
  intros Hd Hp Hx Herr He Ha Hr Hb. unfold next.
  cbn [with_source done iteratorIndexPositions streamBuffer].
  rewrite Hd. fold (buffer_length st).
  destruct (Z.ltb_spec (iteratorIndexPositions st !!! i) (buffer_length st));
    [lia|].
  unfold getNextStreamElement.
  cbn [with_source streamExhausted streamError sourceIterator].
  rewrite Hx, Herr, He, Ha, Hb. cbv beta iota. rewrite !Hr.
  cbn [fst snd]. f_equal.
  unfold cleanupStreamBuffer, increment. simpl.
  by destruct (Math_min _).
Qed.

Lemma state_of_position (S : list value) (cs : list nat) (i c : nat) :
  cs !! i = Some c ->
  iteratorIndexPositions (state_of S cs) !!! i
  = Z.of_nat (c `min` length S) - base S cs.
Proof.
  intros Hi. apply list_lookup_total_correct. simpl.
  by rewrite list_lookup_fmap, (raw_lookup S cs i c Hi).
Qed.

Lemma state_of_buffer_length (S : list value) (cs : list nat) :
  cs <> [] ->
  buffer_length (state_of S cs) = Z.of_nat (pulled S cs) - base S cs.
Proof.
  intros Hne. destruct (base_spec S cs Hne) as (_ & Hb & _).
  unfold buffer_length. simpl.
  rewrite length_drop, length_take.
  assert (pulled S cs <= length S)%nat by (unfold pulled; lia). lia.
Qed.

Lemma state_of_done (S : list value) (cs : list nat) (i c : nat) :
  cs !! i = Some c -> (c <= length S)%nat ->
  (done (state_of S cs) !!! i : bool) = false.
Proof.
  intros Hi Hc. apply list_lookup_total_correct. simpl.
  rewrite list_lookup_fmap, Hi. simpl.
  by rewrite bool_decide_eq_false_2 by lia.
Qed.

Lemma pulled_below (S : list value) (cs : list nat) :
  Forall (fun c => (c <= length S)%nat) cs -> pulled S cs = max_list cs.
Proof.
  intros Hcap. unfold pulled.
  destruct cs as [|c0 cs]; [simpl; lia|].
  assert (max_list (c0 :: cs) ∈ c0 :: cs) as Hin
    by (by apply max_list_elem_of).
  rewrite Forall_forall in Hcap. specialize (Hcap _ Hin). lia.
Qed.

Lemma fail_answer_past (S : list value) (e : value) (a k : nat) :
  (length S <= a)%nat -> fail_answer S e <$> seq a k = replicate k (Throw e).
Proof.
  revert a. induction k as [|k IH]; intros a Ha; [done|].
  simpl. rewrite IH by lia. f_equal.
  unfold fail_answer. by rewrite lookup_ge_None_2 by lia.
Qed.

Lemma fail_answer_direct (S : list value) (e : value) (k : nat) :
  fail_answer S e <$> seq 0 k
  = (yield <$> take k S) ++ replicate (k - length S) (Throw e).
Proof.
  revert S. induction k as [|k IH]; intros S; [done|].
  destruct S as [|x S].
  - by rewrite fail_answer_past by (simpl; lia).
  - simpl. f_equal. rewrite <- IH, <- fmap_S_seq, <- list_fmap_compose. done.
Qed.

(** One call of [next()] in a state of the splitter over the failing
    source. *)
Lemma next_fail_state (S : list value) (e : value)
    (rest : list (completion value)) (failed : bool) (cs : list nat)
    (i c : nat) :
  truthy e = true ->
  cs !! i = Some c ->
  Forall (fun c => (c <= length S)%nat) cs ->
  (failed = true -> pulled S cs = length S) ->
  next Scripted_next i (fail_state S e rest failed cs)
  = (fail_answer S e c,
     if bool_decide (c < length S)%nat
     then fail_state S e rest failed (<[i:=Datatypes.S c]> cs)
     else fail_state S e rest true cs).
Proof.
  intros He Hi Hcap Hfailed.
  assert (cs <> []) as Hne by (intros E; by rewrite E in Hi).
  assert (c <= length S)%nat as Hc.
  { rewrite Forall_forall in Hcap.
    by apply Hcap, list_elem_of_lookup_2 with i. }
  assert (Forall (fun c => (c <= Datatypes.S (length S))%nat) cs) as Hcap'
    by (eapply Forall_impl; [exact Hcap|]; simpl; lia).
  pose proof (pulled_below S cs Hcap) as Hpulled.
  pose proof (max_list_lookup_le cs i c Hi) as Hmax.
  pose proof (state_of_position S cs i c Hi) as Hpos.
  pose proof (state_of_buffer_length S cs Hne) as Hlen.
  pose proof (state_of_done S cs i c Hi Hc) as Hdone.
  pose proof (next_state_of S cs i c Hi Hcap') as Hnext.
  case_bool_decide as Hlt.
  - (* an element is left for the cursor *)
    assert (advance S c = Datatypes.S c) as Hadv
      by (unfold advance; by rewrite bool_decide_eq_false_2 by lia).
    rewrite Hadv in Hnext.
    destruct (lookup_lt_is_Some_2 S c Hlt) as [v Hv].
    assert (fail_answer S e c = answer S c) as ->
      by (unfold fail_answer, answer, yield; by rewrite Hv).
    destruct (decide (c < pulled S cs)%nat) as [Hbuf|Hfront].
    + (* ... in the buffer *)
      unfold fail_state. rewrite next_buffered_frame, Hnext; [|done|lia].
      cbn [fst snd]. f_equal. f_equal.
      assert (pulled S (<[i:=Datatypes.S c]> cs) = pulled S cs) as ->; [|done].
      unfold pulled. rewrite (max_list_insert cs i c) by (done || lia). lia.
    + (* ... in the source *)
      assert (c = pulled S cs) as Hcp by lia.
      assert (failed = false) as ->.
      { destruct failed; [|done]. specialize (Hfailed eq_refl). lia. }
      assert (pulled S (<[i:=Datatypes.S c]> cs) = Datatypes.S c) as Hp'.
      { unfold pulled. rewrite (max_list_insert cs i c) by (done || lia). lia. }
      unfold fail_state. rewrite Hp', <- Hcp.
      rewrite (next_pull_frame Scripted_next _
                 {| script := (Normal <$> drop (Datatypes.S c) S)
                              ++ Throw e :: rest;
                    pulls := Datatypes.S c |}
                 {| script := Normal <$> drop (Datatypes.S c) S;
                    pulls := Datatypes.S c |}
                 VNull {| value_of := v; done_of := false |}).
      * by rewrite Hnext.
      * done.
      * rewrite Hpos, Hlen. lia.
      * simpl. by rewrite bool_decide_eq_false_2 by lia.
      * done.
      * done.
      * simpl. rewrite <- Hcp, (drop_S _ _ _ Hv).
        rewrite bool_decide_eq_false_2 by lia.
        unfold Scripted_next. simpl. do 3 f_equal. lia.
      * done.
      * by rewrite (drop_S _ _ _ Hv).
  - (* the cursor has received every element *)
    assert (c = length S) as -> by lia.
    assert (pulled S cs = length S) as Hp by (unfold pulled in *; lia).
    assert (fail_answer S e (length S) = Throw e) as ->
      by (unfold fail_answer; by rewrite lookup_ge_None_2).
    unfold fail_state, next.
    cbn [with_source done iteratorIndexPositions streamBuffer].
    rewrite Hdone. fold (buffer_length (state_of S cs)).
    destruct (Z.ltb_spec (iteratorIndexPositions (state_of S cs) !!! i)
                (buffer_length (state_of S cs))) as [Hlt'|_];
      [rewrite Hpos, Hlen in Hlt'; lia|].
    unfold getNextStreamElement.
    cbn [with_source streamExhausted streamError sourceIterator].
    destruct failed.
    + by rewrite He.
    + cbn [truthy]. rewrite Hp, drop_all. done.
Qed.

Lemma answers_fail_state (S : list value) (e : value)
    (rest : list (completion value)) (sched : list nat) :
  truthy e = true ->
  forall (failed : bool) (cs : list nat) (i c : nat),
    Forall (fun c => (c <= length S)%nat) cs ->
    (failed = true -> pulled S cs = length S) ->
    Forall (fun j => (j < length cs)%nat) sched ->
    cs !! i = Some c ->
    let r := run Scripted_next (Next <$> sched) (fail_state S e rest failed cs) in
    answers i sched r.1 = fail_answer S e <$> seq c (calls_of i sched) /\
    (pulls (sourceIterator r.2) <= Datatypes.S (length S))%nat.
Proof.
  intros He. induction sched as [|j sched IH];
    intros failed cs i c Hcap Hfailed Hs Hi.
  - split; [done|]. simpl.
    destruct failed; simpl; [lia|]. unfold pulled. lia.
  - apply Forall_cons in Hs as [Hj Hs].
    destruct (lookup_lt_is_Some_2 cs j Hj) as [cj Hcj].
    rewrite fmap_cons, run_cons. cbn [step].
    rewrite (next_fail_state S e rest failed cs j cj He Hcj Hcap Hfailed).
    cbn [fst snd].
    rewrite answers_cons, calls_of_cons.
    assert (cj <= length S)%nat as Hcj'.
    { rewrite Forall_forall in Hcap.
      by apply Hcap, list_elem_of_lookup_2 with j. }
    case_bool_decide as Hlt.
    + assert (Forall (fun c => (c <= length S)%nat)
                (<[j:=Datatypes.S cj]> cs)) as Hcap2
        by (apply Forall_insert; [done|lia]).
      assert (failed = true ->
              pulled S (<[j:=Datatypes.S cj]> cs) = length S) as Hfailed2.
      { intros Hf. specialize (Hfailed Hf). unfold pulled in *.
        rewrite (max_list_insert cs j cj) by (done || lia). lia. }
      assert (Forall (fun k => (k < length (<[j:=Datatypes.S cj]> cs))%nat)
                sched) as Hs2 by (by rewrite length_insert).
      destruct (Nat.eqb_spec j i) as [->|Hne].
      * assert (cj = c) as -> by congruence.
        destruct (IH failed _ i (Datatypes.S c) Hcap2 Hfailed2 Hs2)
          as [Ha Hp]; [by rewrite list_lookup_insert_eq by (by eapply lookup_lt_Some)|].
        split; [|done]. simpl. by rewrite Ha.
      * apply (IH failed _ i c Hcap2 Hfailed2 Hs2).
        by rewrite list_lookup_insert_ne.
    + assert (cj = length S) as -> by lia.
      assert (true = true -> pulled S cs = length S) as Hfailed2.
      { intros _. rewrite (pulled_below S cs Hcap).
        pose proof (max_list_lookup_le cs j _ Hcj).
        pose proof (pulled_below S cs Hcap). unfold pulled in *. lia. }
      destruct (Nat.eqb_spec j i) as [->|Hne].
      * assert (c = length S) as -> by congruence.
        destruct (IH true cs i (length S) Hcap Hfailed2 Hs Hi) as [Ha Hp].
        split; [|done]. simpl. rewrite Ha.
        by rewrite !fail_answer_past by lia.
      * by apply (IH true cs i c Hcap Hfailed2 Hs).
Qed.

Lemma tee_init_fail_state (S : list value) (e : value)
    (rest : list (completion value)) (n : nat) :
  tee_init (failing_after S e rest) n
  = fail_state S e rest false (replicate n 0%nat).
Proof.
  unfold fail_state. rewrite <- tee_init_state_of.
  assert (pulled S (replicate n 0%nat) = 0%nat) as ->.
  { unfold pulled.
    assert (max_list (replicate n 0%nat) = 0%nat) as ->
      by (induction n; simpl; lia).
    lia. }
  done.
Qed.

(** X11: when the source yields the elements [S] and then raises a truthy
    error [e], no element is lost to any cursor: whatever the order of the
    [next()] calls, every cursor receives the elements of [S] in order,
    also those it had not yet read when the source failed, and only then
    the error [e], again on every further call; the source is never pulled
    after the failing pull. *)
Theorem elements_before_a_failure_are_delivered
    (S : list value) (e : value) (rest : list (completion value))
    (n : nat) (sched : list nat) (i : nat) :
  truthy e = true ->
  (i < n)%nat ->
  Forall (fun j => (j < n)%nat) sched ->
  let r := run Scripted_next (Next <$> sched)
             (tee_init (failing_after S e rest) n) in
  answers i sched r.1
  = (yield <$> take (calls_of i sched) S)
    ++ replicate (calls_of i sched - length S) (Throw e) /\
  (pulls (sourceIterator r.2) <= length S + 1)%nat.
Proof.
  intros He Hi Hs r. unfold r. rewrite tee_init_fail_state.
  destruct (answers_fail_state S e rest sched He false
              (replicate n 0%nat) i 0%nat) as [Ha Hp].
  - apply Forall_replicate. lia.
  - done.
  - by rewrite length_replicate.
  - by apply lookup_replicate_2.
  - split; [|lia]. rewrite Ha. apply fail_answer_direct.
Qed.

Lemma elements_before_a_failure_are_delivered_witness :
  let S := [of_Z 10; of_Z 20] in
  let e := VErr ErrorC "boom" in
  let rest := [Normal (of_Z 30)] in
  let sched := [0; 0; 0; 1; 0; 1; 1; 1]%nat in
  truthy e = true /\
  (1 < 2)%nat /\
  Forall (fun j => (j < 2)%nat) sched /\
  let r := run Scripted_next (Next <$> sched)
             (tee_init (failing_after S e rest) 2) in
  answers 1 sched r.1
  = (yield <$> take (calls_of 1 sched) S)
    ++ replicate (calls_of 1 sched - length S) (Throw e) /\
  (pulls (sourceIterator r.2) <= length S + 1)%nat.
Proof.
  intros S e rest sched.
  split; [done|]. split; [lia|]. split; [by repeat constructor|].
  apply (elements_before_a_failure_are_delivered S e rest 2 sched 1);
    [done|lia|by repeat constructor].
Defined.

(** ** The runner: one pass over the array *)

Section RunnerPass.

Variable call : nat -> list value -> completion value.

Lemma state_of_pulls_le (S : list value) (cs : list nat) :
  (pulls (sourceIterator (state_of S cs)) <= length S + 1)%nat.
Proof. simpl. unfold pulled. case_bool_decide; lia. Qed.

Lemma state_of_pulls_all (S : list value) (n : nat) :
  (1 <= n)%nat ->
  pulls (sourceIterator
           (state_of S (replicate n (Datatypes.S (length S)))))
  = (length S + 1)%nat.
Proof.
  intros Hn. simpl. unfold pulled.
  assert (max_list (replicate n (Datatypes.S (length S)))
          = Datatypes.S (length S)) as ->.
  { destruct n as [|n]; [lia|]. clear Hn.
    induction n as [|n IH]; [simpl; lia|].
    change (max_list (replicate (Datatypes.S (Datatypes.S n))
                        (Datatypes.S (length S))))
      with (Datatypes.S (length S)
            `max` max_list (replicate (Datatypes.S n)
                              (Datatypes.S (length S))))%nat.
    rewrite IH. lia. }
  rewrite bool_decide_eq_true_2 by lia. lia.
Qed.

(** The loop over the elements, with the pulls of the source. *)
Lemma for_of_pulls (fuel : nat) (fn : value) (S : list value)
    (cs : list nat) (i c : nat) (L : locals) (log : list call_record) :
  cs !! i = Some c -> (c <= length S)%nat ->
  Forall (fun c => (c <= Datatypes.S (length S))%nat) cs ->
  (length S - c < fuel)%nat ->
  exists st',
    for_of call fuel i fn (state_of S cs) L log
    = Some ((consume_all call fn (drop c S) L log).1, st',
            (consume_all call fn (drop c S) L log).2) /\
    (pulls (sourceIterator st') <= length S + 1)%nat /\
    forall L', (consume_all call fn (drop c S) L log).1 = Normal L' ->
               st' = state_of S (<[i:=Datatypes.S (length S)]> cs).
Proof.
  revert cs c L log.
  induction fuel as [|fuel IH]; intros cs c L log Hi Hc Hcap Hfuel; [lia|].
  cbn [for_of]. rewrite (next_state_of S cs i c Hi Hcap).
  unfold advance. rewrite bool_decide_eq_false_2 by lia.
  unfold answer. destruct (S !! c) as [v|] eqn:Hv.
  - cbn [done_of value_of]. rewrite (drop_S _ _ _ Hv). cbn [consume_all].
    destruct (consume call fn v L log) as [[L'|e] log'].
    + assert (c < length S)%nat by (by eapply lookup_lt_Some).
      destruct (IH (<[i:=Datatypes.S c]> cs) (Datatypes.S c) L' log')
        as (st' & Hfor & Hp & Hst).
      * apply list_lookup_insert_eq. by eapply lookup_lt_Some.
      * lia.
      * apply Forall_insert; [done|lia].
      * lia.
      * exists st'. split; [done|]. split; [done|]. intros L'' HL.
        rewrite (Hst L'' HL). by rewrite list_insert_insert_eq.
    + eexists. split; [reflexivity|]. split; [|done].
      unfold return_.
      destruct (done (state_of S (<[i:=Datatypes.S c]> cs)) !!! i : bool);
        apply state_of_pulls_le.
  - assert (c = length S) as -> by (apply lookup_ge_None_1 in Hv; lia).
    cbn [done_of]. rewrite drop_all. cbn [consume_all fst snd].
    eexists. split; [reflexivity|]. split; [apply state_of_pulls_le|done].
Qed.

(** The loop over the consumers, with the pulls of the source. *)
Lemma process_pulls (fuel : nat) (S : list value) :
  (length S < fuel)%nat ->
  forall (rest : list value) (k : nat) (out : list value)
         (log : list call_record),
  exists st',
    process call fuel rest k
      (state_of S (replicate k (Datatypes.S (length S))
                   ++ replicate (length rest) 0%nat)) out log
    = Some ((process_all call S rest k out log).1, st',
            (process_all call S rest k out log).2) /\
    (pulls (sourceIterator st') <= length S + 1)%nat /\
    forall out', (process_all call S rest k out log).1 = Normal out' ->
      st' = state_of S (replicate (k + length rest) (Datatypes.S (length S))).
Proof.
  intros Hfuel rest.
  induction rest as [|fn rest IH]; intros k out log.
  { eexists. split; [reflexivity|]. split; [apply state_of_pulls_le|].
    intros _ _. cbn [length replicate]. by rewrite app_nil_r, Nat.add_0_r. }
  cbn [process process_all length].
  destruct (for_of_pulls fuel fn S
              (replicate k (Datatypes.S (length S))
               ++ replicate (Datatypes.S (length rest)) 0%nat)
              k 0 (initial_locals fn) log) as (st' & Hfor & Hp & Hst).
  - rewrite lookup_app_r by (by rewrite length_replicate).
    by rewrite length_replicate, Nat.sub_diag.
  - lia.
  - apply Forall_app. split; apply Forall_replicate; lia.
  - lia.
  - rewrite Hfor. rewrite drop_0 in *.
    destruct (consume_all call fn S (initial_locals fn) log) as [[L'|e] log'].
    + cbn [fst snd] in *. rewrite (Hst L' eq_refl).
      rewrite insert_replicate_boundary.
      destruct (IH (Datatypes.S k) (store fn k L' out) log')
        as (st'' & Hproc & Hp' & Hst').
      exists st''. split; [done|]. split; [done|].
      intros out' Hout. rewrite (Hst' out' Hout). f_equal. f_equal. lia.
    + eexists. split; [reflexivity|]. split; done.
Qed.

(** The runner on an array and well-formed consumers: what it returns, the
    calls it makes and the pulls of the array's iterator. *)
Lemma teeConsumers_execution (fuel : nat) (S : list value)
    (consumers : list value) :
  consumers <> [] -> Forall well_formed consumers ->
  Z.of_nat (length consumers) < 2 ^ 32 ->
  (length S < fuel)%nat ->
  let r := process_all call S consumers 0
             (replicate (length consumers) (of_Z 0)) [] in
  exists n,
    teeConsumers call fuel (VArr S) consumers
    = Some {| outcome := array_of r.1; calls := r.2; source_pulls := n |} /\
    (n <= length S + 1)%nat /\
    forall out, r.1 = Normal out -> n = (length S + 1)%nat.
Proof.
  intros Hne Hwf Hlen Hfuel r. unfold r. clear r.
  unfold teeConsumers. cbn [Array_isArray negb].
  destruct consumers as [|c cs]; [done|]. cbn [length Nat.eqb].
  apply validate_None in Hwf. rewrite Hwf.
  rewrite createTeeIterators_array by done.
  destruct (process_pulls fuel S Hfuel (c :: cs) 0
              (replicate (length (c :: cs)) (of_Z 0)) [])
    as (st' & Hproc & Hp & Hst).
  cbn [replicate app] in Hproc. cbn [length] in Hproc, Hst. rewrite Hproc.
  destruct (process_all call S (c :: cs) 0 _ []) as [[out|e] log].
  - eexists. split; [reflexivity|]. split; [done|].
    intros out' _. cbn [fst] in Hst. rewrite (Hst out eq_refl).
    apply state_of_pulls_all. lia.
  - eexists. split; [reflexivity|]. split; done.
Qed.

Lemma store_empty (fn : value) (k : nat) (out : list value) :
  out !! k = Some (of_Z 0) ->
  store fn k (initial_locals fn) out = <[k:=empty_result fn]> out.
Proof.
  intros Hk. unfold store, empty_result, initial_locals.
  cbn [reduceResult mapResult filterResult].
  destruct (get fn "kind") as [| |?|?|s|?|?|?|? ?]; cbn [is_string];
    try (symmetry; by apply list_insert_id).
  destruct (String.eqb_spec s "forEach") as [->|_]; [done|].
  destruct (String.eqb_spec s "reduce") as [->|_]; [done|].
  destruct (String.eqb_spec s "map") as [->|_]; [done|].
  destruct (String.eqb_spec s "filter") as [->|_]; [done|].
  symmetry. by apply list_insert_id.
Qed.

Lemma process_all_empty (consumers : list value) :
  forall (pre : list value) (log : list call_record),
    process_all call [] consumers (length pre)
      (pre ++ replicate (length consumers) (of_Z 0)) log
    = (Normal (pre ++ (empty_result <$> consumers)), log).
Proof.
  induction consumers as [|fn rest IH]; intros pre log; [done|].
  cbn [process_all consume_all length replicate fmap list_fmap].
  rewrite store_empty
    by (by rewrite lookup_app_r, Nat.sub_diag by done).
  rewrite insert_app_r_alt, Nat.sub_diag by done. cbn [insert list_insert].
  specialize (IH (pre ++ [empty_result fn]) log).
  rewrite length_app in IH. cbn [length] in IH.
  rewrite Nat.add_1_r, <- !app_assoc in IH. exact IH.
Qed.

(** X13: over an array without elements the runner calls no consumer
    function and pulls the array's iterator once; it returns, for each
    consumer in order, an empty array for map and for filter, the initial
    value for reduce (the no-value marker without one) and the no-value
    marker for forEach.  A [kind] outside the four is not reported: the
    slot of such a consumer holds the number 0. *)
Theorem empty_array_results (fuel : nat) (consumers : list value) :
  consumers <> [] -> Forall well_formed consumers ->
  Z.of_nat (length consumers) < 2 ^ 32 ->
  (1 <= fuel)%nat ->
  teeConsumers call fuel (VArr []) consumers
  = Some {| outcome := Normal (VArr (empty_result <$> consumers));
            calls := []; source_pulls := 1 |}.
Proof.
  intros Hne Hwf Hlen Hfuel.
  destruct (teeConsumers_execution fuel [] consumers Hne Hwf Hlen)
    as (n & -> & _ & Heq); [simpl; lia|].
  pose proof (process_all_empty consumers [] []) as Hp.
  cbn [length app] in Hp. rewrite Hp in *. cbn [fst snd array_of].
  by rewrite (Heq _ eq_refl).
Qed.

End RunnerPass.

Lemma empty_array_results_witness :
  let consumers := [descriptor "map" 0; reducer 2 (of_Z 7);
                    descriptor "forEach" 3; descriptor "sum" 2] in
  consumers <> [] /\ Forall well_formed consumers /\
  Z.of_nat (length consumers) < 2 ^ 32 /\
  (1 <= 1)%nat /\
  teeConsumers sample_call 1 (VArr []) consumers
  = Some {| outcome := Normal (VArr [VArr []; of_Z 7; VUndefined; of_Z 0]);
            calls := []; source_pulls := 1 |}.
Proof.
  intros consumers.
  assert (Forall well_formed consumers) as Hwf
    by (repeat constructor; done).
  split; [done|]. split; [exact Hwf|]. split; [done|]. split; [lia|].
  exact (empty_array_results sample_call 1 consumers
           ltac:(done) Hwf ltac:(done) ltac:(lia)).
Defined.

(** ** The runner: consumer by consumer *)

Section RunnerOrder.

Variable call : nat -> list value -> completion value.

Lemma consume_log_prefix (fn elem : value) (L : locals)
    (log : list call_record) :
  consume call fn elem L log
  = ((consume call fn elem L []).1, log ++ (consume call fn elem L []).2).
Proof.
  unfold consume.
  repeat match goal with
         | |- context [if is_string ?s ?v then _ else _] =>
             destruct (is_string s v)
         end;
    try destruct (_ && _);
    try destruct (js_call _ _ _);
    cbn [fst snd app]; by rewrite ?app_nil_r.
Qed.

Lemma consume_all_log_prefix (fn : value) (elems : list value) :
  forall (L : locals) (log : list call_record),
    consume_all call fn elems L log
    = ((consume_all call fn elems L []).1,
       log ++ (consume_all call fn elems L []).2).
Proof.
  induction elems as [|elem rest IH]; intros L log;
    cbn [consume_all]; [by rewrite app_nil_r|].
  rewrite (consume_log_prefix fn elem L log).
  destruct (consume call fn elem L []) as [[L'|e] made]; cbn [fst snd app].
  - rewrite (IH L' (log ++ made)), (IH L' made).
    cbn [fst snd]. by rewrite app_assoc.
  - done.
Qed.

Lemma store_slot (fn : value) (k : nat) (L : locals) (out : list value) :
  out !! k = Some (of_Z 0) ->
  exists r, store fn 0 L [of_Z 0] = [r] /\ store fn k L out = <[k:=r]> out.
Proof.
  intros Hk. unfold store.
  repeat match goal with
         | |- context [if is_string ?s ?v then _ else _] =>
             destruct (is_string s v)
         end;
    try (eexists; split; reflexivity).
  exists (of_Z 0). split; [done|]. symmetry. by apply list_insert_id.
Qed.

(** The loop over the consumers is the loops of the consumers run alone,
    one after the other. *)
Lemma process_all_by_consumer (fuel : nat) (S : list value)
    (consumers : list value) :
  (length S < fuel)%nat ->
  Forall well_formed consumers ->
  forall (pre : list value) (log : list call_record)
         (out' : list value) (log' : list call_record),
    process_all call S consumers (length pre)
      (pre ++ replicate (length consumers) (of_Z 0)) log
    = (Normal out', log') ->
    exists (alone : list execution) (rs : list value),
      out' = pre ++ rs /\
      log' = log ++ concat (calls <$> alone) /\
      Forall2 (fun fn ex => teeConsumers call fuel (VArr S) [fn] = Some ex)
        consumers alone /\
      Forall2 (fun ex r => outcome ex = Normal (VArr [r])) alone rs.
Proof.
  intros Hfuel Hwf.
  induction Hwf as [|fn rest Hfn Hrest IH]; intros pre log out' log' Hp.
  { cbn [process_all length replicate] in Hp. injection Hp as <- <-.
    exists [], []. by rewrite !app_nil_r. }
  cbn [process_all length] in Hp.
  rewrite (consume_all_log_prefix fn S (initial_locals fn) log) in Hp.
  destruct (teeConsumers_execution call fuel S [fn])
    as (n & Halone & _); [done|by constructor|done|done|].
  cbn [process_all length replicate] in Halone.
  destruct (consume_all call fn S (initial_locals fn) []) as [[L'|e] made];
    cbn [fst snd] in *; [|done].
  destruct (store_slot fn (length pre) L'
              (pre ++ replicate (Datatypes.S (length rest)) (of_Z 0)))
    as (r & Hone & Hstore).
  { by rewrite lookup_app_r, Nat.sub_diag by done. }
  rewrite Hstore in Hp.
  rewrite insert_app_r_alt, Nat.sub_diag in Hp by done.
  cbn [replicate insert list_insert] in Hp.
  specialize (IH (pre ++ [r]) (log ++ made) out' log').
  rewrite length_app in IH. cbn [length] in IH.
  rewrite Nat.add_1_r, <- !app_assoc in IH.
  destruct (IH Hp) as (alone & rs & -> & -> & Hruns & Hres).
  rewrite Hone in Halone. cbn [array_of] in Halone.
  exists ({| outcome := Normal (VArr [r]); calls := made;
             source_pulls := n |} :: alone), (r :: rs).
  split; [by rewrite <- app_assoc|]. split; [|split].
  - cbn [fmap list_fmap concat calls]. by rewrite <- !app_assoc.
  - constructor; [exact Halone|done].
  - constructor; [done|done].
Qed.

(** With consumer functions that are functions of their arguments, a
    run that returns is the runs of its consumers alone, one after the
    other. *)
Lemma runs_alone
    (fuel : nat) (S : list value) (consumers : list value)
    (ex : execution) (rs : list value) :
  Forall well_formed consumers ->
  Z.of_nat (length consumers) < 2 ^ 32 ->
  (length S < fuel)%nat ->
  teeConsumers call fuel (VArr S) consumers = Some ex ->
  outcome ex = Normal (VArr rs) ->
  exists alone : list execution,
    Forall2 (fun fn ex' => teeConsumers call fuel (VArr S) [fn] = Some ex')
      consumers alone /\
    Forall2 (fun ex' r => outcome ex' = Normal (VArr [r])) alone rs /\
    calls ex = concat (calls <$> alone) /\
    length rs = length consumers.
Proof.
  intros Hwf Hlen Hfuel Hrun Hout.
  assert (consumers <> []) as Hne.
  { intros ->. by injection Hrun as <-. }
  destruct (teeConsumers_execution call fuel S consumers Hne Hwf Hlen Hfuel)
    as (n & Hex & _).
  rewrite Hex in Hrun. injection Hrun as <-. cbn [outcome calls] in *.
  destruct (process_all call S consumers 0 _ []) as [[out|e] log] eqn:Hp;
    cbn [fst snd array_of] in *; [|done].
  injection Hout as ->.
  destruct (process_all_by_consumer fuel S consumers Hfuel Hwf [] [] rs log Hp)
    as (alone & rs' & -> & -> & Hruns & Hres).
  exists alone. split; [done|]. split; [done|]. split; [done|].
  cbn [app]. apply Forall2_length in Hruns, Hres. congruence.
Qed.

End RunnerOrder.

(** ** The runner: errors of consumer functions *)

Section RunnerErrors.

Variable call : nat -> list value -> completion value.

Lemma consume_log_fits (fn elem : value) (L : locals)
    (log : list call_record) :
  recognized fn -> Forall (returned call) log ->
  log_fits call (consume call fn elem L log).1
    (consume call fn elem L log).2.
Proof.
  intros [_ Hkind] Hlog. unfold consume.
  destruct Hkind as [ -> | [ -> | [ -> | -> ] ] ];
    cbn [is_string String.eqb Ascii.eqb Bool.eqb];
    try destruct (_ && _); cbn [fst snd log_fits]; try done.
  all: destruct (js_call call (get fn "fn") _) as [v|e] eqn:Hcall;
    cbn [fst snd log_fits].
  all: try (apply Forall_app; split; [done|];
            constructor; [by exists v|constructor]).
  all: by eexists log, _, _.
Qed.

Lemma consume_all_log_fits (fn : value) (elems : list value) :
  recognized fn ->
  forall (L : locals) (log : list call_record),
    Forall (returned call) log ->
    log_fits call (consume_all call fn elems L log).1
      (consume_all call fn elems L log).2.
Proof.
  intros Hfn. induction elems as [|elem rest IH]; intros L log Hlog;
    cbn [consume_all]; [done|].
  pose proof (consume_log_fits fn elem L log Hfn Hlog) as Hc.
  destruct (consume call fn elem L log) as [[L'|e] log']; cbn [fst snd] in *.
  - by apply IH.
  - done.
Qed.

Lemma process_all_log_fits (S : list value) (consumers : list value) :
  Forall recognized consumers ->
  forall (k : nat) (out : list value) (log : list call_record),
    Forall (returned call) log ->
    log_fits call (process_all call S consumers k out log).1
      (process_all call S consumers k out log).2.
Proof.
  induction 1 as [|fn rest Hfn _ IH]; intros k out log Hlog;
    cbn [process_all]; [done|].
  pose proof (consume_all_log_fits fn S Hfn (initial_locals fn) log Hlog)
    as Hc.
  destruct (consume_all call fn S (initial_locals fn) log) as [[L'|e] log'];
    cbn [fst snd] in *.
  - by apply IH.
  - done.
Qed.

(** X15: with consumers of the four kinds the runner fails exactly when a
    call of a consumer function fails, with what that call threw, and it
    makes no call after it: when the run throws [e], the last call it made
    threw [e] and every call before it returned; when the run returns,
    every call it made returned. *)
Theorem first_failing_call_ends_the_run
    (fuel : nat) (S : list value) (consumers : list value) (ex : execution) :
  Forall recognized consumers ->
  Z.of_nat (length consumers) < 2 ^ 32 ->
  (length S < fuel)%nat ->
  teeConsumers call fuel (VArr S) consumers = Some ex ->
  consumers <> [] ->
  match outcome ex with
  | Normal _ => Forall (returned call) (calls ex)
  | Throw e =>
      exists pre f args,
        calls ex = pre ++ [(f, args)] /\ Forall (returned call) pre /\
        js_call call f args = Throw e
  end.
Proof.
  intros Hrec Hlen Hfuel Hrun Hne.
  assert (Forall well_formed consumers) as Hwf
    by (eapply Forall_impl; [exact Hrec|]; by intros ? [? _]).
  destruct (teeConsumers_execution call fuel S consumers Hne Hwf Hlen Hfuel)
    as (n & Hex & _).
  rewrite Hex in Hrun. injection Hrun as <-. cbn [outcome calls].
  pose proof (process_all_log_fits S consumers Hrec 0
                (replicate (length consumers) (of_Z 0)) []
                ltac:(constructor)) as Hfits.
  by destruct (process_all call S consumers 0 _ []).1.
Qed.

End RunnerErrors.

Lemma first_failing_call_ends_the_run_witness :
  let S := [of_Z 10; of_Z 20; of_Z 30] in
  let consumers := [descriptor "forEach" 1; descriptor "map" 0] in
  let ex :=
    {| outcome := Throw (VErr ErrorC "stop");
       calls := [(VFun 1, [of_Z 10; of_Z 0]); (VFun 1, [of_Z 20; of_Z 1]);
                 (VFun 1, [of_Z 30; of_Z 2]); (VFun 0, [of_Z 10; of_Z 0]);
                 (VFun 0, [of_Z 20; of_Z 1])];
       source_pulls := 4 |} in
  Forall recognized consumers /\
  Z.of_nat (length consumers) < 2 ^ 32 /\
  (length S < 4)%nat /\
  teeConsumers stopping_call 4 (VArr S) consumers = Some ex /\
  consumers <> [] /\
  exists pre f args,
    calls ex = pre ++ [(f, args)] /\ Forall (returned stopping_call) pre /\
    js_call stopping_call f args = Throw (VErr ErrorC "stop").
Proof.
  intros S consumers ex.
  assert (Forall recognized consumers) as Hrec.
  { repeat constructor; apply recognized_descriptor; auto. }
  assert (teeConsumers stopping_call 4 (VArr S) consumers = Some ex) as Hrun
    by (by vm_compute).
  split; [exact Hrec|]. split; [done|]. split; [simpl; lia|].
  split; [exact Hrun|]. split; [done|].
  exact (first_failing_call_ends_the_run stopping_call 4 S consumers ex
           Hrec ltac:(done) ltac:(simpl; lia) Hrun ltac:(done)).
Defined.

(** ** The runner: what the first consumer leaves in the buffer *)

Section RunnerBuffer.

Variable call : nat -> list value -> completion value.


End RunnerBuffer.


(** ** Consumer functions that act on the world *)

(** [next()] asks nothing of the source but a pull. *)
Lemma next_map_source {A B : Type}
    (nextA : A -> completion IteratorResult * A)
    (nextB : B -> completion IteratorResult * B)
    (f : A -> B) (i : nat) (st : tee_state A) :
  nextB (f (sourceIterator st))
  = ((nextA (sourceIterator st)).1, f (nextA (sourceIterator st)).2) ->
  next nextB i (map_source f st)
  = ((next nextA i st).1, map_source f (next nextA i st).2).
Proof.
  intros Hf. unfold next.
  cbn [map_source done iteratorIndexPositions streamBuffer].
  destruct (done st !!! i : bool); [done|].
  destruct (_ <? _).
  - cbn [fst snd]. f_equal. unfold cleanupStreamBuffer, increment. simpl.
    by destruct (Math_min _).
  - unfold getNextStreamElement.
    cbn [map_source streamExhausted streamError sourceIterator].
    destruct (streamExhausted st); [done|].
    destruct (truthy (streamError st)); [done|].
    rewrite Hf.
    destruct (nextA (sourceIterator st)) as [[result|e] it]; cbn [fst snd];
      [|done].
    destruct (done_of result); [done|].
    cbn [fst snd]. f_equal. unfold cleanupStreamBuffer, increment. simpl.
    by destruct (Math_min _).
Qed.

Lemma next_source {A : Type}
    (nextA : A -> completion IteratorResult * A) (i : nat)
    (st : tee_state A) :
  sourceIterator (next nextA i st).2 = sourceIterator st \/
  sourceIterator (next nextA i st).2 = (nextA (sourceIterator st)).2.
Proof.
  unfold next. destruct (done st !!! i : bool); [by left|].
  destruct (_ <? _).
  - left. cbn [snd].
    by destruct (cleanup_frame (increment i st)) as (-> & _).
  - unfold getNextStreamElement.
    destruct (streamExhausted st); [by left|].
    destruct (truthy (streamError st)); [by left|].
    right. destruct (nextA (sourceIterator st)) as [[result|e] it];
      cbn [fst snd]; [|done].
    destruct (done_of result); [done|]. cbn [snd].
    match goal with
    | |- context [cleanupStreamBuffer ?s] =>
        by destruct (cleanup_frame s) as (-> & _)
    end.
Qed.

(** Over an array that stays as it is, the iterator of the array answers
    as the scripted source does. *)
Lemma ArrayIterator_next_to_live (S : list value) (sc : Scripted) :
  source_ok S sc ->
  ArrayIterator_next S (to_live S sc)
  = ((Scripted_next sc).1, to_live S (Scripted_next sc).2) /\
  source_ok S (Scripted_next sc).2.
Proof.
  unfold source_ok, ArrayIterator_next, Scripted_next, to_live.
  destruct sc as [sc p]. cbn [script pulls nextIndex closed asked].
  intros ->.
  destruct (decide (p < length S)%nat) as [Hlt|Hge].
  - destruct (lookup_lt_is_Some_2 S p Hlt) as [v Hv].
    rewrite (drop_S _ _ _ Hv). cbn [fmap list_fmap fst snd pulls script].
    rewrite bool_decide_eq_false_2 by lia.
    rewrite Nat.min_l by lia. rewrite Hv.
    rewrite bool_decide_eq_false_2 by lia.
    rewrite Nat.min_l by lia. done.
  - rewrite drop_ge by lia. cbn [fmap list_fmap fst snd pulls script].
    rewrite (drop_ge S (Datatypes.S p)) by lia.
    rewrite !Nat.min_r by lia.
    rewrite (bool_decide_eq_true_2 (length S < Datatypes.S p)%nat) by lia.
    case_bool_decide; [done|].
    by rewrite lookup_ge_None_2 by lia.
Qed.

Lemma next_live (S : list value) (i : nat) (st : tee_state Scripted) :
  source_ok S (sourceIterator st) ->
  next (ArrayIterator_next S) i (map_source (to_live S) st)
  = ((next Scripted_next i st).1,
     map_source (to_live S) (next Scripted_next i st).2) /\
  source_ok S (sourceIterator (next Scripted_next i st).2).
Proof.
  intros Hok.
  destruct (ArrayIterator_next_to_live S _ Hok) as [Hnext Hok'].
  split; [by apply next_map_source|].
  by destruct (next_source Scripted_next i st) as [-> | ->].
Qed.

Lemma return_map_source {A B : Type} (f : A -> B) (i : nat) (v : value)
    (st : tee_state A) :
  (return_ i v (map_source f st)).2 = map_source f (return_ i v st).2.
Proof.
  unfold return_. cbn [map_source done].
  by destruct (done st !!! i : bool).
Qed.

Section PureCalls.

Context {World : Type}.
Variable this_array : World -> list value.
Variable call : nat -> list value -> completion value.
Variable call_live :
  nat -> list value -> World -> option (completion value * World).
Hypothesis pure : pure_calls call call_live.

Lemma consume_live_pure (fn elem : value) (L : locals)
    (log : list call_record) (w : World) :
  consume_live call_live fn elem L log w
  = Some (consume call fn elem L log, w).
Proof.
  unfold consume_live, consume, call_then, js_call_live, js_call.
  repeat match goal with
         | |- context [if is_string ?s ?v then _ else _] =>
             destruct (is_string s v)
         end;
    try destruct (_ && _); try done.
  all: destruct (get fn "fn"); try done.
  all: rewrite pure; by destruct (call _ _).
Qed.

Lemma for_of_source_ok (S : list value) (fuel : nat) (i : nat) (fn : value) :
  forall (st : tee_state Scripted) (L : locals) (log : list call_record)
         r st' log',
    source_ok S (sourceIterator st) ->
    for_of call fuel i fn st L log = Some (r, st', log') ->
    source_ok S (sourceIterator st').
Proof.
  induction fuel as [|fuel IH]; intros st L log r st' log' Hok Hfor;
    [done|].
  cbn [for_of] in Hfor.
  destruct (next_live S i st Hok) as [_ Hok'].
  destruct (next Scripted_next i st) as [[result|e] st1]; cbn [snd] in *.
  - destruct (done_of result); [by injection Hfor as _ <- _|].
    destruct (consume call fn (value_of result) L log) as [[L'|e] log1].
    + by eapply IH.
    + injection Hfor as _ <- _. unfold return_.
      by destruct (done st1 !!! i : bool).
  - by injection Hfor as _ <- _.
Qed.

Lemma for_of_live_pure (S : list value) (fuel : nat) (i : nat) (fn : value) :
  forall (st : tee_state Scripted) (L : locals) (log : list call_record)
         (w : World),
    this_array w = S ->
    source_ok S (sourceIterator st) ->
    for_of_live this_array call_live fuel i fn
      (map_source (to_live S) st) L log w
    = (fun r : completion locals * tee_state Scripted * list call_record =>
         (r.1.1, map_source (to_live S) r.1.2, r.2, w))
      <$> for_of call fuel i fn st L log.
Proof.
  induction fuel as [|fuel IH]; intros st L log w Hw Hok; [done|].
  cbn [for_of_live for_of]. rewrite Hw.
  destruct (next_live S i st Hok) as [-> Hok'].
  destruct (next Scripted_next i st) as [[result|e] st1]; cbn [fst snd] in *;
    [|done].
  destruct (done_of result); [done|].
  rewrite consume_live_pure.
  destruct (consume call fn (value_of result) L log) as [[L'|e] log1].
  - by apply IH.
  - cbn [fmap option_fmap option_map fst snd].
    by rewrite return_map_source.
Qed.

Lemma process_live_pure (S : list value) (fuel : nat)
    (consumerFns : list value) :
  forall (k : nat) (st : tee_state Scripted) (out : list value)
         (log : list call_record) (w : World),
    this_array w = S ->
    source_ok S (sourceIterator st) ->
    process_live this_array call_live fuel consumerFns k
      (map_source (to_live S) st) out log w
    = (fun r : completion (list value) * tee_state Scripted
               * list call_record =>
         (r.1.1, map_source (to_live S) r.1.2, r.2, w))
      <$> process call fuel consumerFns k st out log.
Proof.
  induction consumerFns as [|fn rest IH]; intros k st out log w Hw Hok;
    [done|].
  cbn [process_live process].
  rewrite (for_of_live_pure S fuel k fn st _ log w Hw Hok).
  destruct (for_of call fuel k fn st (initial_locals fn) log)
    as [[[[L'|e] st1] log1]|] eqn:Hfor;
    cbn [fmap option_fmap option_map fst snd]; [|done|done].
  apply IH; [done|]. by eapply for_of_source_ok.
Qed.

Lemma createTeeIterators_live (S : list value) (n : nat) :
  createTeeIterators array_symbol_iterator [VArr S; of_nat n]
  = match createTeeIterators host_symbol_iterator [VArr S; of_nat n] with
    | Normal st => Normal (map_source (to_live S) st)
    | Throw e => Throw e
    end.
Proof.
  unfold createTeeIterators.
  cbn [length Nat.eqb negb lookup list_lookup default from_option id
       array_symbol_iterator host_symbol_iterator of_nat of_Z].
  destruct (Array_length _); [|done].
  unfold tee_init, map_source, to_live, values.
  cbn [count sourceIterator iteratorIndexPositions streamBuffer
       streamExhausted streamError done pulls].
  by rewrite bool_decide_eq_false_2 by lia.
Qed.

(** With pure consumer functions the runner in the world does what
    [teeConsumers] does, and leaves the world as it is. *)
Lemma teeConsumers_live_pure (fuel : nat) (w : World)
    (consumers : list value) :
  teeConsumers_live this_array call_live fuel w consumers
  = (fun ex => (ex, w))
    <$> teeConsumers call fuel (VArr (this_array w)) consumers.
Proof.
  unfold teeConsumers_live, teeConsumers. cbn [Array_isArray negb].
  destruct (length consumers =? 0)%nat; [done|].
  destruct (validate consumers); [done|].
  rewrite createTeeIterators_live.
  destruct (createTeeIterators host_symbol_iterator _) as [st|e] eqn:Hc;
    [|done].
  rewrite (process_live_pure (this_array w)); [| done |].
  - destruct (process call fuel consumers 0 st _ [])
      as [[[[out|e] st1] log1]|]; done.
  - unfold createTeeIterators in Hc.
    cbn [length Nat.eqb negb lookup list_lookup default from_option id
         host_symbol_iterator of_nat of_Z] in Hc.
    destruct (Array_length _); [|done]. by injection Hc as <-.
Qed.

End PureCalls.

(** ** What pure consumer functions are promised *)

Section PureRuns.

Context {World : Type}.
Variable this_array : World -> list value.
Variable call : nat -> list value -> completion value.
Variable call_live :
  nat -> list value -> World -> option (completion value * World).

(** The loop of a forEach consumer whose function appends to the array:
    every pull finds an element. *)
Lemma next_caught_up (w : list value) (p : nat) (v : value) :
  w !! p = Some v ->
  next (ArrayIterator_next w) 0 (caught_up p)
  = (yield v, caught_up (Datatypes.S p)).
Proof.
  intros Hv. unfold next, getNextStreamElement, ArrayIterator_next, caught_up.
  cbn [done iteratorIndexPositions streamBuffer streamExhausted streamError
       sourceIterator nextIndex closed asked lookup_total list_lookup_total
       length truthy]. simpl. rewrite Hv. reflexivity.
Qed.

Lemma pushing_loop_never_ends (fuel : nat) :
  forall (p : nat) (L : locals) (log : list call_record) (w : list value),
    (p < length w)%nat ->
    for_of_live (fun w => w) pushing_call fuel 0 (descriptor "forEach" 0)
      (caught_up p) L log w
    = None.
Proof.
  induction fuel as [|fuel IH]; intros p L log w Hp; [done|].
  destruct (lookup_lt_is_Some_2 w p Hp) as [v Hv].
  cbn [for_of_live]. rewrite (next_caught_up w p v Hv).
  cbn [yield done_of value_of].
  change (consume_live pushing_call (descriptor "forEach" 0) v L log w)
    with (Some (Normal (elementIdx_incr L),
                log ++ [(VFun 0, [v; of_nat (elementIdx L)])], w ++ [v])).
  apply IH. rewrite length_app. simpl. lia.
Qed.

(** X12: with pure consumer functions the runner completes and makes one
    pass over the array, whatever the number of consumers: it leaves the
    world as it is, and the array's iterator is pulled at most once per
    element and once more for the end, exactly so often when the run
    returns.  The proviso is needed: with a forEach consumer whose
    function appends its element to the array, the run over an array that
    is not empty never returns, since every pull of the array's iterator
    finds an element. *)
Theorem array_iterated_once :
  (forall (fuel : nat) (w : World) (consumers : list value),
     pure_calls call call_live ->
     consumers <> [] -> Forall well_formed consumers ->
     Z.of_nat (length consumers) < 2 ^ 32 ->
     (length (this_array w) < fuel)%nat ->
     exists ex,
       teeConsumers_live this_array call_live fuel w consumers
       = Some (ex, w) /\
       (source_pulls ex <= length (this_array w) + 1)%nat /\
       forall v, outcome ex = Normal v ->
                 source_pulls ex = (length (this_array w) + 1)%nat) /\
  (forall (fuel : nat) (first : value) (rest : list value),
     teeConsumers_live (fun w => w) pushing_call fuel (first :: rest)
       [descriptor "forEach" 0]
     = None).
Proof.
  split.
  - intros fuel w consumers Hpure Hne Hwf Hlen Hfuel.
    rewrite (teeConsumers_live_pure this_array call call_live Hpure).
    destruct (teeConsumers_execution call fuel (this_array w) consumers
                Hne Hwf Hlen Hfuel) as (n & -> & Hle & Heq).
    eexists. split; [reflexivity|]. split; [done|].
    cbn [outcome source_pulls]. intros v Hv.
    destruct (process_all call (this_array w) consumers 0 _ []).1
      as [out|e] eqn:Hout; [by apply (Heq out)|done].
  - intros fuel first rest. unfold teeConsumers_live.
    cbn [length Nat.eqb].
    change (validate [descriptor "forEach" 0]) with (@None value).
    change (createTeeIterators array_symbol_iterator
              [VArr (first :: rest); of_nat 1])
      with (Normal (caught_up 0)).
    cbn [process_live].
    by rewrite pushing_loop_never_ends by (simpl; lia).
Qed.

(** X14: with pure consumer functions a run that returns is the runs of
    its consumers alone, one after the other: the consumer functions are
    called consumer by consumer, all calls of the first consumer before
    any call of the second, and the result and the calls of each consumer
    are those of a run with that consumer alone; the results are as many
    as the consumers. *)
Theorem run_is_consumer_by_consumer
    (fuel : nat) (w w' : World) (consumers : list value)
    (ex : execution) (rs : list value) :
  pure_calls call call_live ->
  Forall well_formed consumers ->
  Z.of_nat (length consumers) < 2 ^ 32 ->
  (length (this_array w) < fuel)%nat ->
  teeConsumers_live this_array call_live fuel w consumers = Some (ex, w') ->
  outcome ex = Normal (VArr rs) ->
  exists alone : list execution,
    Forall2 (fun fn ex' =>
               teeConsumers_live this_array call_live fuel w [fn]
               = Some (ex', w))
      consumers alone /\
    Forall2 (fun ex' r => outcome ex' = Normal (VArr [r])) alone rs /\
    calls ex = concat (calls <$> alone) /\
    length rs = length consumers.
Proof.
  intros Hpure Hwf Hlen Hfuel Hrun Hout.
  rewrite (teeConsumers_live_pure this_array call call_live Hpure) in Hrun.
  destruct (teeConsumers call fuel (VArr (this_array w)) consumers)
    as [ex0|] eqn:Hrun0; [|done].
  injection Hrun as -> _.
  destruct (runs_alone call fuel (this_array w) consumers ex rs
              Hwf Hlen Hfuel Hrun0 Hout)
    as (alone & Hruns & Hres & Hcalls & Hlength).
  exists alone. split; [|done].
  eapply Forall2_impl; [exact Hruns|].
  intros fn ex' Hfn. cbn beta in *.
  by rewrite (teeConsumers_live_pure this_array call call_live Hpure), Hfn.
Qed.

End PureRuns.

Lemma array_iterated_once_witness :
  let w := [of_Z 1; of_Z 2; of_Z 3] in
  let consumers := [descriptor "map" 0; descriptor "filter" 1;
                    reducer 2 (of_Z 0)] in
  pure_calls sample_call sample_call_live /\
  consumers <> [] /\ Forall well_formed consumers /\
  Z.of_nat (length consumers) < 2 ^ 32 /\
  (length w < 4)%nat /\
  exists ex,
    teeConsumers_live (fun w => w) sample_call_live 4 w consumers
    = Some (ex, w) /\
    (source_pulls ex <= length w + 1)%nat /\
    forall v, outcome ex = Normal v -> source_pulls ex = (length w + 1)%nat.
Proof.
  intros w consumers.
  assert (pure_calls sample_call sample_call_live) as Hpure
    by (intros closure args w0; reflexivity).
  assert (Forall well_formed consumers) as Hwf
    by (repeat constructor; done).
  split; [exact Hpure|].
  split; [done|]. split; [exact Hwf|]. split; [done|]. split; [simpl; lia|].
  exact (proj1 (array_iterated_once (fun w => w) sample_call
                  sample_call_live)
           4%nat w consumers Hpure ltac:(done) Hwf ltac:(done)
           ltac:(simpl; lia)).
Defined.

Lemma run_is_consumer_by_consumer_witness :
  let w := [of_Z 1; of_Z 2] in
  let consumers := [descriptor "map" 0; reducer 2 (of_Z 0)] in
  let ex :=
    {| outcome := Normal (VArr [VArr [of_Z 2; of_Z 4]; of_Z 3]);
       calls := [(VFun 0, [of_Z 1; of_Z 0]); (VFun 0, [of_Z 2; of_Z 1]);
                 (VFun 2, [of_Z 0; of_Z 1; of_Z 0]);
                 (VFun 2, [of_Z 1; of_Z 2; of_Z 1])];
       source_pulls := 3 |} in
  let rs := [VArr [of_Z 2; of_Z 4]; of_Z 3] in
  pure_calls sample_call sample_call_live /\
  Forall well_formed consumers /\
  Z.of_nat (length consumers) < 2 ^ 32 /\
  (length w < 3)%nat /\
  teeConsumers_live (fun w => w) sample_call_live 3 w consumers
  = Some (ex, w) /\
  outcome ex = Normal (VArr rs) /\
  exists alone : list execution,
    Forall2 (fun fn ex' =>
               teeConsumers_live (fun w => w) sample_call_live 3 w [fn]
               = Some (ex', w))
      consumers alone /\
    Forall2 (fun ex' r => outcome ex' = Normal (VArr [r])) alone rs /\
    calls ex = concat (calls <$> alone) /\
    length rs = length consumers.
Proof.
  intros w consumers ex rs.
  assert (pure_calls sample_call sample_call_live) as Hpure
    by (intros closure args w0; reflexivity).
  assert (Forall well_formed consumers) as Hwf
    by (repeat constructor; done).
  assert (teeConsumers_live (fun w => w) sample_call_live 3 w consumers
          = Some (ex, w)) as Hrun by (by vm_compute).
  split; [exact Hpure|].
  split; [exact Hwf|]. split; [done|]. split; [simpl; lia|].
  split; [exact Hrun|]. split; [done|].
  exact (run_is_consumer_by_consumer (fun w => w) sample_call
           sample_call_live 3 w w consumers ex rs
           Hpure Hwf ltac:(done) ltac:(simpl; lia) Hrun eq_refl).
Defined.
